(** * ClawX: gateway bridge, auth profiles and plugin pre-flight

    A shallow embedding of the main-process code of ClawX that the
    specification talks about:

    - [electron/main/ipc-handlers.ts]: the IPC handlers of the gateway,
      shell and provider channels, the event forwarding to the renderer
      and [validateApiKeyWithProvider];
    - [electron/utils/openclaw-auth.ts]: [saveProviderKeyToOpenClaw] and
      [buildProviderEnvVars];
    - the plugin utility: [ensureRequiredPlugins] and its helpers.

    The gateway manager itself ([electron/gateway/manager]) is not part of
    the sources at hand.  The handlers take its operations as parameters;
    the RPC correlator and the lifecycle state machine are modelled from
    the specification and are marked as such. *)

From Stdlib Require Import ZArith NArith Ascii String List Lia.
From stdpp Require Import gmap list.
Import ListNotations.
Local Open Scope string_scope.
Local Open Scope list_scope.
Local Set Warnings "-register-all".

(** ** JavaScript values *)

Module Js.

(** A JavaScript string is a sequence of UTF-16 code units. *)
Abbreviation jsstring := (list N).

(** An ASCII literal as a JavaScript string. *)
Fixpoint js (s : string) : jsstring :=
  match s with
  | EmptyString => []
  | String a r => N_of_ascii a :: js r
  end.

(** [Error] objects: the two fields that [String(error)] and
    [error.message] read. *)
Record JsError := mkError { err_name : jsstring; err_message : jsstring }.

Inductive Value :=
| VUndef
| VNull
| VBool (b : bool)
| VNum (n : Z)
| VStr (s : jsstring)
| VArr (items : list Value)
| VObj (fields : list (jsstring * Value))
| VErr (e : JsError).

(** Result of evaluating code that may throw. *)
Inductive Outcome (A : Type) :=
| Ok (a : A)
| Throw (e : JsError).
Arguments Ok {A} a.
Arguments Throw {A} e.

Definition TypeError (msg : jsstring) : JsError := mkError (js "TypeError") msg.
Definition URIError (msg : jsstring) : JsError := mkError (js "URIError") msg.

(** [Error.prototype.toString], which is what [String(error)] calls on
    an [Error] object. *)
Definition String (e : JsError) : jsstring :=
  match err_name e, err_message e with
  | [], msg => msg
  | name, [] => name
  | name, msg => name ++ js ": " ++ msg
  end.

(** ToBoolean. *)
Definition truthy (v : Value) : bool :=
  match v with
  | VUndef | VNull => false
  | VBool b => b
  | VNum n => negb (n =? 0)%Z
  | VStr s => match s with [] => false | _ => true end
  | VArr _ | VObj _ | VErr _ => true
  end.

(** [typeof v === 'object'] *)
Definition typeof_object (v : Value) : bool :=
  match v with
  | VNull | VArr _ | VObj _ | VErr _ => true
  | _ => false
  end.

Definition eqb_str (a b : jsstring) : bool := bool_decide (a = b).

(** Own properties of a plain object, kept in insertion order. *)
Fixpoint obj_lookup (k : jsstring) (fields : list (jsstring * Value)) : option Value :=
  match fields with
  | [] => None
  | (k', v) :: rest => if eqb_str k k' then Some v else obj_lookup k rest
  end.

(** [o[k] = v] on a plain object: an existing key keeps its place. *)
Fixpoint obj_set (k : jsstring) (v : Value) (fields : list (jsstring * Value))
  : list (jsstring * Value) :=
  match fields with
  | [] => [(k, v)]
  | (k', v') :: rest =>
      if eqb_str k k' then (k, v) :: rest else (k', v') :: obj_set k v rest
  end.

(** [delete o[k]] *)
Definition obj_delete (k : jsstring) (fields : list (jsstring * Value))
  : list (jsstring * Value) :=
  filter (fun kv => k ≠ kv.1) fields.

(** [{ ...base, ...extra }]: every own property of [extra] is assigned
    in turn. *)
Definition obj_spread (base extra : list (jsstring * Value)) : list (jsstring * Value) :=
  fold_left (fun acc kv => obj_set kv.1 kv.2 acc) extra base.

(** Property read [v.k] for a key [k] that no built-in prototype
    defines (every key read in this development is of that kind:
    [message], [channels], [plugins], [load], [paths], [version],
    plugin ids).
    Reading a property of [undefined] or [null] throws. *)
Definition get_prop (v : Value) (k : jsstring) : Outcome Value :=
  match v with
  | VUndef => Throw (TypeError (js "Cannot read properties of undefined"))
  | VNull => Throw (TypeError (js "Cannot read properties of null"))
  | VObj fields => Ok (default VUndef (obj_lookup k fields))
  | VErr e =>
      Ok (if eqb_str k (js "message") then VStr (err_message e)
          else if eqb_str k (js "name") then VStr (err_name e)
          else VUndef)
  | VBool _ | VNum _ | VStr _ | VArr _ => Ok VUndef
  end.

(** *** Number to string, for integers *)

Fixpoint digits (u : Decimal.uint) : jsstring :=
  match u with
  | Decimal.Nil => []
  | Decimal.D0 r => 48%N :: digits r
  | Decimal.D1 r => 49%N :: digits r
  | Decimal.D2 r => 50%N :: digits r
  | Decimal.D3 r => 51%N :: digits r
  | Decimal.D4 r => 52%N :: digits r
  | Decimal.D5 r => 53%N :: digits r
  | Decimal.D6 r => 54%N :: digits r
  | Decimal.D7 r => 55%N :: digits r
  | Decimal.D8 r => 56%N :: digits r
  | Decimal.D9 r => 57%N :: digits r
  end.

Definition number_to_string (n : Z) : jsstring :=
  match n with
  | Z0 => js "0"
  | Zpos p => digits (Pos.to_uint p)
  | Zneg p => js "-" ++ digits (Pos.to_uint p)
  end.

(** *** encodeURIComponent *)

Definition in_range (lo hi c : N) : bool := ((lo <=? c) && (c <=? hi))%N.

(** uriUnreserved: letters, digits and [-_.!~*'()]. *)
Definition unreserved (c : N) : bool :=
  in_range 65 90 c || in_range 97 122 c || in_range 48 57 c
  || bool_decide (c ∈ js "-_.!~*'()").

Definition is_high_surrogate (c : N) : bool := in_range 55296 56319 c.
Definition is_low_surrogate (c : N) : bool := in_range 56320 57343 c.

Definition code_point (hi lo : N) : N :=
  ((hi - 55296) * 1024 + (lo - 56320) + 65536)%N.

Definition utf8 (cp : N) : list N :=
  if (cp <? 128)%N then [cp]
  else if (cp <? 2048)%N then
    [192 + cp / 64; 128 + cp mod 64]%N
  else if (cp <? 65536)%N then
    [224 + cp / 4096; 128 + (cp / 64) mod 64; 128 + cp mod 64]%N
  else
    [240 + cp / 262144; 128 + (cp / 4096) mod 64;
     128 + (cp / 64) mod 64; 128 + cp mod 64]%N.

Definition hex_digit (d : N) : N :=
  if (d <? 10)%N then (48 + d)%N else (55 + d)%N.

(** ["%XX"] with upper-case hexadecimal digits. *)
Definition percent (octet : N) : jsstring :=
  [37%N; hex_digit (octet / 16); hex_digit (octet mod 16)].

Definition escape (cp : N) : jsstring := concat (map percent (utf8 cp)).

Definition malformed : JsError := URIError (js "URI malformed").

Definition omap_out {A B} (f : A → B) (o : Outcome A) : Outcome B :=
  match o with
  | Ok a => Ok (f a)
  | Throw e => Throw e
  end.

Fixpoint encodeURIComponent (s : jsstring) : Outcome jsstring :=
  match s with
  | [] => Ok []
  | c :: rest =>
      if unreserved c then omap_out (cons c) (encodeURIComponent rest)
      else if is_high_surrogate c then
        match rest with
        | d :: rest' =>
            if is_low_surrogate d
            then omap_out (app (escape (code_point c d))) (encodeURIComponent rest')
            else Throw malformed
        | [] => Throw malformed
        end
      else if is_low_surrogate c then Throw malformed
      else omap_out (app (escape c)) (encodeURIComponent rest)
  end.

(** A string without unpaired surrogates. *)
Fixpoint well_formed (s : jsstring) : bool :=
  match s with
  | [] => true
  | c :: rest =>
      if is_high_surrogate c then
        match rest with
        | d :: rest' => is_low_surrogate d && well_formed rest'
        | [] => false
        end
      else negb (is_low_surrogate c) && well_formed rest
  end.

(** A code unit that can stand in a query parameter as it is: an
    unreserved one, or the percent sign of an escape. *)
Definition safe (c : N) : bool := unreserved c || (c =? 37)%N.

(** *** Effects

    Code that reads and changes a world [W] and may throw.  A [try]
    block keeps the changes made before the exception. *)

Definition M (W A : Type) : Type := W → Outcome A * W.

Definition ret {W A} (a : A) : M W A := fun w => (Ok a, w).
Definition throw {W A} (e : JsError) : M W A := fun w => (Throw e, w).
Definition bind {W A B} (m : M W A) (k : A → M W B) : M W B :=
  fun w =>
    match m w with
    | (Ok a, w') => k a w'
    | (Throw e, w') => (Throw e, w')
    end.
Definition try_catch {W A} (body : M W A) (handler : JsError → M W A) : M W A :=
  fun w =>
    match body w with
    | (Ok a, w') => (Ok a, w')
    | (Throw e, w') => handler e w'
    end.
Definition lift {W A} (o : Outcome A) : M W A := fun w => (o, w).

End Js.

Import Js.
Coercion Js.js : string >-> list.

Declare Scope js_scope.
Delimit Scope js_scope with js.
Notation "'let*' x ':=' m 'in' k" := (bind m (fun x => k))
  (at level 10, x name, m at level 100, k at level 200) : js_scope.
Notation "'let*' '_' ':=' m 'in' k" := (bind m (fun _ => k))
  (at level 10, m at level 100, k at level 200) : js_scope.
Local Open Scope js_scope.

(** ** The gateway manager, as the handlers see it *)

(** Modelled from the spec: the states of [GatewayStatus] (§3); the type
    is declared in [electron/gateway/manager], which is not among the
    sources. *)
Inductive GatewayState := Stopped | Starting | Running | Error.

(** Modelled from the spec: [GatewayStatus] of §3,
    [{ state, port: integer?, error: string? }]; its declaration is in
    [electron/gateway/manager], which is not among the sources. *)
Record GatewayStatus := mkStatus {
  state : GatewayState;
  port : option Z;
  error : option jsstring;
}.

(** The state as the renderer reads it ([gatewayStatus.state === 'running']). *)
Definition state_name (s : GatewayState) : jsstring :=
  match s with
  | Stopped => "stopped"
  | Starting => "starting"
  | Running => "running"
  | Error => "error"
  end.

Definition optional_field (k : jsstring) (v : option Value) : list (jsstring * Value) :=
  match v with
  | Some x => [(k, x)]
  | None => []
  end.

(** The status object as it crosses the IPC boundary. *)
Definition status_value (s : GatewayStatus) : Value :=
  VObj ([(js "state", VStr (state_name (state s)))]
        ++ optional_field "port" (VNum <$> port s)
        ++ optional_field "error" (VStr <$> error s)).

(** The operations of [GatewayManager] that the main process calls; the
    class itself is in [electron/gateway/manager], which is not among the
    sources, so the handlers take it as a parameter.  Each operation may
    throw (an [async] one: reject). *)
Record GatewayManager (W : Type) := {
  getStatus : M W GatewayStatus;
  isConnected : M W bool;
  start : M W unit;
  stop : M W unit;
  restart : M W unit;
  rpc : Value → Value → Value → M W Value;
  checkHealth : M W (list (jsstring * Value));
}.
Arguments getStatus {W} _.
Arguments isConnected {W} _.
Arguments start {W} _.
Arguments stop {W} _.
Arguments restart {W} _.
Arguments rpc {W} _ _ _ _.
Arguments checkHealth {W} _.

(** Electron's [shell] and the settings store ([electron/utils/store],
    not among the sources), parameters of the handlers as well. *)
Record Host (W : Type) := {
  getSetting : jsstring → M W jsstring;
  openExternal : Value → M W unit;
  showItemInFolder : Value → M W unit;
  openPath : Value → M W jsstring;
}.
Arguments getSetting {W} _ _.
Arguments openExternal {W} _ _.
Arguments showItemInFolder {W} _ _.
Arguments openPath {W} _ _.

(** ** IPC handlers ([electron/main/ipc-handlers.ts]) *)

Definition Handler (W : Type) : Type := list Value → M W Value.

(** The [n]-th argument of an invocation; a missing one is [undefined]. *)
Definition arg (n : nat) (args : list Value) : Value := nth n args VUndef.

Definition success_reply (extra : list (jsstring * Value)) : Value :=
  VObj ((js "success", VBool true) :: extra).

(** [{ success: false, error: String(error) }] *)
Definition failure_reply (e : JsError) : Value :=
  VObj [(js "success", VBool false); (js "error", VStr (String e))].

Definition DEFAULT_PORT : Z := 18789.

(** [status.port || 18789] *)
Definition port_or_default (status : GatewayStatus) : Z :=
  match port status with
  | Some p => if truthy (VNum p) then p else DEFAULT_PORT
  | None => DEFAULT_PORT
  end.

Section IpcHandlers.
Context {W : Type}.
Variable gatewayManager : GatewayManager W.
Variable host : Host W.

Definition gateway_status : Handler W := fun _ =>
  let* status := getStatus gatewayManager in
  ret (status_value status).

Definition gateway_isConnected : Handler W := fun _ =>
  let* connected := isConnected gatewayManager in
  ret (VBool connected).

Definition gateway_start : Handler W := fun _ =>
  try_catch
    (let* _ := start gatewayManager in ret (success_reply []))
    (fun error => ret (failure_reply error)).

Definition gateway_stop : Handler W := fun _ =>
  try_catch
    (let* _ := stop gatewayManager in ret (success_reply []))
    (fun error => ret (failure_reply error)).

Definition gateway_restart : Handler W := fun _ =>
  try_catch
    (let* _ := restart gatewayManager in ret (success_reply []))
    (fun error => ret (failure_reply error)).

Definition gateway_rpc : Handler W := fun args =>
  try_catch
    (let* result := rpc gatewayManager (arg 0 args) (arg 1 args) (arg 2 args) in
     ret (success_reply [(js "result", result)]))
    (fun error => ret (failure_reply error)).

Definition gateway_getControlUiUrl : Handler W := fun _ =>
  try_catch
    (let* status := getStatus gatewayManager in
     let* token := getSetting host "gatewayToken" in
     let port := port_or_default status in
     let* encoded := lift (encodeURIComponent token) in
     let url := js "http://127.0.0.1:" ++ number_to_string port
                ++ js "/?token=" ++ encoded in
     ret (success_reply [(js "url", VStr url); (js "port", VNum port);
                         (js "token", VStr token)]))
    (fun error => ret (failure_reply error)).

Definition gateway_health : Handler W := fun _ =>
  try_catch
    (let* health := checkHealth gatewayManager in
     ret (VObj (obj_spread [(js "success", VBool true)] health)))
    (fun error =>
       ret (VObj [(js "success", VBool false); (js "ok", VBool false);
                  (js "error", VStr (String error))])).

Definition shell_openExternal : Handler W := fun args =>
  let* _ := openExternal host (arg 0 args) in
  ret VUndef.

Definition shell_showItemInFolder : Handler W := fun args =>
  let* _ := showItemInFolder host (arg 0 args) in
  ret VUndef.

Definition shell_openPath : Handler W := fun args =>
  let* message := openPath host (arg 0 args) in
  ret (VStr message).

(** The [ipcMain.handle] calls of [registerGatewayHandlers], in order. *)
Definition gatewayHandlers : list (string * Handler W) :=
  [ ("gateway:status", gateway_status);
    ("gateway:isConnected", gateway_isConnected);
    ("gateway:start", gateway_start);
    ("gateway:stop", gateway_stop);
    ("gateway:restart", gateway_restart);
    ("gateway:rpc", gateway_rpc);
    ("gateway:getControlUiUrl", gateway_getControlUiUrl);
    ("gateway:health", gateway_health) ].

(** The [ipcMain.handle] calls of [registerShellHandlers]. *)
Definition shellHandlers : list (string * Handler W) :=
  [ ("shell:openExternal", shell_openExternal);
    ("shell:showItemInFolder", shell_showItemInFolder);
    ("shell:openPath", shell_openPath) ].

Fixpoint find_handler (channel : string) (table : list (string * Handler W))
  : option (Handler W) :=
  match table with
  | [] => None
  | (name, h) :: rest =>
      if String.eqb channel name then Some h else find_handler channel rest
  end.

(** [ipcRenderer.invoke(channel, ...args)] against the handlers above. *)
Definition invoke (channel : string) : option (Handler W) :=
  find_handler channel (gatewayHandlers ++ shellHandlers).

(** The operation of the manager or of the host behind a channel: the
    calls the handler makes, with their results dropped. *)
Definition underlying (channel : string) (args : list Value) : M W unit :=
  if String.eqb channel "gateway:status" then
    let* _ := getStatus gatewayManager in ret tt
  else if String.eqb channel "gateway:isConnected" then
    let* _ := isConnected gatewayManager in ret tt
  else if String.eqb channel "gateway:start" then start gatewayManager
  else if String.eqb channel "gateway:stop" then stop gatewayManager
  else if String.eqb channel "gateway:restart" then restart gatewayManager
  else if String.eqb channel "gateway:rpc" then
    let* _ := rpc gatewayManager (arg 0 args) (arg 1 args) (arg 2 args) in ret tt
  else if String.eqb channel "gateway:getControlUiUrl" then
    let* _ := getStatus gatewayManager in
    let* token := getSetting host "gatewayToken" in
    let* _ := lift (encodeURIComponent token) in ret tt
  else if String.eqb channel "gateway:health" then
    let* _ := checkHealth gatewayManager in ret tt
  else if String.eqb channel "shell:openExternal" then openExternal host (arg 0 args)
  else if String.eqb channel "shell:showItemInFolder" then showItemInFolder host (arg 0 args)
  else if String.eqb channel "shell:openPath" then
    let* _ := openPath host (arg 0 args) in ret tt
  else ret tt.

End IpcHandlers.

(** The gateway operations whose handler has a [try]/[catch]. *)
Definition guarded_channels : list string :=
  [ "gateway:start"; "gateway:stop"; "gateway:restart"; "gateway:rpc";
    "gateway:getControlUiUrl"; "gateway:health" ].

(** The handlers that return what the operation returns. *)
Definition plain_channels : list string :=
  [ "gateway:status"; "gateway:isConnected"; "shell:openExternal";
    "shell:showItemInFolder"; "shell:openPath" ].

(** A reply of the shape [{ success: false, error: message }]. *)
Definition is_failure (v : Value) (message : jsstring) : Prop :=
  ∃ fields, v = VObj fields
    ∧ obj_lookup "success" fields = Some (VBool false)
    ∧ obj_lookup "error" fields = Some (VStr message).

(** ** Event forwarding to the renderer ([registerGatewayHandlers]) *)

(** The main window: whether it was destroyed, and what
    [webContents.send] has delivered to the renderer, oldest first. *)
Record Window := mkWindow {
  destroyed : bool;
  sent : list (string * Value);
}.

Definition isDestroyed : M Window bool := fun w => (Ok (destroyed w), w).

(** [mainWindow.webContents.send(channel, value)]; Electron throws on a
    destroyed window. *)
Definition webContents_send (channel : string) (v : Value) : M Window unit :=
  fun w =>
    if destroyed w then (Throw (TypeError "Object has been destroyed"), w)
    else (Ok tt, mkWindow false (sent w ++ [(channel, v)])).

Definition Listener : Type := Value → M Window unit.

(** The listener of the first six topics:
    [(payload) => { if (!mainWindow.isDestroyed()) mainWindow.webContents.send(channel, payload) }] *)
Definition forward (channel : string) : Listener := fun payload =>
  let* gone := isDestroyed in
  if negb gone then webContents_send channel payload else ret tt.

(** The listener of [error], which sends [error.message]. *)
Definition forward_error : Listener := fun error =>
  let* gone := isDestroyed in
  if negb gone then
    let* message := lift (get_prop error "message") in
    webContents_send "gateway:error" message
  else ret tt.

(** The [gatewayManager.on] calls of [registerGatewayHandlers], in order. *)
Definition gatewayListeners : list (string * Listener) :=
  [ ("status", forward "gateway:status-changed");
    ("message", forward "gateway:message");
    ("notification", forward "gateway:notification");
    ("channel:status", forward "gateway:channel-status");
    ("chat:message", forward "gateway:chat-message");
    ("exit", forward "gateway:exit");
    ("error", forward_error) ].

(** Modelled from the spec: the Listener Registry and the Event
    Multiplexer's [dispatch] of §3 and §4.4, which live in
    [electron/gateway/manager], a file that is not among the sources.
    A subscription is appended; [dispatch] invokes the listeners of the
    topic in subscription order with the payload it was given, and an
    exception of one listener is caught and does not stop the others. *)
Definition on (topic : string) (listener : Listener)
  (registry : list (string * Listener)) : list (string * Listener) :=
  registry ++ [(topic, listener)].

(** Modelled from the spec: [dispatch] of §4.4, in
    [electron/gateway/manager], which is not among the sources: every
    listener of the topic, in subscription order, with the payload
    unchanged; what a listener throws is caught. *)
Fixpoint dispatch (registry : list (string * Listener)) (topic : string)
  (payload : Value) (w : Window) : Window :=
  match registry with
  | [] => w
  | (t, listener) :: rest =>
      if String.eqb topic t
      then dispatch rest topic payload (listener payload w).2
      else dispatch rest topic payload w
  end.

(** The registry once [registerGatewayHandlers] has run on a manager
    without other subscribers. *)
Definition bridge : list (string * Listener) :=
  fold_left (fun registry tl => on tl.1 tl.2 registry) gatewayListeners [].

(** The events a [GatewayManager] emits, one per [on] call of
    [registerGatewayHandlers], with the payload each listener expects. *)
Inductive GatewayEvent :=
| EvStatus (status : GatewayStatus)
| EvMessage (message : Value)
| EvNotification (notification : Value)
| EvChannelStatus (data : Value)
| EvChatMessage (data : Value)
| EvExit (code : Value)
| EvError (error : JsError).

Definition topic_of (ev : GatewayEvent) : string :=
  match ev with
  | EvStatus _ => "status"
  | EvMessage _ => "message"
  | EvNotification _ => "notification"
  | EvChannelStatus _ => "channel:status"
  | EvChatMessage _ => "chat:message"
  | EvExit _ => "exit"
  | EvError _ => "error"
  end.

Definition payload_of (ev : GatewayEvent) : Value :=
  match ev with
  | EvStatus status => status_value status
  | EvMessage v | EvNotification v | EvChannelStatus v | EvChatMessage v | EvExit v => v
  | EvError e => VErr e
  end.

(** The renderer channel each topic is forwarded on. *)
Definition channel_of (ev : GatewayEvent) : string :=
  match ev with
  | EvStatus _ => "gateway:status-changed"
  | EvMessage _ => "gateway:message"
  | EvNotification _ => "gateway:notification"
  | EvChannelStatus _ => "gateway:channel-status"
  | EvChatMessage _ => "gateway:chat-message"
  | EvExit _ => "gateway:exit"
  | EvError _ => "gateway:error"
  end.

(** What the renderer receives for an event: the payload, except for
    [error], where it is the message of the error. *)
Definition forwarded_value (ev : GatewayEvent) : Value :=
  match ev with
  | EvError e => VStr (err_message e)
  | _ => payload_of ev
  end.

Definition event_topics : list string :=
  [ "status"; "message"; "notification"; "channel:status"; "chat:message";
    "exit"; "error" ].

(** ** Lifecycle state machine *)


(** Modelled from the spec: the status before the first [start()] (§4.5). *)
Definition initial_status : GatewayStatus := mkStatus Stopped None None.







(** ** RPC correlator *)

(** Modelled from the spec: the RPC Correlator of §4.3 with the
    PendingCall mapping of §3.  [electron/gateway/manager], which
    implements it, is not among the sources. *)
Record PendingCall := mkPending { pc_method : jsstring; pc_deadline : N }.

(** Modelled from the spec: the terminal outcomes of a call (§4.3, §7). *)
Inductive Resolution :=
| Resolved (payload : Value)
| RpcError (code : Z) (message : jsstring)
| TimeoutError
| TransportClosed.

(** Modelled from the spec: the state of the Correlator (§4.3): the id
    counter, the pending calls by id, whether the transport is open, the
    clock, and the resolutions observed so far. *)
Record Correlator := mkCorrelator {
  next_id : N;
  pending : gmap N PendingCall;
  connected : bool;
  now : N;
  (** terminal resolutions in the order they were observed *)
  settled : list (N * Resolution);
}.

(** Modelled from the spec: what happens to the Correlator (§4.2, §4.3):
    a call is issued, a ResultFrame arrives, time passes, the transport
    closes or is opened. *)
Inductive CorrelatorEvent :=
| Call (method : jsstring) (params : Value) (timeoutMs : option N)
| ResultFrame (id : N) (result : Value + Z * jsstring)
| Elapse (ms : N)
| Close
| Connect.

(** Modelled from the spec: the default timeout of a call, 30 s (§4.3). *)
Definition DEFAULT_TIMEOUT : N := 30000.

(** Modelled from the spec: the Correlator before the first connection. *)
Definition initial_correlator : Correlator := mkCorrelator 0 ∅ false 0 [].

(** Modelled from the spec: the pending calls whose deadline has elapsed
    at time [t] (§4.3, outcome 3). *)
Definition expired (t : N) (calls : gmap N PendingCall) : gmap N PendingCall :=
  filter (fun kv => (pc_deadline kv.2 <=? t)%N = true) calls.

(** Modelled from the spec: one rejection per outstanding call (§4.3,
    outcome 4). *)
Definition reject_all (r : Resolution) (calls : gmap N PendingCall)
  : list (N * Resolution) :=
  (fun kv => (kv.1, r)) <$> map_to_list calls.

(** Modelled from the spec: [call] and the four outcomes of §4.3, in
    [electron/gateway/manager], which is not among the sources.  A call
    gets the next id and a deadline; a ResultFrame resolves or rejects
    the pending call of its id and is discarded when there is none; an
    elapsed deadline rejects with TimeoutError; closing the transport
    rejects every outstanding call with TransportClosed, and a call made
    while the transport is closed is rejected at once. *)
Definition correlator_step (c : Correlator) (ev : CorrelatorEvent) : Correlator :=
  match ev with
  | Call method _ timeoutMs =>
      let id := next_id c in
      if connected c then
        let deadline := (now c + default DEFAULT_TIMEOUT timeoutMs)%N in
        mkCorrelator (id + 1) (<[id := mkPending method deadline]> (pending c))
                     true (now c) (settled c)
      else
        mkCorrelator (id + 1) (pending c) false (now c)
                     (settled c ++ [(id, TransportClosed)])
  | ResultFrame id result =>
      match pending c !! id with
      | Some _ =>
          let r := match result with
                   | inl payload => Resolved payload
                   | inr (code, message) => RpcError code message
                   end in
          mkCorrelator (next_id c) (delete id (pending c)) (connected c) (now c)
                       (settled c ++ [(id, r)])
      | None => c
      end
  | Elapse ms =>
      let t := (now c + ms)%N in
      let late := expired t (pending c) in
      mkCorrelator (next_id c) (pending c ∖ late) (connected c) t
                   (settled c ++ reject_all TimeoutError late)
  | Close =>
      mkCorrelator (next_id c) ∅ false (now c)
                   (settled c ++ reject_all TransportClosed (pending c))
  | Connect =>
      mkCorrelator (next_id c) (pending c) true (now c) (settled c)
  end.

(** Modelled from the spec: the Correlator after a sequence of events. *)
Definition correlator_run (events : list CorrelatorEvent) : Correlator :=
  fold_left correlator_step events initial_correlator.

(** The resolutions observed for one call id. *)
Definition resolutions_of (id : N) (c : Correlator) : list Resolution :=
  snd <$> filter (fun kv => kv.1 = id) (settled c).

(** Every pending call and every resolution belongs to an issued id, a
    call is pending or resolved and never both, no id is resolved twice,
    and no pending call has outlived its deadline. *)
Definition correlator_invariant (c : Correlator) : Prop :=
  (∀ id, is_Some (pending c !! id) → (id < next_id c)%N)
  ∧ NoDup (settled c).*1
  ∧ (∀ id, id ∈ (settled c).*1 → (id < next_id c)%N ∧ pending c !! id = None)
  ∧ (∀ id, (id < next_id c)%N → is_Some (pending c !! id) ∨ id ∈ (settled c).*1)
  ∧ (∀ id pc, pending c !! id = Some pc → (now c <= pc_deadline pc)%N).

(** Modelled from the spec: what [await gatewayManager.rpc(...)] yields
    for a resolution: the payload, or an error of the taxonomy of §7. *)
Definition rpc_outcome (r : Resolution) : Outcome Value :=
  match r with
  | Resolved payload => Ok payload
  | RpcError _ message => Throw (mkError "RpcError" message)
  | TimeoutError => Throw (mkError "TimeoutError" [])
  | TransportClosed => Throw (mkError "TransportClosed" [])
  end.

(** ** Auth profiles ([electron/utils/openclaw-auth.ts]) *)

Definition AUTH_STORE_VERSION : Z := 1.
Definition AUTH_PROFILE_FILENAME : jsstring := "auth-profiles.json".

(** [interface AuthProfileEntry] *)
Record AuthProfileEntry := mkEntry {
  entry_type : jsstring;
  entry_provider : jsstring;
  entry_key : jsstring;
}.

(** [auth-profiles.json] once parsed.  [version] and [profiles] may be
    missing from a file that someone else wrote; [order] and [lastGood]
    are optional.  The maps are JavaScript objects taken up to the order
    of their keys. *)
Record AuthProfilesStore := mkStore {
  version : option Z;
  profiles : option (gmap (list N) AuthProfileEntry);
  order : option (gmap (list N) (list (list N)));
  lastGood : option (gmap (list N) (list N));
}.

(** What an existing file holds: content that cannot be read or that
    [JSON.parse] rejects, or JSON. *)
Inductive FileData (A : Type) :=
| Unparsable
| Parsed (a : A).
Arguments Unparsable {A}.
Arguments Parsed {A} a.

Definition PROVIDER_ENV_VARS : list (jsstring * jsstring) :=
  [ (js "anthropic", js "ANTHROPIC_API_KEY");
    (js "openai", js "OPENAI_API_KEY");
    (js "google", js "GEMINI_API_KEY");
    (js "openrouter", js "OPENROUTER_API_KEY");
    (js "groq", js "GROQ_API_KEY");
    (js "deepgram", js "DEEPGRAM_API_KEY");
    (js "cerebras", js "CEREBRAS_API_KEY");
    (js "xai", js "XAI_API_KEY");
    (js "mistral", js "MISTRAL_API_KEY") ].

Fixpoint table_lookup (k : jsstring) (table : list (jsstring * jsstring)) : option jsstring :=
  match table with
  | [] => None
  | (k', v) :: rest => if eqb_str k k' then Some v else table_lookup k rest
  end.

(** The names every plain object inherits from [Object.prototype]: a
    read [o[name]] finds them when [o] has no own property [name]. *)
Definition object_prototype_names : list jsstring :=
  js <$> [ "constructor"; "__defineGetter__"; "__defineSetter__"; "hasOwnProperty";
           "__lookupGetter__"; "__lookupSetter__"; "isPrototypeOf";
           "propertyIsEnumerable"; "toString"; "valueOf"; "__proto__";
           "toLocaleString" ].

Definition inherited (name : jsstring) : bool :=
  bool_decide (name ∈ object_prototype_names).

(** The result of a read [o[name]] on a plain object. *)
Inductive Read (A : Type) :=
| Own (a : A)
| Inherited
| Absent.
Arguments Own {A} a.
Arguments Inherited {A}.
Arguments Absent {A}.

Definition read_map {A} (o : gmap (list N) A) (name : jsstring) : Read A :=
  match o !! name with
  | Some a => Own a
  | None => if inherited name then Inherited else Absent
  end.

(** An assignment [o[name] = v] of a string [v]: [__proto__] is an
    accessor of [Object.prototype] whose setter ignores a string, unless
    [o] has an own property of that name. *)
Definition assign_map (o : gmap (list N) (list N)) (name v : jsstring)
  : gmap (list N) (list N) :=
  match o !! name with
  | Some _ => <[name := v]> o
  | None => if eqb_str name "__proto__" then o else <[name := v]> o
  end.

Section AuthProfiles.
Variable homedir : jsstring.
Variable join : list jsstring → jsstring.
(** Whether [mkdirSync] and [writeFileSync] succeed for a path. *)
Variable writable : jsstring → bool.
(** The text of the [Object.prototype] member of a name when it is used
    as a property key (implementation-defined). *)
Variable inherited_text : jsstring → jsstring.

Definition getAuthProfilesPath (agentId : jsstring) : jsstring :=
  join [homedir; js ".openclaw"; js "agents"; agentId; js "agent"; AUTH_PROFILE_FILENAME].

Definition empty_store : AuthProfilesStore :=
  mkStore (Some AUTH_STORE_VERSION) (Some ∅) None None.

(** [data.version && data.profiles && typeof data.profiles === 'object'] *)
Definition valid_store (data : AuthProfilesStore) : bool :=
  match version data, profiles data with
  | Some v, Some _ => truthy (VNum v)
  | _, _ => false
  end.

(** A missing file, a file that cannot be read or parsed and a file
    without a version or without profiles all give the empty store. *)
Definition readAuthProfiles (agentId : jsstring)
  (fs : gmap (list N) (FileData AuthProfilesStore)) : AuthProfilesStore :=
  match fs !! getAuthProfilesPath agentId with
  | Some (Parsed data) => if valid_store data then data else empty_store
  | Some Unparsable => empty_store
  | None => empty_store
  end.

(** The file then holds the store: [JSON.parse] gives back what
    [JSON.stringify] wrote.  A failure of [mkdirSync] or [writeFileSync]
    leaves the files as they were. *)
Definition writeAuthProfiles (store : AuthProfilesStore) (agentId : jsstring)
  : M (gmap (list N) (FileData AuthProfilesStore)) unit :=
  fun fs =>
    let filePath := getAuthProfilesPath agentId in
    if writable filePath then (Ok tt, <[filePath := Parsed store]> fs)
    else (Throw (mkError "Error" "EACCES: permission denied"), fs).

(** [includes] and [push] on [store.order[provider]]. *)
Definition order_with (profileId : jsstring) (ids : list (list N)) : list (list N) :=
  if bool_decide (profileId ∈ ids) then ids else ids ++ [profileId].

(** The profile is upserted, the profile id is pushed on the order list
    of the provider unless it is there, [lastGood] is set, and the store
    is written.  [store.order[provider]] is read through the prototype
    chain: for a provider named like a member of [Object.prototype] and
    without an entry of its own, the value read has no [includes] and the
    call throws before anything is written. *)
Definition saveProviderKeyToOpenClaw (provider apiKey agentId : jsstring)
  : M (gmap (list N) (FileData AuthProfilesStore)) unit :=
  fun fs =>
    let store := readAuthProfiles agentId fs in
    let profileId := provider ++ js ":default" in
    match profiles store with
    | None => (Throw (TypeError "Cannot set properties of undefined"), fs)
    | Some profiles0 =>
        let profiles1 := <[profileId := mkEntry "api_key" provider apiKey]> profiles0 in
        let order0 := default ∅ (order store) in
        let lastGood1 := assign_map (default ∅ (lastGood store)) provider profileId in
        let write order1 :=
          writeAuthProfiles
            (mkStore (version store) (Some profiles1) (Some order1) (Some lastGood1))
            agentId fs in
        match read_map order0 provider with
        | Own ids => write (<[provider := order_with profileId ids]> order0)
        | Absent => write (<[provider := order_with profileId []]> order0)
        | Inherited =>
            (Throw (TypeError "store.order[provider].includes is not a function"), fs)
        end
    end.

Definition getProviderEnvVar (provider : jsstring) : Read jsstring :=
  match table_lookup provider PROVIDER_ENV_VARS with
  | Some envVar => Own envVar
  | None => if inherited provider then Inherited else Absent
  end.

(** One turn of the loop of [buildProviderEnvVars]. *)
Definition add_env_var (env : gmap (list N) (list N)) (p : jsstring * jsstring)
  : gmap (list N) (list N) :=
  let '(type, apiKey) := p in
  match getProviderEnvVar type with
  | Own envVar =>
      if truthy (VStr envVar) && truthy (VStr apiKey) then <[envVar := apiKey]> env else env
  | Inherited =>
      if truthy (VStr apiKey) then <[inherited_text type := apiKey]> env else env
  | Absent => env
  end.

Definition buildProviderEnvVars (providers : list (jsstring * jsstring))
  : gmap (list N) (list N) :=
  fold_left add_env_var providers ∅.

End AuthProfiles.

(** The store that a successful save writes. *)
Definition saved_store (provider apiKey : jsstring) (store : AuthProfilesStore)
  : AuthProfilesStore :=
  let profileId := provider ++ js ":default" in
  let order0 := default ∅ (order store) in
  mkStore (version store)
    (Some (<[profileId := mkEntry "api_key" provider apiKey]> (default ∅ (profiles store))))
    (Some (<[provider := order_with profileId (default [] (order0 !! provider))]> order0))
    (Some (assign_map (default ∅ (lastGood store)) provider profileId)).

(** ** Provider handlers ([registerProviderHandlers]) *)

(** The fields of a [ProviderConfig] that the handlers read (the type is
    declared in [electron/utils/secure-storage]). *)
Record ProviderConfig := mkConfig {
  config_id : jsstring;
  config_type : jsstring;
}.

(** The secure storage ([electron/utils/secure-storage], not among the
    sources), over its own state [St]. *)
Record SecureStorage (St : Type) := {
  saveProvider : ProviderConfig → M St unit;
  storeApiKey : jsstring → jsstring → M St unit;
  getProvider : jsstring → M St (option ProviderConfig);
}.
Arguments saveProvider {St} _ _.
Arguments storeApiKey {St} _ _ _.
Arguments getProvider {St} _ _.

Definition in_fst {A B X} (m : M A X) : M (A * B) X :=
  fun w => let '(o, a) := m w.1 in (o, (a, w.2)).

Definition in_snd {A B X} (m : M B X) : M (A * B) X :=
  fun w => let '(o, b) := m w.2 in (o, (w.1, b)).

Section ProviderHandlers.
Context {St : Type}.
Variable storage : SecureStorage St.
Variable homedir : jsstring.
Variable join : list jsstring → jsstring.
Variable writable : jsstring → bool.

(** The inner [try { saveProviderKeyToOpenClaw(...) } catch (err) { console.warn(...) }] *)
Definition save_key_quietly (providerType apiKey : jsstring)
  : M (St * gmap (list N) (FileData AuthProfilesStore)) unit :=
  try_catch
    (in_snd (saveProviderKeyToOpenClaw homedir join writable providerType apiKey "main"))
    (fun _ => ret tt).

Definition provider_save (config : ProviderConfig) (apiKey : option jsstring)
  : M (St * gmap (list N) (FileData AuthProfilesStore)) Value :=
  try_catch
    (let* _ := in_fst (saveProvider storage config) in
     let* _ :=
       match apiKey with
       | Some k =>
           if truthy (VStr k) then
             let* _ := in_fst (storeApiKey storage (config_id config) k) in
             save_key_quietly (config_type config) k
           else ret tt
       | None => ret tt
       end in
     ret (success_reply []))
    (fun error => ret (failure_reply error)).

Definition provider_setApiKey (providerId apiKey : jsstring)
  : M (St * gmap (list N) (FileData AuthProfilesStore)) Value :=
  try_catch
    (let* _ := in_fst (storeApiKey storage providerId apiKey) in
     let* provider := in_fst (getProvider storage providerId) in
     let providerType :=
       match provider with
       | Some config =>
           if truthy (VStr (config_type config)) then config_type config else providerId
       | None => providerId
       end in
     let* _ := save_key_quietly providerType apiKey in
     ret (success_reply []))
    (fun error => ret (failure_reply error)).

End ProviderHandlers.

(** The API keys that the auth-profiles file of an agent holds. *)
Definition stored_keys (data : option (FileData AuthProfilesStore)) : list jsstring :=
  match data with
  | Some (Parsed store) =>
      (fun kv => entry_key kv.2) <$> map_to_list (default ∅ (profiles store))
  | _ => []
  end.

(** ** API key validation ([validateApiKeyWithProvider]) *)

(** WhiteSpace and LineTerminator, the code units that [trim] strips. *)
Definition is_white_space (c : N) : bool :=
  bool_decide (c ∈ [9; 10; 11; 12; 13; 32; 160; 5760; 8232; 8233; 8239; 8287;
                    12288; 65279]%N)
  || in_range 8192 8202 c.

Fixpoint trim_start (s : jsstring) : jsstring :=
  match s with
  | c :: rest => if is_white_space c then trim_start rest else s
  | [] => []
  end.

(** [String.prototype.trim] *)
Definition trim (s : jsstring) : jsstring :=
  rev (trim_start (rev (trim_start s))).

(** [{ valid: boolean; error?: string }] *)
Record Validation := mkValidation {
  valid : bool;
  validation_error : option jsstring;
}.

Section Validation.
Context {W : Type}.
(** The four validators call the vendor over the network. *)
Variable validateAnthropicKey : jsstring → M W Validation.
Variable validateOpenAIKey : jsstring → M W Validation.
Variable validateGoogleKey : jsstring → M W Validation.
Variable validateOpenRouterKey : jsstring → M W Validation.

Definition validateApiKeyWithProvider (providerType apiKey : jsstring)
  : M W Validation :=
  let trimmedKey := trim apiKey in
  if negb (truthy (VStr trimmedKey)) then
    ret (mkValidation false (Some (js "API key is required")))
  else
    try_catch
      (if eqb_str providerType "anthropic" then validateAnthropicKey trimmedKey
       else if eqb_str providerType "openai" then validateOpenAIKey trimmedKey
       else if eqb_str providerType "google" then validateGoogleKey trimmedKey
       else if eqb_str providerType "openrouter" then validateOpenRouterKey trimmedKey
       else if eqb_str providerType "ollama" then ret (mkValidation true None)
       else ret (mkValidation true None))
      (fun error => ret (mkValidation false (Some (err_message error)))).

End Validation.

(** The provider types that have a validator of their own. *)
Definition vendor_types : list jsstring :=
  js <$> [ "anthropic"; "openai"; "google"; "openrouter" ].

(** ** Plugin pre-flight (the plugin installation utility) *)

(** pluginId -> bundled directory name under [resources/plugins/] *)
Definition BUNDLED_PLUGINS : list (jsstring * jsstring) :=
  [ (js "hi-light", js "hi-light") ].

(** The part of the disk that the utility reads and writes: the config
    file [~/.openclaw/openclaw.json], the plugin directories under
    [~/.openclaw/extensions/] (a directory is the map of its files by
    relative path; [None] when [extensions/] does not exist yet), the
    bundled plugin directories of the application, and whether writing
    to the extensions directory and to the config file succeeds. *)
Record Disk := mkDisk {
  config_file : option (FileData Value);
  extensions : option (gmap (list N) (gmap (list N) (FileData Value)));
  bundled : gmap (list N) (gmap (list N) (FileData Value));
  extensions_writable : bool;
  config_writable : bool;
}.

(** [{ success: boolean; error?: string }] *)
Record InstallResult := mkInstall {
  install_success : bool;
  install_error : option jsstring;
}.

(** [a === b] on two values that were parsed separately: two objects
    are never the same object. *)
Definition strict_eq (a b : Value) : bool :=
  match a, b with
  | VUndef, VUndef | VNull, VNull => true
  | VBool x, VBool y => bool_decide (x = y)
  | VNum x, VNum y => bool_decide (x = y)
  | VStr x, VStr y => eqb_str x y
  | _, _ => false
  end.

(** [o.k = v] as [JSON.stringify] will see it: on an array, or on a
    primitive, a named property does not reach the output. *)
Definition set_prop (o : Value) (k : jsstring) (v : Value) : Value :=
  match o with
  | VObj fields => VObj (obj_set k v fields)
  | other => other
  end.

(** [k in o]; throws when [o] is a primitive. *)
Definition has_prop (k : jsstring) (o : Value) : Outcome bool :=
  match o with
  | VObj fields => Ok (bool_decide (is_Some (obj_lookup k fields)))
  | VArr _ | VErr _ => Ok false
  | _ => Throw (TypeError "Cannot use 'in' operator")
  end.

(** [loadPaths.includes(pluginPath)] *)
Definition includes (items : list Value) (s : jsstring) : bool :=
  existsb (fun v => match v with VStr x => eqb_str x s | _ => false end) items.

Section Plugins.
Variable homedir : jsstring.
Variable join : list jsstring → jsstring.
(** [getBundledPluginsDir()]: [resources/plugins] of the packaged
    application, [build/plugins] in development. *)
Variable bundledPluginsDir : jsstring.

Definition getExtensionsDir : jsstring :=
  join [homedir; js ".openclaw"; js "extensions"].

(** [BUNDLED_PLUGINS[pluginId] || pluginId] *)
Definition bundled_name (pluginId : jsstring) : jsstring :=
  match table_lookup pluginId BUNDLED_PLUGINS with
  | Some name => if truthy (VStr name) then name else pluginId
  | None => pluginId
  end.

Definition installed_dir (pluginId : jsstring) (disk : Disk)
  : option (gmap (list N) (FileData Value)) :=
  default ∅ (extensions disk) !! pluginId.

Definition isPluginInstalled (pluginId : jsstring) (disk : Disk) : bool :=
  match installed_dir pluginId disk with
  | Some dir => bool_decide (is_Some (dir !! js "package.json"))
  | None => false
  end.

(** [cpSync(bundledDir, targetDir, { recursive: true, force: true })]:
    the bundled files replace those of the same path. *)
Definition installBundledPlugin (pluginId : jsstring) (disk : Disk)
  : InstallResult * Disk :=
  match bundled disk !! bundled_name pluginId with
  | None =>
      (mkInstall false (Some (js "Bundled plugin not found: "
                              ++ join [bundledPluginsDir; bundled_name pluginId])), disk)
  | Some files =>
      if extensions_writable disk then
        let ext := default ∅ (extensions disk) in
        let target := files ∪ default ∅ (ext !! pluginId) in
        (mkInstall true None,
         mkDisk (config_file disk) (Some (<[pluginId := target]> ext)) (bundled disk)
                (extensions_writable disk) (config_writable disk))
      else (mkInstall false (Some (js "EACCES: permission denied")), disk)
  end.

(** [JSON.parse(readFileSync(join(dir, 'package.json'), 'utf-8')).version] *)
Definition package_version (dir : option (gmap (list N) (FileData Value)))
  : Outcome Value :=
  match dir with
  | Some files =>
      match files !! js "package.json" with
      | Some (Parsed pkg) => get_prop pkg "version"
      | Some Unparsable => Throw (mkError "SyntaxError" "Unexpected token")
      | None => Throw (mkError "Error" "ENOENT: no such file or directory")
      end
  | None => Throw (mkError "Error" "ENOENT: no such file or directory")
  end.

(** [bundledPkg.version !== installedPkg.version], and [false] when
    either [package.json] cannot be read or parsed. *)
Definition isBundledNewer (pluginId : jsstring) (disk : Disk) : bool :=
  match package_version (bundled disk !! bundled_name pluginId),
        package_version (installed_dir pluginId disk) with
  | Ok bundledVersion, Ok installedVersion => negb (strict_eq bundledVersion installedVersion)
  | _, _ => false
  end.

(** The cleanup of [plugins.loadPaths]: the config and [configDirty]. *)
Definition remove_loadPaths (config : Value) : Outcome (Value * bool) :=
  match get_prop config "plugins" with
  | Throw e => Throw e
  | Ok pluginsCfg =>
      if truthy pluginsCfg then
        match has_prop "loadPaths" pluginsCfg with
        | Throw e => Throw e
        | Ok true =>
            match pluginsCfg with
            | VObj fields =>
                Ok (set_prop config "plugins" (VObj (obj_delete "loadPaths" fields)), true)
            | _ => Ok (config, true)
            end
        | Ok false => Ok (config, false)
        end
      else Ok (config, false)
  end.

Definition or_empty_object (v : Value) : Value :=
  if truthy v && typeof_object v then v else VObj [].

(** Step 2: make sure the plugin path is in [plugins.load.paths]. *)
Definition add_load_path (config : Value) (pluginPath : jsstring) : Value * bool :=
  let plugins := or_empty_object (match get_prop config "plugins" with Ok v => v | Throw _ => VUndef end) in
  let load := or_empty_object (match get_prop plugins "load" with Ok v => v | Throw _ => VUndef end) in
  let loadPaths :=
    match get_prop load "paths" with
    | Ok (VArr items) => items
    | _ => []
    end in
  if includes loadPaths pluginPath then
    (set_prop config "plugins" (set_prop plugins "load" (set_prop load "paths" (VArr loadPaths))), false)
  else
    (set_prop config "plugins"
       (set_prop plugins "load"
          (set_prop load "paths" (VArr (loadPaths ++ [VStr pluginPath])))), true).

(** The body of the loop over [Object.keys(BUNDLED_PLUGINS)]: the state
    is the config, [configDirty] and the disk. *)
Definition ensure_plugin (channels : Value) (st : Value * bool * Disk)
  (pluginId : jsstring) : Value * bool * Disk :=
  let '(config, configDirty, disk) := st in
  match get_prop channels pluginId with
  | Ok wanted =>
      if negb (truthy wanted) then st
      else
        let '(proceed, disk1) :=
          if negb (isPluginInstalled pluginId disk) then
            let '(result, d) := installBundledPlugin pluginId disk in
            (install_success result, d)
          else if isBundledNewer pluginId disk then
            (true, (installBundledPlugin pluginId disk).2)
          else (true, disk) in
        if proceed then
          let pluginPath := join [getExtensionsDir; pluginId] in
          let '(config1, added) := add_load_path config pluginPath in
          (config1, configDirty || added, disk1)
        else (config, configDirty, disk1)
  | Throw _ => st
  end.

(** [writeFileSync(configPath, JSON.stringify(config, null, 2))] inside
    its [try]: a failure is logged and changes nothing. *)
Definition write_config (config : Value) (disk : Disk) : Disk :=
  if config_writable disk then
    mkDisk (Some (Parsed config)) (extensions disk) (bundled disk)
           (extensions_writable disk) (config_writable disk)
  else disk.

(** The log calls are left out.  A config file that cannot be read or
    parsed ends the function at once; a missing one is the empty
    config. *)
Definition ensureRequiredPlugins : M Disk unit := fun disk =>
  match config_file disk with
  | Some Unparsable => (Ok tt, disk)
  | file =>
      let config := match file with Some (Parsed c) => c | _ => VObj [] end in
      match get_prop config "channels" with
      | Throw e => (Throw e, disk)
      | Ok channels =>
          if negb (truthy channels) then (Ok tt, disk)
          else
            match remove_loadPaths config with
            | Throw e => (Throw e, disk)
            | Ok (config1, dirty1) =>
                let '(config2, configDirty, disk2) :=
                  fold_left (ensure_plugin channels) (fst <$> BUNDLED_PLUGINS)
                            (config1, dirty1, disk) in
                (Ok tt, if configDirty then write_config config2 disk2 else disk2)
            end
      end
  end.

End Plugins.

(** ** Sample managers, hosts and disks for the examples *)

(** A manager that was never started. *)
Definition idle_manager : GatewayManager unit := {|
  getStatus := ret initial_status;
  isConnected := ret false;
  start := throw (mkError "Error" "spawn ENOENT");
  stop := ret tt;
  restart := throw (mkError "Error" "spawn ENOENT");
  rpc := fun _ _ _ => throw (mkError "Error" "Gateway not connected");
  checkHealth := ret [(js "ok", VBool false)];
|}.

(** A host with the given gateway token and no application that opens
    external URLs. *)
Definition sample_host (token : jsstring) : Host unit := {|
  getSetting := fun _ => ret token;
  openExternal := fun _ => throw (mkError "Error" "Failed to open URL");
  showItemInFolder := fun _ => ret tt;
  openPath := fun _ => ret [];
|}.

(** A secure storage that accepts every write and knows no provider. *)
Definition blank_storage : SecureStorage unit := {|
  saveProvider := fun _ => ret tt;
  storeApiKey := fun _ _ => ret tt;
  getProvider := fun _ => ret None;
|}.

(** [path.join] on plain names. *)
Fixpoint slash_join (parts : list jsstring) : jsstring :=
  match parts with
  | [] => []
  | [p] => p
  | p :: rest => p ++ js "/" ++ slash_join rest
  end.

(** A disk of a fresh installation: the application bundles the
    [hi-light] plugin, and [~/.openclaw] holds the given config file and
    no extension. *)
Definition fresh_disk (config : option (FileData Value)) : Disk :=
  mkDisk config None
    {[ js "hi-light" :=
         {[ js "package.json" := Parsed (VObj [(js "version", VStr "1.2.0")]);
            js "openclaw.plugin.json" := Parsed (VObj []);
            js "dist/index.js" := Unparsable ]} ]}
    true true.

(** ** Reading the environment that [buildProviderEnvVars] builds *)

(** The non-empty keys that a list of providers holds for a type, in
    the order of the list. *)
Definition keys_of_type (type : jsstring) (providers : list (jsstring * jsstring))
  : list jsstring :=
  snd <$> filter (fun p => p.1 = type ∧ p.2 ≠ []) providers.

(** ** Step 1 of the pre-flight loop, on its own *)

Section PluginSteps.
Variable bundledPluginsDir : jsstring.
Variable join : list jsstring → jsstring.

(** Step 1 of the loop body of [ensureRequiredPlugins]: whether the
    loop body goes on to step 2, and the disk after the copy.  A plugin
    that is missing is installed, and the loop body goes on only when
    that succeeded; an installed one is copied again when the bundled
    version differs, whatever the copy returns. *)
Definition install_step (pluginId : jsstring) (disk : Disk) : bool * Disk :=
  if negb (isPluginInstalled pluginId disk) then
    let '(result, d) := installBundledPlugin join bundledPluginsDir pluginId disk in
    (install_success result, d)
  else if isBundledNewer pluginId disk then
    (true, (installBundledPlugin join bundledPluginsDir pluginId disk).2)
  else (true, disk).

End PluginSteps.

(** A config object on which the cleanup of [plugins.loadPaths] finds
    nothing to remove. *)
Definition clean_fields (fields : list (jsstring * Value)) : Prop :=
  remove_loadPaths (VObj fields) = Ok (VObj fields, false).

(** [config.plugins.load.paths] is an array that holds the path, and
    [config.plugins] has no [loadPaths] key. *)
Definition lists_plugin_path (config : Value) (pluginPath : jsstring) : Prop :=
  ∃ fields pf lf paths,
    config = VObj fields
    ∧ obj_lookup "plugins" fields = Some (VObj pf)
    ∧ obj_lookup "loadPaths" pf = None
    ∧ obj_lookup "load" pf = Some (VObj lf)
    ∧ obj_lookup "paths" lf = Some (VArr paths)
    ∧ includes paths pluginPath = true.

(** [plugins] is missing or a plain object whose [load] is missing or a
    plain object. *)
Definition plain_plugins (fields : list (jsstring * Value)) : Prop :=
  obj_lookup "plugins" fields = None
  ∨ ∃ pf, obj_lookup "plugins" fields = Some (VObj pf)
          ∧ (obj_lookup "load" pf = None
             ∨ ∃ lf, obj_lookup "load" pf = Some (VObj lf)).

(** ** The vendor validators ([validateAnthropicKey] and the like) *)

(** What [fetch] is called with: the URL, and the [method], [headers]
    and [body] of its second argument ([body] is the value that
    [JSON.stringify] is applied to). *)
Record Request := mkRequest {
  req_url : jsstring;
  req_method : jsstring;
  req_headers : list (jsstring * jsstring);
  req_body : Value;
}.

(** What the validators read of a [Response]: [status], and what
    [response.json()] settles with. *)
Record Response := mkResponse {
  res_status : Z;
  res_json : Outcome Value;
}.

(** [response.ok] *)
Definition response_ok (response : Response) : bool :=
  (200 <=? res_status response)%Z && (res_status response <=? 299)%Z.

(** [await response.json().catch(() => ({}))] *)
Definition response_data (response : Response) : Value :=
  match res_json response with
  | Ok data => data
  | Throw _ => VObj []
  end.

(** [{ valid, error }] as the validators build it: [error] is typed
    [string] and may hold whatever the vendor sent as [error.message]. *)
Record Verdict := mkVerdict {
  verdict_valid : bool;
  verdict_error : option Value;
}.

Definition accepted : Verdict := mkVerdict true None.
Definition rejected (message : Value) : Verdict := mkVerdict false (Some message).

(** [v?.k], and [v.k] on a [v] that is not [undefined] or [null], for
    the keys [error], [message], [type], [code] and [status]. *)
Definition opt_get (v : Value) (k : jsstring) : Value :=
  match get_prop v k with
  | Ok x => x
  | Throw _ => VUndef
  end.

(** [a || b] *)
Definition or_value (a b : Value) : Value := if truthy a then a else b.

Definition parseApiError (data : Value) : Value :=
  if negb (truthy data) || negb (typeof_object data) then VStr "Unknown error"
  else if truthy (opt_get (opt_get data "error") "message")
       then opt_get (opt_get data "error") "message"
  else if truthy (opt_get data "message") then opt_get data "message"
  else VStr "Unknown error".

Fixpoint starts_with (prefix s : jsstring) : bool :=
  match prefix, s with
  | [], _ => true
  | a :: prefix', b :: s' => (a =? b)%N && starts_with prefix' s'
  | _ :: _, [] => false
  end.

(** [s.includes(needle)] on strings *)
Fixpoint string_includes (needle s : jsstring) : bool :=
  starts_with needle s
  || match s with
     | [] => false
     | _ :: s' => string_includes needle s'
     end.

(** [`Connection error: ${error instanceof Error ? error.message : String(error)}`] *)
Definition connection_error (error : JsError) : Verdict :=
  rejected (VStr (js "Connection error: " ++ err_message error)).

(** [`API error: ${response.status}`] *)
Definition api_error (response : Response) : Value :=
  VStr (js "API error: " ++ number_to_string (res_status response)).

Definition chat_body (model : jsstring) : Value :=
  VObj [ (js "model", VStr model);
         (js "max_tokens", VNum 1);
         (js "messages", VArr [VObj [(js "role", VStr "user"); (js "content", VStr "hi")]]) ].

Definition anthropic_request (apiKey : jsstring) : Request :=
  mkRequest "https://api.anthropic.com/v1/messages" "POST"
    [ (js "Content-Type", js "application/json");
      (js "x-api-key", apiKey);
      (js "anthropic-version", js "2023-06-01") ]
    (chat_body "claude-3-haiku-20240307").

Definition openai_request (apiKey : jsstring) : Request :=
  mkRequest "https://api.openai.com/v1/chat/completions" "POST"
    [ (js "Content-Type", js "application/json");
      (js "Authorization", js "Bearer " ++ apiKey) ]
    (chat_body "gpt-4o-mini").

Definition google_request (apiKey : jsstring) : Request :=
  mkRequest
    (js "https://generativelanguage.googleapis.com/v1beta/models/gemini-2.0-flash:generateContent?key="
     ++ apiKey)
    "POST"
    [ (js "Content-Type", js "application/json") ]
    (VObj [ (js "contents", VArr [VObj [(js "parts", VArr [VObj [(js "text", VStr "hi")]])]]);
            (js "generationConfig", VObj [(js "maxOutputTokens", VNum 1)]) ]).

Definition openrouter_request (apiKey : jsstring) : Request :=
  mkRequest "https://openrouter.ai/api/v1/chat/completions" "POST"
    [ (js "Content-Type", js "application/json");
      (js "Authorization", js "Bearer " ++ apiKey);
      (js "HTTP-Referer", js "https://clawx.app");
      (js "X-Title", js "ClawX") ]
    (chat_body "meta-llama/llama-3.2-3b-instruct:free").

Section VendorValidators.
Context {W : Type}.
(** [fetch]: the vendor's answer, or a rejection (no network, a header
    value that cannot be sent, ...). *)
Variable fetch : Request → M W Response.
(** [String.prototype.toLowerCase], which follows the Unicode case
    mappings. *)
Variable toLowerCase : jsstring → jsstring.

(** [v.toLowerCase()]: only a string has the method. *)
Definition to_lower_case (v : Value) : Outcome jsstring :=
  match v with
  | VStr s => Ok (toLowerCase s)
  | VUndef | VNull => Throw (TypeError "Cannot read properties of undefined")
  | _ => Throw (TypeError "toLowerCase is not a function")
  end.

Definition validateAnthropicKey (apiKey : jsstring) : M W Verdict :=
  try_catch
    (let* response := fetch (anthropic_request apiKey) in
     let data := response_data response in
     let status := res_status response in
     if response_ok response then ret accepted
     else if (status =? 401)%Z then ret (rejected (VStr "Invalid API key"))
     else if (status =? 403)%Z then ret (rejected (parseApiError data))
     else if (status =? 429)%Z || (status =? 529)%Z then ret accepted
     else if (status =? 400)%Z || (status =? 404)%Z then
       let errorType := opt_get (opt_get data "error") "type" in
       if strict_eq errorType (VStr "authentication_error")
          || strict_eq errorType (VStr "invalid_api_key")
       then ret (rejected (VStr "Invalid API key"))
       else ret accepted
     else ret (rejected (or_value (parseApiError data) (api_error response))))
    (fun error => ret (connection_error error)).

Definition validateOpenAIKey (apiKey : jsstring) : M W Verdict :=
  try_catch
    (let* response := fetch (openai_request apiKey) in
     let data := response_data response in
     let status := res_status response in
     if response_ok response then ret accepted
     else if (status =? 401)%Z then ret (rejected (VStr "Invalid API key"))
     else if (status =? 429)%Z then ret accepted
     else if (status =? 400)%Z || (status =? 404)%Z then
       let errorCode := opt_get (opt_get data "error") "code" in
       if strict_eq errorCode (VStr "invalid_api_key")
       then ret (rejected (VStr "Invalid API key"))
       else ret accepted
     else ret (rejected (or_value (parseApiError data) (api_error response))))
    (fun error => ret (connection_error error)).

Definition validateGoogleKey (apiKey : jsstring) : M W Verdict :=
  try_catch
    (let* response := fetch (google_request apiKey) in
     let data := response_data response in
     let status := res_status response in
     if response_ok response then ret accepted
     else if (status =? 400)%Z || (status =? 401)%Z || (status =? 403)%Z then
       let errorStatus := opt_get (opt_get data "error") "status" in
       if strict_eq errorStatus (VStr "UNAUTHENTICATED")
          || strict_eq errorStatus (VStr "PERMISSION_DENIED")
       then ret (rejected (VStr "Invalid API key"))
       else
         let* errorMessage := lift (to_lower_case (parseApiError data)) in
         if string_includes "api key" errorMessage
            || string_includes "invalid" errorMessage
            || string_includes "unauthorized" errorMessage
         then ret (rejected (parseApiError data))
         else ret accepted
     else if (status =? 429)%Z then ret accepted
     else ret (rejected (or_value (parseApiError data) (api_error response))))
    (fun error => ret (connection_error error)).

(** The helper [isAuthError] of [validateOpenRouterKey]. *)
Definition isAuthError (d : Value) : Outcome bool :=
  let errorObj := opt_get d "error" in
  if negb (truthy errorObj) then Ok false
  else
    match to_lower_case (or_value (opt_get errorObj "message") (VStr "")) with
    | Throw e => Throw e
    | Ok message =>
        let code := opt_get errorObj "code" in
        match to_lower_case (or_value (opt_get errorObj "type") (VStr "")) with
        | Throw e => Throw e
        | Ok type =>
            if strict_eq code (VNum 401) || strict_eq code (VStr "401")
               || strict_eq code (VNum 403) || strict_eq code (VStr "403")
            then Ok true
            else if string_includes "auth" type || string_includes "invalid" type
            then Ok true
            else if string_includes "invalid api key" message
                    || string_includes "invalid key" message
                    || string_includes "unauthorized" message
                    || string_includes "authentication" message
                    || string_includes "invalid credentials" message
                    || string_includes "api key is not valid" message
            then Ok true
            else Ok false
        end
    end.

Definition validateOpenRouterKey (apiKey : jsstring) : M W Verdict :=
  try_catch
    (let* response := fetch (openrouter_request apiKey) in
     let data := response_data response in
     let status := res_status response in
     if response_ok response then ret accepted
     else
       let* authError := lift (isAuthError data) in
       if authError then ret (rejected (VStr "Invalid API key"))
       else if (status =? 401)%Z || (status =? 403)%Z
       then ret (rejected (VStr "Invalid API key"))
       else if (status =? 429)%Z then ret accepted
       else if (status =? 402)%Z then ret accepted
       else if (status =? 400)%Z || (status =? 404)%Z then
         let errorObj := opt_get data "error" in
         let* message :=
           lift (to_lower_case (or_value (opt_get errorObj "message") (VStr ""))) in
         if string_includes "model" message
            && negb (string_includes "key" message)
            && negb (string_includes "auth" message)
         then ret accepted
         else ret (rejected (or_value (parseApiError data)
                                      (VStr "Invalid API key or request")))
       else ret (rejected (or_value (parseApiError data) (api_error response))))
    (fun error => ret (connection_error error)).

(** [validateApiKeyWithProvider] on the four validators above. *)
Definition validateApiKey (providerType apiKey : jsstring) : M W Verdict :=
  let trimmedKey := trim apiKey in
  if negb (truthy (VStr trimmedKey)) then
    ret (rejected (VStr "API key is required"))
  else
    try_catch
      (if eqb_str providerType "anthropic" then validateAnthropicKey trimmedKey
       else if eqb_str providerType "openai" then validateOpenAIKey trimmedKey
       else if eqb_str providerType "google" then validateGoogleKey trimmedKey
       else if eqb_str providerType "openrouter" then validateOpenRouterKey trimmedKey
       else if eqb_str providerType "ollama" then ret accepted
       else ret accepted)
      (fun error => ret (rejected (VStr (err_message error)))).

(** The four vendors: the provider type, the request that the
    validator sends for a key, and the validator. *)
Definition vendors : list (jsstring * (jsstring → Request) * (jsstring → M W Verdict)) :=
  [ (js "anthropic", anthropic_request, validateAnthropicKey);
    (js "openai", openai_request, validateOpenAIKey);
    (js "google", google_request, validateGoogleKey);
    (js "openrouter", openrouter_request, validateOpenRouterKey) ].

End VendorValidators.

(** The request that validating a key of a provider type sends, if
    any. *)
Definition vendor_request (providerType : jsstring) : option (jsstring → Request) :=
  if eqb_str providerType "anthropic" then Some anthropic_request
  else if eqb_str providerType "openai" then Some openai_request
  else if eqb_str providerType "google" then Some google_request
  else if eqb_str providerType "openrouter" then Some openrouter_request
  else None.

(** A verdict whose error is a string, as a [Validation]. *)
Definition verdict_of (v : Validation) : Verdict :=
  mkVerdict (valid v) (VStr <$> validation_error v).

(** The handler of [provider:validateKey]. *)
Definition provider_validateKey {St W : Type} (storage : SecureStorage St)
  (fetch : Request → M W Response) (toLowerCase : jsstring → jsstring)
  (providerId apiKey : jsstring) : M (St * W) Verdict :=
  try_catch
    (let* provider := in_fst (getProvider storage providerId) in
     let providerType :=
       match provider with
       | Some config =>
           if truthy (VStr (config_type config)) then config_type config else providerId
       | None => providerId
       end in
     in_snd (validateApiKey fetch toLowerCase providerType apiKey))
    (fun error => ret (rejected (VStr (String error)))).

(** A network that records the requests and answers by a fixed rule. *)
Definition recording_fetch (answer : Request → Outcome Response)
  : Request → M (list Request) Response :=
  fun request log => (answer request, log ++ [request]).

(** Lower case for the letters A to Z, as [toLowerCase] does on ASCII
    text. *)
Definition ascii_lower (s : jsstring) : jsstring :=
  (fun c => if in_range 65 90 c then (c + 32)%N else c) <$> s.

(** The outcome of a run that returns a [Validation], read as one that
    returns a [Verdict]. *)
Definition verdict_run {W : Type} (r : Outcome Validation * W) : Outcome Verdict * W :=
  (omap_out verdict_of r.1, r.2).

(** ** Response headers of the Control UI ([electron/main/index.ts]) *)

(** [url.includes('127.0.0.1:18789') || url.includes('localhost:18789')] *)
Definition isGatewayUrl (url : jsstring) : bool :=
  string_includes "127.0.0.1:18789" url || string_includes "localhost:18789" url.

(** What follows [prefix] in [s], when [s] starts with it. *)
Fixpoint strip_prefix (prefix s : jsstring) : option jsstring :=
  match prefix, s with
  | [], _ => Some s
  | a :: prefix', b :: s' => if (a =? b)%N then strip_prefix prefix' s' else None
  | _ :: _, [] => None
  end.

(** The regular expression [/frame-ancestors\s+'none'/] at the start of
    [s]: what follows the match.  [\s] is the white space that [trim]
    strips; ['none'] starts with a quote, so [\s+] can only stand for the
    whole run of white space. *)
Definition match_frame_ancestors_none (s : jsstring) : option jsstring :=
  match strip_prefix "frame-ancestors" s with
  | Some (c :: rest) =>
      if is_white_space c then strip_prefix "'none'" (trim_start rest) else None
  | _ => None
  end.

(** [csp.replace(/frame-ancestors\s+'none'/g, "frame-ancestors 'self' *")]
    on the first [fuel] code units of [s]: the matches are replaced from
    left to right, the search going on after each match. *)
Fixpoint replace_from (fuel : nat) (s : jsstring) : jsstring :=
  match fuel with
  | O => s
  | S fuel' =>
      match s with
      | [] => []
      | c :: rest =>
          match match_frame_ancestors_none s with
          | Some after => js "frame-ancestors 'self' *" ++ replace_from fuel' after
          | None => c :: replace_from fuel' rest
          end
      end
  end.

Definition relax_frame_ancestors (csp : jsstring) : jsstring :=
  replace_from (length csp) csp.

(** Whether the regular expression matches somewhere in [s]. *)
Fixpoint mentions_frame_ancestors_none (s : jsstring) : bool :=
  match s with
  | [] => false
  | _ :: rest =>
      bool_decide (is_Some (match_frame_ancestors_none s))
      || mentions_frame_ancestors_none rest
  end.

(** The listener given to [webRequest.onHeadersReceived]: the
    [responseHeaders] that it passes to the callback.  The headers are an
    object from header names to arrays of values, or [undefined]. *)
Definition onHeadersReceived (url : jsstring)
  (responseHeaders : option (gmap (list N) (list jsstring)))
  : option (gmap (list N) (list jsstring)) :=
  if negb (isGatewayUrl url) then responseHeaders
  else
    let headers0 := default ∅ responseHeaders in
    let headers1 := delete (js "x-frame-options") (delete (js "X-Frame-Options") headers0) in
    let headers2 :=
      match headers1 !! js "Content-Security-Policy" with
      | Some values =>
          <[js "Content-Security-Policy" := relax_frame_ancestors <$> values]> headers1
      | None => headers1
      end in
    let headers3 :=
      match headers2 !! js "content-security-policy" with
      | Some values =>
          <[js "content-security-policy" := relax_frame_ancestors <$> values]> headers2
      | None => headers2
      end in
    Some headers3.

(** [check] holds of [count] integers in a row, from [first] on. *)
Fixpoint holds_from (check : Z → bool) (first : Z) (count : nat) : bool :=
  match count with
  | O => true
  | S count' => if check first then holds_from check (first + 1) count' else false
  end.

(** ** The callers of [gateway:getControlUiUrl] in the renderer *)

(** The state of the Chat page: [controlUiUrl], [loading], [error]. *)
Record ChatState := mkChat {
  controlUiUrl : option Value;
  chat_loading : bool;
  chat_error : option Value;
}.

(** [controlUiInfo] of the Settings page. *)
Record ControlUiInfo := mkInfo {
  info_url : Value;
  info_token : Value;
  info_port : Value;
}.

(** [typeof v === 'number'] *)
Definition typeof_number (v : Value) : bool :=
  match v with
  | VNum _ => true
  | _ => false
  end.

Section ControlUiCallers.
Context {W : Type}.
(** [window.electron.ipcRenderer.invoke('gateway:getControlUiUrl')] *)
Variable invokeControlUiUrl : M W Value.

(** [result.success && result.url], as a condition *)
Definition has_url (result : Value) : Outcome bool :=
  match get_prop result "success" with
  | Throw e => Throw e
  | Ok success =>
      if truthy success then omap_out truthy (get_prop result "url") else Ok false
  end.

(** [handleOpenDevConsole] of the header; the state is the list of the
    URLs given to [window.electron.openExternal]. *)
Definition handleOpenDevConsole : M (list Value * W) unit :=
  try_catch
    (let* result := in_snd invokeControlUiUrl in
     let* ok := lift (has_url result) in
     if ok then
       let* url := lift (get_prop result "url") in
       in_fst (fun opened => (Ok tt, opened ++ [url]))
     else ret tt)
    (fun _ => ret tt).

(** The effect of the Chat page that fetches the URL. *)
Definition fetchControlUiUrl (isGatewayRunning : bool) : M (ChatState * W) unit :=
  if negb isGatewayRunning then
    in_fst (fun st => (Ok tt, mkChat None false (chat_error st)))
  else
    let* _ := in_fst (fun st => (Ok tt, mkChat (controlUiUrl st) true None)) in
    let* _ :=
      try_catch
        (let* r := in_snd invokeControlUiUrl in
         let* ok := lift (has_url r) in
         if ok then
           let* url := lift (get_prop r "url") in
           in_fst (fun st => (Ok tt, mkChat (Some url) (chat_loading st) (chat_error st)))
         else
           let* error := lift (get_prop r "error") in
           in_fst (fun st =>
                     (Ok tt, mkChat (controlUiUrl st) (chat_loading st)
                                    (Some (if truthy error then error
                                           else VStr "Failed to get Control UI URL")))))
        (fun err =>
           in_fst (fun st =>
                     (Ok tt, mkChat (controlUiUrl st) (chat_loading st)
                                    (Some (VStr (String err)))))) in
    in_fst (fun st => (Ok tt, mkChat (controlUiUrl st) false (chat_error st))).

(** [result.success && result.url && result.token && typeof result.port === 'number'] *)
Definition has_info (result : Value) : Outcome bool :=
  match has_url result with
  | Throw e => Throw e
  | Ok false => Ok false
  | Ok true =>
      match get_prop result "token" with
      | Throw e => Throw e
      | Ok token =>
          if truthy token then omap_out typeof_number (get_prop result "port")
          else Ok false
      end
  end.

(** [openDevConsole] of the Settings page; the state is
    [controlUiInfo] and the URLs given to [openExternal]. *)
Definition openDevConsole : M (option ControlUiInfo * list Value * W) unit :=
  try_catch
    (let* result := in_snd invokeControlUiUrl in
     let* ok := lift (has_info result) in
     if ok then
       let* url := lift (get_prop result "url") in
       let* token := lift (get_prop result "token") in
       let* port := lift (get_prop result "port") in
       in_fst (fun st => (Ok tt, (Some (mkInfo url token port), st.2 ++ [url])))
     else ret tt)
    (fun _ => ret tt).

End ControlUiCallers.

(** ** The skills store ([src/stores/skills.ts])

    The data is taken at its declared types.  An action runs from its
    start to its end; what other actions do to the store while it waits
    for a reply is not modelled. *)

(** [x || fallback] on an optional string *)
Definition or_string (x : option jsstring) (fallback : jsstring) : jsstring :=
  match x with
  | Some s => if truthy (VStr s) then s else fallback
  | None => fallback
  end.

(** [a && b] on optional booleans *)
Definition and_optional (a b : option bool) : option bool :=
  match a with
  | Some true => b
  | other => other
  end.

(** The two icons, as the source file spells them. *)
Definition ICON_PACKAGE : jsstring := [240; 376; 8220; 166]%N.
Definition ICON_HOURGLASS : jsstring := [226; 338; 8250]%N.

Section SkillsStore.
(** The type of the config objects of skills, which the store copies
    and merges and never looks into. *)
Context {C : Type}.
Context {W : Type}.

(** [type GatewaySkillStatus] *)
Record GatewaySkillStatus := mkGatewaySkill {
  skillKey : jsstring;
  gs_slug : option jsstring;
  gs_name : option jsstring;
  gs_description : option jsstring;
  gs_disabled : option bool;
  gs_emoji : option jsstring;
  gs_version : option jsstring;
  gs_author : option jsstring;
  gs_config : option C;
  gs_bundled : option bool;
  gs_always : option bool;
}.

(** [GatewayRpcResponse<GatewaySkillsStatusResult>]: [skills] is
    [result?.skills]. *)
Record SkillsStatusReply := mkStatusReply {
  status_success : bool;
  status_skills : option (list GatewaySkillStatus);
}.

(** [type ClawHubListResult] *)
Record ClawHubListResult := mkListed {
  listed_slug : jsstring;
  listed_version : option jsstring;
}.

Record ClawHubListReply := mkListReply {
  list_success : bool;
  list_results : option (list ClawHubListResult);
}.

(** [{ success: boolean; error?: string }] *)
Record OperationReply := mkOperationReply {
  op_success : bool;
  op_error : option jsstring;
}.

(** The fields of a [Skill] that the store sets. *)
Record Skill := mkSkill {
  skill_id : jsstring;
  skill_slug : jsstring;
  skill_name : jsstring;
  skill_description : jsstring;
  skill_enabled : bool;
  skill_icon : jsstring;
  skill_version : jsstring;
  skill_author : option jsstring;
  skill_config : C;
  skill_isCore : option bool;
  skill_isBundled : option bool;
}.

(** The fields of the store that the actions below read or write. *)
Record SkillsState := mkSkillsState {
  skills : list Skill;
  skills_loading : bool;
  installing : gmap (list N) bool;
  skills_error : option jsstring;
}.

(** The channels that the actions invoke; each call may be rejected. *)
Record SkillsIpc := {
  rpc_skills_status : M W SkillsStatusReply;
  clawhub_list : M W ClawHubListReply;
  (** [configResult[key] || {}] for the reply of [skill:getAllConfigs] *)
  skill_getAllConfigs : M W (jsstring → C);
  rpc_skills_update : jsstring → bool → M W OperationReply;
  clawhub_install : jsstring → option jsstring → M W OperationReply;
  clawhub_uninstall : jsstring → M W OperationReply;
}.

Variable ipc : SkillsIpc.
(** [{ ...(a || {}), ...b }] *)
Variable merge_config : option C → C → C.

(** [set(update)] and [get()] of the store *)
Definition set_state (update : SkillsState → SkillsState) : M (SkillsState * W) unit :=
  fun sw => (Ok tt, (update sw.1, sw.2)).

Definition get_state : M (SkillsState * W) SkillsState :=
  fun sw => (Ok sw.1, sw).

(** The mapping of a gateway skill in [fetchSkills]. *)
Definition from_gateway (directConfig : jsstring → C) (s : GatewaySkillStatus) : Skill :=
  mkSkill (skillKey s)
          (or_string (gs_slug s) (skillKey s))
          (or_string (gs_name s) (skillKey s))
          (or_string (gs_description s) [])
          (negb (default false (gs_disabled s)))
          (or_string (gs_emoji s) ICON_PACKAGE)
          (or_string (gs_version s) "1.0.0")
          (gs_author s)
          (merge_config (gs_config s) (directConfig (skillKey s)))
          (and_optional (gs_bundled s) (gs_always s))
          (gs_bundled s).

(** One turn of the [forEach] over the ClawHub results. *)
Definition add_listed (directConfig : jsstring → C) (combinedSkills : list Skill)
  (cs : ClawHubListResult) : list Skill :=
  match find (fun s => eqb_str (skill_id s) (listed_slug cs)) combinedSkills with
  | Some _ => combinedSkills
  | None =>
      combinedSkills ++
      [ mkSkill (listed_slug cs) (listed_slug cs) (listed_slug cs)
                "Recently installed, initializing..." false ICON_HOURGLASS
                (or_string (listed_version cs) "unknown") None
                (directConfig (listed_slug cs)) (Some false) (Some false) ]
  end.

Definition fetchSkills : M (SkillsState * W) unit :=
  let* st := get_state in
  let* _ :=
    match skills st with
    | [] => set_state (fun s => mkSkillsState (skills s) true (installing s) None)
    | _ => ret tt
    end in
  try_catch
    (let* gatewayResult := in_snd (rpc_skills_status ipc) in
     let* clawhubResult := in_snd (clawhub_list ipc) in
     let* configResult := in_snd (skill_getAllConfigs ipc) in
     let* current := get_state in
     let currentSkills := skills current in
     let combinedSkills :=
       match status_success gatewayResult, status_skills gatewayResult with
       | true, Some gatewaySkills => from_gateway configResult <$> gatewaySkills
       | _, _ => currentSkills
       end in
     let merged :=
       match list_success clawhubResult, list_results clawhubResult with
       | true, Some results => fold_left (add_listed configResult) results combinedSkills
       | _, _ => combinedSkills
       end in
     set_state (fun s => mkSkillsState merged false (installing s) (skills_error s)))
    (fun _ => set_state (fun s => mkSkillsState (skills s) false (installing s) (skills_error s))).

(** [try { ... } finally { ... }] *)
Definition try_finally {A} (body : M (SkillsState * W) A) (cleanup : M (SkillsState * W) unit)
  : M (SkillsState * W) A :=
  fun sw =>
    match body sw with
    | (o, sw') =>
        match cleanup sw' with
        | (Ok _, sw'') => (o, sw'')
        | (Throw e, sw'') => (Throw e, sw'')
        end
    end.

(** [new Error(message)] *)
Definition new_Error (message : jsstring) : JsError := mkError "Error" message.

Definition installSkill (slug : jsstring) (version : option jsstring)
  : M (SkillsState * W) unit :=
  let* _ := set_state (fun s => mkSkillsState (skills s) (skills_loading s)
                                  (<[slug := true]> (installing s)) (skills_error s)) in
  try_finally
    (let* result := in_snd (clawhub_install ipc slug version) in
     if negb (op_success result)
     then throw (new_Error (or_string (op_error result) "Install failed"))
     else fetchSkills)
    (set_state (fun s => mkSkillsState (skills s) (skills_loading s)
                           (delete slug (installing s)) (skills_error s))).

Definition uninstallSkill (slug : jsstring) : M (SkillsState * W) unit :=
  let* _ := set_state (fun s => mkSkillsState (skills s) (skills_loading s)
                                  (<[slug := true]> (installing s)) (skills_error s)) in
  try_finally
    (let* result := in_snd (clawhub_uninstall ipc slug) in
     if negb (op_success result)
     then throw (new_Error (or_string (op_error result) "Uninstall failed"))
     else fetchSkills)
    (set_state (fun s => mkSkillsState (skills s) (skills_loading s)
                           (delete slug (installing s)) (skills_error s))).

(** [updateSkill(skillId, { enabled })] *)
Definition updateSkill_enabled (skillId : jsstring) (enabled : bool)
  : M (SkillsState * W) unit :=
  set_state (fun s =>
    mkSkillsState
      ((fun skill =>
          if eqb_str (skill_id skill) skillId
          then mkSkill (skill_id skill) (skill_slug skill) (skill_name skill)
                       (skill_description skill) enabled (skill_icon skill)
                       (skill_version skill) (skill_author skill) (skill_config skill)
                       (skill_isCore skill) (skill_isBundled skill)
          else skill) <$> skills s)
      (skills_loading s) (installing s) (skills_error s)).

Definition enableSkill (skillId : jsstring) : M (SkillsState * W) unit :=
  let* result := in_snd (rpc_skills_update ipc skillId true) in
  if op_success result then updateSkill_enabled skillId true
  else throw (new_Error (or_string (op_error result) "Failed to enable skill")).

Definition disableSkill (skillId : jsstring) : M (SkillsState * W) unit :=
  let* st := get_state in
  match find (fun s => eqb_str (skill_id s) skillId) (skills st) with
  | Some skill =>
      match skill_isCore skill with
      | Some true => throw (new_Error "Cannot disable core skill")
      | _ =>
          let* result := in_snd (rpc_skills_update ipc skillId false) in
          if op_success result then updateSkill_enabled skillId false
          else throw (new_Error (or_string (op_error result) "Failed to disable skill"))
      end
  | None =>
      let* result := in_snd (rpc_skills_update ipc skillId false) in
      if op_success result then updateSkill_enabled skillId false
      else throw (new_Error (or_string (op_error result) "Failed to disable skill"))
  end.

End SkillsStore.

Arguments GatewaySkillStatus : clear implicits.
Arguments SkillsStatusReply : clear implicits.
Arguments Skill : clear implicits.
Arguments SkillsState : clear implicits.
Arguments SkillsIpc : clear implicits.

(** A store with the gateway skill [git] and the ClawHub entries [git]
    and [notes] (twice). *)
Definition sample_skills_ipc : SkillsIpc unit unit :=
  {| rpc_skills_status :=
       ret (mkStatusReply true
              (Some [mkGatewaySkill "git" None None None (Some true) None None None None
                       (Some true) (Some true)]));
     clawhub_list :=
       ret (mkListReply true (Some [mkListed "git" None; mkListed "notes" (Some (js "0.2.0"));
                                    mkListed "notes" None]));
     skill_getAllConfigs := ret (fun _ => tt);
     rpc_skills_update := fun _ _ => ret (mkOperationReply true None);
     clawhub_install := fun _ _ => ret (mkOperationReply true None);
     clawhub_uninstall := fun _ => ret (mkOperationReply true None) |}.

(** ** The key step of the setup wizard ([src/pages/Setup/index.tsx]) *)

(** The state of [ProviderContent] that [handleValidateKey] writes, and
    the toasts it shows: [true] marks [toast.success], [false]
    [toast.error]. *)
Record WizardUi := mkWizardUi {
  validating : bool;
  keyValid : option bool;
  toasts : list (bool * Value);
}.

(** The main process as the wizard reaches it: the secure storage, the
    files and the network. *)
Definition on_network {St F W A} (m : M (St * W) A) : M (St * F * W) A :=
  fun sfw =>
    let '(o, (s', w')) := m (sfw.1.1, sfw.2) in (o, (s', sfw.1.2, w')).

Section SetupWizard.
Context {St W : Type}.
Variable storage : SecureStorage St.
Variable fetch : Request → M W Response.
Variable toLowerCase : jsstring → jsstring.
Variable homedir : jsstring.
Variable join : list jsstring → jsstring.
Variable writable : jsstring → bool.

Definition set_ui (update : WizardUi → WizardUi)
  : M (WizardUi * (St * gmap (list N) (FileData AuthProfilesStore) * W)) unit :=
  in_fst (fun ui => (Ok tt, update ui)).

(** [handleValidateKey], with the two channels it invokes wired to
    their handlers. *)
Definition handleValidateKey (selectedProvider : option jsstring) (apiKey : jsstring)
  : M (WizardUi * (St * gmap (list N) (FileData AuthProfilesStore) * W)) unit :=
  match selectedProvider with
  | None => ret tt
  | Some provider =>
      if negb (truthy (VStr apiKey)) || negb (truthy (VStr provider)) then ret tt
      else
        let* _ := set_ui (fun ui => mkWizardUi true None (toasts ui)) in
        let* _ :=
          try_catch
            (let* result :=
               in_snd (on_network (provider_validateKey storage fetch toLowerCase
                                     provider apiKey)) in
             let* _ := set_ui (fun ui => mkWizardUi (validating ui)
                                           (Some (verdict_valid result)) (toasts ui)) in
             if verdict_valid result then
               let* _ :=
                 try_catch
                   (let* _ := in_snd (in_fst (provider_save storage homedir join writable
                                                (mkConfig provider provider) (Some apiKey))) in
                    ret tt)
                   (fun _ => ret tt) in
               set_ui (fun ui =>
                         mkWizardUi (validating ui) (keyValid ui)
                           (toasts ui ++ [(true, VStr "API key validated and saved")]))
             else
               set_ui (fun ui =>
                         mkWizardUi (validating ui) (keyValid ui)
                           (toasts ui ++
                            [(false, or_value (default VUndef (verdict_error result))
                                              (VStr "Invalid API key"))])))
            (fun error =>
               set_ui (fun ui =>
                         mkWizardUi (validating ui) (Some false)
                           (toasts ui ++
                            [(false, VStr (js "Validation failed: " ++ String error))]))) in
        set_ui (fun ui => mkWizardUi false (keyValid ui) (toasts ui))
  end.

End SetupWizard.

(** ** The automatic start of the gateway ([initialize] in
    [electron/main/index.ts]) *)

(** The end of [initialize]: [gatewayManager.start()] in a [try], and on
    failure [mainWindow?.webContents.send('gateway:error', String(error))].
    [mainWindow] is [null] once the window was closed. *)
Definition autoStartGateway {W : Type} (gatewayManager : GatewayManager W)
  : M (option Window * W) unit :=
  try_catch
    (in_snd (start gatewayManager))
    (fun error =>
       in_fst (fun mainWindow =>
                 match mainWindow with
                 | Some window =>
                     let '(o, window') :=
                       webContents_send "gateway:error" (VStr (String error)) window in
                     (o, Some window')
                 | None => (Ok tt, None)
                 end)).

(** * Properties *)

Example encode_plain : encodeURIComponent "a b&c" = Ok (js "a%20b%26c").
Proof. reflexivity. Qed.

Example encode_euro : encodeURIComponent [8364%N] = Ok (js "%E2%82%AC").
Proof. reflexivity. Qed.

Example encode_pair : encodeURIComponent [55357%N; 56832%N] = Ok (js "%F0%9F%98%80").
Proof. reflexivity. Qed.

Example port_text : number_to_string 18789 = js "18789".
Proof. reflexivity. Qed.


(** ** C1: failures at the IPC boundary *)

Section IpcFailures.
Context {W : Type}.
Variable gatewayManager : GatewayManager W.
Variable host : Host W.

Lemma failure_reply_shape (e : JsError) : is_failure (failure_reply e) (String e).
Proof. eexists. split; [reflexivity|]. split; reflexivity. Qed.

(** A handler of the form [try { await op; return ok } catch { return failure }]. *)
Lemma try_catch_total {A} (body : M W A) (reply : A → Value) (w : W) :
  ∃ v w', try_catch (let* a := body in ret (reply a))
                    (fun error => ret (failure_reply error)) w = (Ok v, w').
Proof.
  unfold try_catch, bind, ret. destruct (body w) as [[a|e] w']; eauto.
Qed.

Lemma try_catch_failure {A} (body : M W A) (reply : A → Value) (w w' : W) e :
  body w = (Throw e, w') →
  try_catch (let* a := body in ret (reply a))
            (fun error => ret (failure_reply error)) w = (Ok (failure_reply e), w').
Proof. intros H. unfold try_catch, bind, ret. now rewrite H. Qed.

Lemma guarded_never_raises (channel : string) (args : list Value) (w : W) :
  channel ∈ guarded_channels →
  ∃ h, invoke gatewayManager host channel = Some h
       ∧ ∃ v w', h args w = (Ok v, w').
Proof.
  intros Hin. unfold guarded_channels in Hin.
  repeat (apply elem_of_cons in Hin as [->|Hin]); [..|inversion Hin];
    eexists; (split; [reflexivity|]);
    unfold gateway_start, gateway_stop, gateway_restart, gateway_rpc,
      gateway_getControlUiUrl, gateway_health, try_catch, bind, ret, lift.
  - destruct (start gatewayManager w) as [[[]|e] w']; eauto.
  - destruct (stop gatewayManager w) as [[[]|e] w']; eauto.
  - destruct (restart gatewayManager w) as [[[]|e] w']; eauto.
  - destruct (rpc gatewayManager _ _ _ w) as [[r|e] w']; eauto.
  - destruct (getStatus gatewayManager w) as [[s|e] w1]; eauto.
    destruct (getSetting host _ w1) as [[t|e] w2]; eauto.
    destruct (encodeURIComponent t); eauto.
  - destruct (checkHealth gatewayManager w) as [[r|e] w']; eauto.
Qed.

Lemma guarded_failure_reply (channel : string) (args : list Value) (w w' : W) e :
  channel ∈ guarded_channels →
  underlying gatewayManager host channel args w = (Throw e, w') →
  ∃ h, invoke gatewayManager host channel = Some h
       ∧ ∃ v, h args w = (Ok v, w') ∧ is_failure v (String e)
              ∧ (channel = "gateway:health" →
                 v = VObj [(js "success", VBool false); (js "ok", VBool false);
                           (js "error", VStr (String e))])
              ∧ (channel ≠ "gateway:health" → v = failure_reply e).
Proof.
  intros Hin. unfold guarded_channels in Hin.
  repeat (apply elem_of_cons in Hin as [->|Hin]); [..|inversion Hin];
    cbn [underlying String.eqb Ascii.eqb Bool.eqb];
    intros Hop; eexists; (split; [reflexivity|]);
    unfold gateway_start, gateway_stop, gateway_restart, gateway_rpc,
      gateway_getControlUiUrl, gateway_health, try_catch, bind, ret, lift in *.
  - rewrite Hop. eexists. split; [reflexivity|]. split; [apply failure_reply_shape|].
    split; [discriminate|reflexivity].
  - rewrite Hop. eexists. split; [reflexivity|]. split; [apply failure_reply_shape|].
    split; [discriminate|reflexivity].
  - rewrite Hop. eexists. split; [reflexivity|]. split; [apply failure_reply_shape|].
    split; [discriminate|reflexivity].
  - destruct (rpc gatewayManager _ _ _ w) as [[r|e'] w1]; inversion Hop; subst.
    eexists. split; [reflexivity|]. split; [apply failure_reply_shape|].
    split; [discriminate|reflexivity].
  - destruct (getStatus gatewayManager w) as [[s|e'] w1].
    + destruct (getSetting host _ w1) as [[t|e''] w2].
      * destruct (encodeURIComponent t); inversion Hop; subst.
        eexists. split; [reflexivity|]. split; [apply failure_reply_shape|].
        split; [discriminate|reflexivity].
      * inversion Hop; subst.
        eexists. split; [reflexivity|]. split; [apply failure_reply_shape|].
        split; [discriminate|reflexivity].
    + inversion Hop; subst.
      eexists. split; [reflexivity|]. split; [apply failure_reply_shape|].
      split; [discriminate|reflexivity].
  - destruct (checkHealth gatewayManager w) as [[r|e'] w1]; inversion Hop; subst.
    eexists. split; [reflexivity|].
    split; [eexists; split; [reflexivity|]; split; reflexivity|].
    split; [reflexivity|]. intros Hne. now contradict Hne.
Qed.

Lemma plain_failure_propagates (channel : string) (args : list Value) (w w' : W) e :
  channel ∈ plain_channels →
  underlying gatewayManager host channel args w = (Throw e, w') →
  ∃ h, invoke gatewayManager host channel = Some h ∧ h args w = (Throw e, w').
Proof.
  intros Hin. unfold plain_channels in Hin.
  repeat (apply elem_of_cons in Hin as [->|Hin]); [..|inversion Hin];
    cbn [underlying String.eqb Ascii.eqb Bool.eqb];
    intros Hop; eexists; (split; [reflexivity|]);
    unfold gateway_status, gateway_isConnected, shell_openExternal,
      shell_showItemInFolder, shell_openPath, bind, ret in *.
  - destruct (getStatus gatewayManager w) as [[s|e'] w1]; inversion Hop; now subst.
  - destruct (isConnected gatewayManager w) as [[s|e'] w1]; inversion Hop; now subst.
  - now rewrite Hop.
  - now rewrite Hop.
  - destruct (openPath host _ w) as [[s|e'] w1]; inversion Hop; now subst.
Qed.

End IpcFailures.

(** C1 (amended).  The handlers of start, stop, restart, rpc,
    getControlUiUrl and health never raise: each returns a reply, and when
    the operation behind the channel throws [e] the reply is a record with
    [success: false] and [error: String(e)] — exactly these two fields,
    except for the health check, whose reply carries [ok: false] between
    them.  The handlers of status, isConnected and of the shell channels
    have no [catch]: when the operation behind them throws, the handler
    raises the same error. *)
Theorem ipc_failure_contract {W : Type} (gatewayManager : GatewayManager W)
  (host : Host W) (channel : string) (args : list Value) (w : W) :
  (channel ∈ guarded_channels →
     ∃ h, invoke gatewayManager host channel = Some h
          ∧ (∃ v w', h args w = (Ok v, w'))
          ∧ ∀ e w', underlying gatewayManager host channel args w = (Throw e, w') →
                    ∃ v, h args w = (Ok v, w') ∧ is_failure v (String e)
                         ∧ (channel = "gateway:health" →
                            v = VObj [(js "success", VBool false); (js "ok", VBool false);
                                      (js "error", VStr (String e))])
                         ∧ (channel ≠ "gateway:health" → v = failure_reply e))
  ∧ (channel ∈ plain_channels →
     ∃ h, invoke gatewayManager host channel = Some h
          ∧ ∀ e w', underlying gatewayManager host channel args w = (Throw e, w') →
                    h args w = (Throw e, w')).
Proof.
  split; intros Hin.
  - destruct (guarded_never_raises gatewayManager host channel args w Hin)
      as (h & Hh & Hok).
    exists h. split; [exact Hh|]. split; [exact Hok|].
    intros e w' Hop.
    destruct (guarded_failure_reply gatewayManager host channel args w w' e Hin Hop)
      as (h' & Hh' & Hrep).
    rewrite Hh in Hh'. now inversion Hh'.
  - assert (∃ h, invoke gatewayManager host channel = Some h) as [h Hh].
    { unfold plain_channels in Hin.
      repeat (apply elem_of_cons in Hin as [->|Hin]); [..|inversion Hin];
        eexists; reflexivity. }
    exists h. split; [exact Hh|]. intros e w' Hop.
    destruct (plain_failure_propagates gatewayManager host channel args w w' e Hin Hop)
      as (h' & Hh' & Hrep).
    rewrite Hh in Hh'. now inversion Hh'.
Qed.

(** The contract at a manager that cannot spawn the gateway: the start
    handler answers with the failure record. *)
Lemma ipc_failure_contract_witness :
  ∃ h, invoke idle_manager (sample_host "t") "gateway:start" = Some h
       ∧ h [] tt = (Ok (failure_reply (mkError "Error" "spawn ENOENT")), tt).
Proof.
  destruct (ipc_failure_contract idle_manager (sample_host "t") "gateway:start" [] tt)
    as [Hguarded _].
  destruct Hguarded as (h & Hh & _ & Hfail).
  { unfold guarded_channels. apply elem_of_cons. now left. }
  exists h. split; [exact Hh|].
  destruct (Hfail (mkError "Error" "spawn ENOENT") tt eq_refl) as (v & Hv & _).
  rewrite Hv. inversion Hh; subst h. vm_compute in Hv. inversion Hv. reflexivity.
Defined.

(** C1 as stated fails on the shell channels: when [shell.openExternal]
    rejects, the handler of [shell:openExternal] raises that error instead
    of returning a failure record. *)
Lemma shell_failure_is_raised :
  let host := sample_host "t" in
  let e := mkError "Error" "Failed to open URL" in
  underlying idle_manager host "shell:openExternal" [VStr "x"] tt = (Throw e, tt)
  ∧ ∃ h, invoke idle_manager host "shell:openExternal" = Some h
         ∧ h [VStr "x"] tt = (Throw e, tt)
         ∧ ∀ v w', h [VStr "x"] tt ≠ (Ok v, w').
Proof.
  split; [reflexivity|]. eexists. split; [reflexivity|].
  split; [reflexivity|]. intros v w' H. discriminate H.
Qed.

(** ** C6: the Control UI accessor *)

Lemma unreserved_not_surrogate (c : N) :
  unreserved c = true → is_high_surrogate c = false ∧ is_low_surrogate c = false.
Proof.
  unfold unreserved, is_high_surrogate, is_low_surrogate, in_range.
  intros H. repeat (apply orb_prop in H as [H|H]).
  - apply andb_prop in H as [H1 H2]. apply N.leb_le in H1, H2.
    split; apply andb_false_iff; [left|left]; apply N.leb_gt; lia.
  - apply andb_prop in H as [H1 H2]. apply N.leb_le in H1, H2.
    split; apply andb_false_iff; [left|left]; apply N.leb_gt; lia.
  - apply andb_prop in H as [H1 H2]. apply N.leb_le in H1, H2.
    split; apply andb_false_iff; [left|left]; apply N.leb_gt; lia.
  - apply bool_decide_eq_true in H. cbn [js N_of_ascii N_of_digits] in H.
    repeat (apply elem_of_cons in H as [->|H]); [..|inversion H]; split; reflexivity.
Qed.

(** A string without unpaired surrogates is encoded; any other string
    makes [encodeURIComponent] throw a [URIError]. *)
Lemma encode_by_length (n : nat) (s : jsstring) :
  length s ≤ n →
  (well_formed s = true → ∃ r, encodeURIComponent s = Ok r)
  ∧ (well_formed s = false → encodeURIComponent s = Throw malformed).
Proof.
  revert s. induction n as [|n IH]; intros s Hlen.
  - destruct s; [|simpl in Hlen; lia]. split; [eauto|discriminate].
  - destruct s as [|c rest]; [split; [eauto|discriminate]|].
    simpl in Hlen.
    assert (Hrest : length rest ≤ n) by lia.
    cbn [encodeURIComponent well_formed].
    destruct (unreserved c) eqn:Hu.
    + destruct (unreserved_not_surrogate c Hu) as [Hh Hl]. rewrite Hh, Hl.
      cbn [negb andb]. destruct (IH rest Hrest) as [Hwf Hbad].
      split; intros H.
      * destruct (Hwf H) as [r ->]. eauto.
      * now rewrite (Hbad H).
    + destruct (is_high_surrogate c) eqn:Hh.
      * destruct rest as [|d rest']; [split; [discriminate|reflexivity]|].
        simpl in Hrest.
        destruct (is_low_surrogate d); cbn [andb]; [|split; [discriminate|reflexivity]].
        destruct (IH rest' ltac:(lia)) as [Hwf Hbad].
        split; intros H.
        -- destruct (Hwf H) as [r ->]. eauto.
        -- now rewrite (Hbad H).
      * destruct (is_low_surrogate c); cbn [negb andb]; [split; [discriminate|reflexivity]|].
        destruct (IH rest Hrest) as [Hwf Hbad].
        split; intros H.
        -- destruct (Hwf H) as [r ->]. eauto.
        -- now rewrite (Hbad H).
Qed.

Lemma encode_well_formed (s : jsstring) :
  well_formed s = true → ∃ r, encodeURIComponent s = Ok r.
Proof. apply (encode_by_length (length s)). lia. Qed.

Lemma encode_malformed (s : jsstring) :
  well_formed s = false → encodeURIComponent s = Throw malformed.
Proof. apply (encode_by_length (length s)). lia. Qed.

(** Division and remainder by constants, for [lia]. *)
Ltac Zify.zify_post_hook ::= Z.to_euclidean_division_equations.

Lemma hex_digit_safe (d : N) : (d < 16)%N → safe (hex_digit d) = true.
Proof.
  intros Hd. unfold safe, hex_digit, unreserved, in_range.
  destruct (d <? 10)%N eqn:H10.
  - apply N.ltb_lt in H10.
    replace ((48 <=? 48 + d)%N && (48 + d <=? 57)%N) with true.
    + now rewrite !orb_true_r.
    + symmetry. apply andb_true_iff. split; apply N.leb_le; lia.
  - apply N.ltb_ge in H10.
    replace ((65 <=? 55 + d)%N && (55 + d <=? 90)%N) with true; [reflexivity|].
    symmetry. apply andb_true_iff. split; apply N.leb_le; lia.
Qed.

Lemma percent_safe (octet : N) : (octet < 256)%N → forallb safe (percent octet) = true.
Proof.
  intros Ho. unfold percent. cbn [forallb].
  rewrite !hex_digit_safe by lia. reflexivity.
Qed.

Lemma escape_safe (cp : N) : (cp < 1114112)%N → forallb safe (escape cp) = true.
Proof.
  intros Hcp. unfold escape, utf8.
  repeat match goal with
         | |- context [(?a <? ?b)%N] => destruct (N.ltb_spec a b)
         end; cbn [map concat]; rewrite ?forallb_app, ?app_nil_r;
    rewrite !percent_safe by lia; reflexivity.
Qed.

Lemma encode_safe_by_length (n : nat) (s r : jsstring) :
  length s ≤ n →
  Forall (fun c => (c < 65536)%N) s →
  encodeURIComponent s = Ok r → forallb safe r = true.
Proof.
  revert s r. induction n as [|n IH]; intros s r Hlen Hunits Henc.
  - destruct s; [|simpl in Hlen; lia]. now inversion Henc.
  - destruct s as [|c rest]; [now inversion Henc|].
    simpl in Hlen. apply Forall_cons in Hunits as [Hc Hrest].
    cbn [encodeURIComponent] in Henc.
    destruct (unreserved c) eqn:Hu.
    + destruct (encodeURIComponent rest) as [r'|] eqn:Hr'; [|discriminate].
      inversion Henc; subst r. cbn [forallb]. unfold safe at 1. rewrite Hu.
      apply (IH rest r'); [lia|exact Hrest|exact Hr'].
    + destruct (is_high_surrogate c) eqn:Hh.
      * destruct rest as [|d rest']; [discriminate|].
        destruct (is_low_surrogate d) eqn:Hl; [|discriminate].
        destruct (encodeURIComponent rest') as [r'|] eqn:Hr'; [|discriminate].
        inversion Henc; subst r. rewrite forallb_app.
        apply Forall_cons in Hrest as [_ Hrest']. simpl in Hlen.
        rewrite (IH rest' r'); [|lia|exact Hrest'|exact Hr'].
        rewrite escape_safe; [reflexivity|].
        unfold is_high_surrogate, is_low_surrogate, in_range in Hh, Hl.
        apply andb_prop in Hh as [Hh1 Hh2]. apply andb_prop in Hl as [Hl1 Hl2].
        apply N.leb_le in Hh1, Hh2, Hl1, Hl2. unfold code_point. lia.
      * destruct (is_low_surrogate c); [discriminate|].
        destruct (encodeURIComponent rest) as [r'|] eqn:Hr'; [|discriminate].
        inversion Henc; subst r. rewrite forallb_app.
        rewrite (IH rest r'); [|lia|exact Hrest|exact Hr'].
        rewrite escape_safe; [reflexivity|lia].
Qed.

(** The encoded token holds unreserved characters and escapes only. *)
Lemma encode_safe (s r : jsstring) :
  Forall (fun c => (c < 65536)%N) s →
  encodeURIComponent s = Ok r → forallb safe r = true.
Proof. apply (encode_safe_by_length (length s)). lia. Qed.

Lemma port_or_default_spec (status : GatewayStatus) :
  port_or_default status =
    match port status with
    | Some p => if (p =? 0)%Z then DEFAULT_PORT else p
    | None => DEFAULT_PORT
    end.
Proof.
  unfold port_or_default. destruct (port status) as [p|]; [|reflexivity].
  cbn [truthy]. now destruct (p =? 0)%Z.
Qed.

(** The reply of the accessor once the status and the token were read
    and the token was encoded. *)
Lemma control_ui_success {W : Type} (gatewayManager : GatewayManager W) (host : Host W)
  (args : list Value) (w w1 w2 : W) (status : GatewayStatus) (token encoded : jsstring) :
  getStatus gatewayManager w = (Ok status, w1) →
  getSetting host "gatewayToken" w1 = (Ok token, w2) →
  encodeURIComponent token = Ok encoded →
  gateway_getControlUiUrl gatewayManager host args w =
    (Ok (success_reply
           [ (js "url", VStr (js "http://127.0.0.1:" ++ number_to_string (port_or_default status)
                              ++ js "/?token=" ++ encoded));
             (js "port", VNum (port_or_default status));
             (js "token", VStr token) ]), w2).
Proof.
  intros Hs Ht He. unfold gateway_getControlUiUrl, try_catch, bind, lift, ret.
  now rewrite Hs, Ht, He.
Qed.

(** C6 (amended).  Whenever the status and the stored gateway token can
    be read and the token has no unpaired surrogate, the accessor returns
    success with [{ url, port, token }]: [url] is
    [http://127.0.0.1:<port>/?token=<encodeURIComponent(token)>] and [port]
    is the port of the status when one is set and is not 0, otherwise
    18789.  The encoded token consists of unreserved characters and
    percent escapes only. *)
Theorem control_ui_url {W : Type} (gatewayManager : GatewayManager W) (host : Host W)
  (args : list Value) (w w1 w2 : W) (status : GatewayStatus) (token : jsstring) :
  getStatus gatewayManager w = (Ok status, w1) →
  getSetting host "gatewayToken" w1 = (Ok token, w2) →
  well_formed token = true →
  ∃ encoded p,
    encodeURIComponent token = Ok encoded
    ∧ p = match port status with
          | Some q => if (q =? 0)%Z then 18789%Z else q
          | None => 18789%Z
          end
    ∧ gateway_getControlUiUrl gatewayManager host args w =
        (Ok (VObj [ (js "success", VBool true);
                    (js "url", VStr (js "http://127.0.0.1:" ++ number_to_string p
                                     ++ js "/?token=" ++ encoded));
                    (js "port", VNum p);
                    (js "token", VStr token) ]), w2)
    ∧ (Forall (fun c => (c < 65536)%N) token → forallb safe encoded = true).
Proof.
  intros Hs Ht Hwf. destruct (encode_well_formed token Hwf) as [encoded He].
  exists encoded, (port_or_default status). split; [exact He|].
  split; [apply port_or_default_spec|]. split.
  - exact (control_ui_success gatewayManager host args w w1 w2 status token encoded Hs Ht He).
  - intros Hunits. exact (encode_safe token encoded Hunits He).
Qed.

(** The accessor on a running gateway bound to port 18790, with a token
    that needs escaping. *)
Lemma control_ui_url_witness :
  let gm := {| getStatus := ret (mkStatus Running (Some 18790%Z) None);
               isConnected := ret true; start := ret tt; stop := ret tt;
               restart := ret tt; rpc := fun _ _ _ => ret VNull;
               checkHealth := ret [] |} in
  gateway_getControlUiUrl gm (sample_host "a/b") [] tt =
    (Ok (VObj [ (js "success", VBool true);
                (js "url", VStr "http://127.0.0.1:18790/?token=a%2Fb");
                (js "port", VNum 18790);
                (js "token", VStr "a/b") ]), tt).
Proof.
  intros gm.
  destruct (control_ui_url gm (sample_host "a/b") [] tt tt tt
              (mkStatus Running (Some 18790%Z) None) "a/b"
              eq_refl eq_refl eq_refl) as (encoded & p & He & Hp & Hreply & _).
  rewrite Hreply. vm_compute in He. inversion He; subst encoded.
  cbn in Hp. subst p. reflexivity.
Defined.

(** C6 as stated fails for a token with an unpaired surrogate: the
    token is read, [encodeURIComponent] throws, and the accessor answers
    with a failure record. *)
Lemma unpaired_surrogate_token_fails :
  let host := sample_host [55296%N] in
  getSetting host "gatewayToken" tt = (Ok [55296%N], tt)
  ∧ gateway_getControlUiUrl idle_manager host [] tt
    = (Ok (VObj [ (js "success", VBool false);
                  (js "error", VStr "URIError: URI malformed") ]), tt).
Proof. split; reflexivity. Qed.

(** A status whose port is 0 is answered with the default port. *)
Example control_ui_port_zero :
  port_or_default (mkStatus Running (Some 0%Z) None) = 18789%Z.
Proof. reflexivity. Qed.

(** ** C3: status fields and reported ports *)








(** ** C4 and C5: event forwarding *)

Lemma bridge_listeners : bridge = gatewayListeners.
Proof. reflexivity. Qed.

(** [dispatch] hands the payload it was given to every listener of the
    topic, in subscription order. *)
Lemma dispatch_in_order (registry : list (string * Listener)) (topic : string)
  (payload : Value) (w : Window) :
  dispatch registry topic payload w =
    fold_left (fun w' (tl : string * Listener) => (tl.2 payload w').2)
              (filter (fun tl : string * Listener => tl.1 = topic) registry) w.
Proof.
  revert w. induction registry as [|[t l] rest IH]; intros w; [reflexivity|].
  cbn [dispatch]. rewrite filter_cons. cbn [fst].
  destruct (String.eqb_spec topic t) as [->|Hne].
  - rewrite decide_True by reflexivity. cbn [fold_left snd]. apply IH.
  - rewrite decide_False by congruence. apply IH.
Qed.

Lemma forward_open (channel : string) (payload : Value) (w : Window) :
  destroyed w = false →
  forward channel payload w = (Ok tt, mkWindow false (sent w ++ [(channel, payload)])).
Proof.
  intros Hd. unfold forward, bind, isDestroyed, webContents_send.
  cbn beta iota. rewrite Hd. cbn [negb]. now rewrite Hd.
Qed.

Lemma forward_gone (channel : string) (payload : Value) (w : Window) :
  destroyed w = true → forward channel payload w = (Ok tt, w).
Proof.
  intros Hd. unfold forward, bind, isDestroyed. cbn beta iota. now rewrite Hd.
Qed.

Lemma forward_error_open (e : JsError) (w : Window) :
  destroyed w = false →
  forward_error (VErr e) w
  = (Ok tt, mkWindow false (sent w ++ [("gateway:error"%string, VStr (err_message e))])).
Proof.
  intros Hd. unfold forward_error, bind, isDestroyed, webContents_send, lift.
  cbn beta iota. rewrite Hd. cbn [negb get_prop]. cbn beta iota. now rewrite Hd.
Qed.

Lemma forward_error_gone (payload : Value) (w : Window) :
  destroyed w = true → forward_error payload w = (Ok tt, w).
Proof.
  intros Hd. unfold forward_error, bind, isDestroyed. cbn beta iota. now rewrite Hd.
Qed.

Lemma bridge_delivers (ev : GatewayEvent) (w : Window) :
  destroyed w = false →
  dispatch bridge (topic_of ev) (payload_of ev) w
  = mkWindow false (sent w ++ [(channel_of ev, forwarded_value ev)]).
Proof.
  intros Hd. rewrite bridge_listeners.
  destruct ev; cbn [dispatch gatewayListeners topic_of String.eqb Ascii.eqb Bool.eqb
                    payload_of channel_of forwarded_value];
    rewrite ?forward_open, ?forward_error_open by exact Hd; reflexivity.
Qed.

Lemma bridge_ignores_other_topics (topic : string) (payload : Value) (w : Window) :
  topic ∉ event_topics → dispatch bridge topic payload w = w.
Proof.
  intros Hnot. rewrite dispatch_in_order, bridge_listeners.
  assert (Hnone : filter (fun tl : string * Listener => tl.1 = topic) gatewayListeners = []).
  { unfold gatewayListeners.
    repeat (rewrite filter_cons; cbn [fst];
            rewrite decide_False
              by (intros Heq; apply Hnot; rewrite <- Heq; unfold event_topics;
                  repeat (apply elem_of_cons; first [left; reflexivity | right]))).
    reflexivity. }
  now rewrite Hnone.
Qed.

Lemma dispatch_inert (registry : list (string * Listener)) (topic : string)
  (payload : Value) (w : Window) :
  Forall (fun tl : string * Listener => (tl.2 payload w).2 = w) registry →
  dispatch registry topic payload w = w.
Proof.
  induction 1 as [|[t l] rest Hl _ IH]; [reflexivity|].
  cbn [dispatch]. cbn [snd] in Hl. destruct (String.eqb topic t); [rewrite Hl|]; exact IH.
Qed.

Lemma bridge_silent_when_destroyed (topic : string) (payload : Value) (w : Window) :
  destroyed w = true → dispatch bridge topic payload w = w.
Proof.
  intros Hd. rewrite bridge_listeners. apply dispatch_inert.
  unfold gatewayListeners.
  repeat (apply Forall_cons; split;
          [cbn [snd]; rewrite ?forward_gone, ?forward_error_gone by exact Hd; reflexivity|]).
  apply Forall_nil. exact I.
Qed.

(** C4 (amended).  [registerGatewayHandlers] subscribes one listener to
    each of the seven topics status, message, notification,
    channel:status, chat:message, exit and error, and to no other.  While
    the main window is not destroyed, every event of these topics adds
    one message on the renderer channel of its topic; an event of any
    other topic is not forwarded, and nothing is forwarded to a destroyed
    window. *)
Theorem bridge_forwards_seven_topics :
  fst <$> bridge = event_topics
  ∧ (∀ (ev : GatewayEvent) (w : Window),
       destroyed w = false →
       ∃ v, dispatch bridge (topic_of ev) (payload_of ev) w
            = mkWindow false (sent w ++ [(channel_of ev, v)]))
  ∧ (∀ (topic : string) (payload : Value) (w : Window),
       topic ∉ event_topics → dispatch bridge topic payload w = w)
  ∧ (∀ (topic : string) (payload : Value) (w : Window),
       destroyed w = true → dispatch bridge topic payload w = w).
Proof.
  split; [reflexivity|]. split; [|split].
  - intros ev w Hd. exists (forwarded_value ev). now apply bridge_delivers.
  - apply bridge_ignores_other_topics.
  - apply bridge_silent_when_destroyed.
Qed.

(** A chat message reaches an open window on [gateway:chat-message]. *)
Lemma bridge_forwards_seven_topics_witness :
  ∃ v, dispatch bridge "chat:message" (VStr "hello") (mkWindow false [])
       = mkWindow false [("gateway:chat-message"%string, v)].
Proof.
  destruct bridge_forwards_seven_topics as (_ & Hopen & _).
  exact (Hopen (EvChatMessage (VStr "hello")) (mkWindow false []) eq_refl).
Defined.

(** C4 as stated fails once the main window is destroyed: a status
    event is received by the listener and nothing is sent. *)
Lemma destroyed_window_gets_nothing :
  let w := mkWindow true [] in
  let ev := EvStatus (mkStatus Running (Some 18789%Z) None) in
  topic_of ev ∈ event_topics
  ∧ dispatch bridge (topic_of ev) (payload_of ev) w = w
  ∧ sent (dispatch bridge (topic_of ev) (payload_of ev) w) = [].
Proof.
  split; [|split; reflexivity].
  apply elem_of_cons. now left.
Qed.

(** C5 (amended).  [dispatch] gives every listener of a topic, in
    subscription order, the payload it was given.  Through the bridge
    and an open window the renderer receives that payload itself for
    status, message, notification, channel:status, chat:message and exit;
    for error it receives the [message] string of the error, not the
    error. *)
Theorem bridge_payloads :
  (∀ (registry : list (string * Listener)) (topic : string) (payload : Value)
     (w : Window),
     dispatch registry topic payload w =
       fold_left (fun w' (tl : string * Listener) => (tl.2 payload w').2)
                 (filter (fun tl : string * Listener => tl.1 = topic) registry) w)
  ∧ (∀ (ev : GatewayEvent) (w : Window),
       destroyed w = false →
       sent (dispatch bridge (topic_of ev) (payload_of ev) w)
       = sent w ++ [(channel_of ev,
                     match ev with
                     | EvError e => VStr (err_message e)
                     | _ => payload_of ev
                     end)]).
Proof.
  split; [apply dispatch_in_order|].
  intros ev w Hd. rewrite (bridge_delivers ev w Hd). now destruct ev.
Qed.

(** An exit code reaches the renderer as it was emitted. *)
Lemma bridge_payloads_witness :
  sent (dispatch bridge "exit" (VNum 1) (mkWindow false []))
  = [("gateway:exit"%string, VNum 1)].
Proof.
  destruct bridge_payloads as [_ Hopen].
  exact (Hopen (EvExit (VNum 1)) (mkWindow false []) eq_refl).
Defined.

(** C5 as stated fails on the error topic: the manager emits an
    [Error] object and the renderer receives a string. *)
Lemma error_payload_is_replaced :
  let e := mkError "Error" "boom" in
  sent (dispatch bridge "error" (VErr e) (mkWindow false []))
  = [("gateway:error"%string, VStr "boom")]
  ∧ VStr "boom" ≠ VErr e.
Proof. split; [reflexivity|discriminate]. Qed.

(** ** C2: one resolution per call *)

Lemma reject_all_ids (r : Resolution) (calls : gmap N PendingCall) (id : N) :
  id ∈ (reject_all r calls).*1 ↔ is_Some (calls !! id).
Proof.
  unfold reject_all. rewrite <- list_fmap_compose. split.
  - intros Hin. apply list_elem_of_fmap in Hin as ([k pc] & -> & Hin).
    apply elem_of_map_to_list in Hin. cbn. eauto.
  - intros [pc Hpc]. apply list_elem_of_fmap. exists (id, pc). split; [reflexivity|].
    now apply elem_of_map_to_list.
Qed.

Lemma reject_all_NoDup (r : Resolution) (calls : gmap N PendingCall) :
  NoDup (reject_all r calls).*1.
Proof.
  unfold reject_all. rewrite <- list_fmap_compose.
  replace (fst ∘ (fun kv : N * PendingCall => (kv.1, r))) with (@fst N PendingCall)
    by reflexivity.
  apply NoDup_fst_map_to_list.
Qed.

Ltac split_invariant :=
  unfold correlator_invariant, initial_correlator; cbn [next_id pending settled now];
  split; [|split; [|split; [|split]]].

Lemma initial_correlator_invariant : correlator_invariant initial_correlator.
Proof.
  split_invariant.
  - intros id [pc H]. now rewrite lookup_empty in H.
  - apply NoDup_nil. exact I.
  - intros id H. now apply not_elem_of_nil in H.
  - intros id Hlt. lia.
  - intros id pc H. now rewrite lookup_empty in H.
Qed.

(** Retiring a set of pending calls with one resolution each. *)
Lemma retire_invariant (c : Correlator) (gone pending' : gmap N PendingCall)
  (r : Resolution) (conn : bool) (now' : N) :
  correlator_invariant c →
  (∀ id, is_Some (gone !! id) → is_Some (pending c !! id)) →
  (∀ id, pending' !! id = match gone !! id with
                          | Some _ => None
                          | None => pending c !! id
                          end) →
  (∀ id pc, pending' !! id = Some pc → (now' <= pc_deadline pc)%N) →
  correlator_invariant
    (mkCorrelator (next_id c) pending' conn now' (settled c ++ reject_all r gone)).
Proof.
  intros (I1 & I2 & I3 & I4 & I5) Hsub Hlook Hnow.
  split_invariant; rewrite ?fmap_app.
  - intros id [pc Hpc]. rewrite Hlook in Hpc.
    destruct (gone !! id); [discriminate|]. apply I1. eauto.
  - apply NoDup_app. split; [exact I2|]. split; [|apply reject_all_NoDup].
    intros id Hin Hin'. apply reject_all_ids in Hin'.
    destruct (I3 id Hin) as [_ Hnone]. apply Hsub in Hin' as [pc Hpc]. congruence.
  - intros id H. apply elem_of_app in H as [H|H].
    + destruct (I3 id H) as [Hlt Hnone]. split; [exact Hlt|].
      rewrite Hlook. now destruct (gone !! id).
    + apply reject_all_ids in H. split; [apply I1, Hsub, H|].
      destruct H as [pc Hpc]. now rewrite Hlook, Hpc.
  - intros id Hlt. rewrite Hlook, elem_of_app, reject_all_ids.
    destruct (gone !! id) as [pc|] eqn:Hg; [right; right; eauto|].
    destruct (I4 id Hlt); [now left | right; now left].
  - exact Hnow.
Qed.

Lemma correlator_step_invariant (c : Correlator) (ev : CorrelatorEvent) :
  correlator_invariant c → correlator_invariant (correlator_step c ev).
Proof.
  intros Hc. pose proof Hc as (I1 & I2 & I3 & I4 & I5).
  destruct ev as [method params timeoutMs | id result | ms | | ]; cbn [correlator_step].
  - (* Call *)
    assert (Hfresh : pending c !! next_id c = None).
    { destruct (pending c !! next_id c) eqn:Hp; [|reflexivity].
      assert (next_id c < next_id c)%N by (apply I1; eauto). lia. }
    assert (Hunseen : next_id c ∉ (settled c).*1).
    { intros Hin. apply I3 in Hin as [Hlt _]. lia. }
    destruct (connected c); split_invariant; rewrite ?fmap_app.
    + intros id Hsome. apply lookup_insert_is_Some in Hsome as [<-|[_ Hsome]]; [lia|].
      apply I1 in Hsome. lia.
    + exact I2.
    + intros id H. apply I3 in H as [Hlt Hnone]. split; [lia|].
      rewrite lookup_insert_ne by lia. exact Hnone.
    + intros id Hlt. destruct (decide (id = next_id c)) as [->|Hne].
      * left. rewrite lookup_insert_eq. eauto.
      * rewrite lookup_insert_ne by congruence. apply I4. lia.
    + intros id pc Hpc. apply lookup_insert_Some in Hpc as [[_ <-]|[_ Hpc]].
      * cbn. lia.
      * now apply (I5 id).
    + intros id Hsome. apply I1 in Hsome. lia.
    + apply NoDup_app. split; [exact I2|]. split.
      * intros id Hin Hin'. apply list_elem_of_singleton in Hin'. cbn in Hin'.
        subst id. contradiction.
      * apply NoDup_singleton.
    + intros id H. apply elem_of_app in H as [H|H].
      * apply I3 in H as [Hlt Hnone]. split; [lia|exact Hnone].
      * apply list_elem_of_singleton in H. cbn in H. subst id. split; [lia|exact Hfresh].
    + intros id Hlt. rewrite elem_of_app.
      destruct (decide (id = next_id c)) as [->|Hne].
      * right; right. now apply list_elem_of_singleton.
      * destruct (I4 id ltac:(lia)); [now left | right; now left].
    + exact I5.
  - (* ResultFrame *)
    destruct (pending c !! id) as [pc|] eqn:Hp; [|exact Hc].
    assert (Hone : ∀ r, reject_all r {[id := pc]} = [(id, r)]).
    { intros r. unfold reject_all. now rewrite map_to_list_singleton. }
    rewrite <- (Hone (match result with
                      | inl payload => Resolved payload
                      | inr (code, message) => RpcError code message
                      end)).
    apply retire_invariant; [exact Hc| | |].
    + intros k Hk. destruct (decide (k = id)) as [->|Hne]; [eauto|].
      rewrite lookup_singleton_ne in Hk by congruence. now destruct Hk.
    + intros k. destruct (decide (k = id)) as [->|Hne].
      * now rewrite lookup_delete_eq, lookup_singleton_eq.
      * rewrite lookup_delete_ne, lookup_singleton_ne by congruence. reflexivity.
    + intros k pc' Hk. apply lookup_delete_Some in Hk as [_ Hk]. now apply (I5 k).
  - (* Elapse *)
    apply retire_invariant; [exact Hc| | |].
    + intros k [pc Hk]. apply map_lookup_filter_Some in Hk as [Hk _]. eauto.
    + intros k. rewrite lookup_difference. now destruct (expired _ _ !! k).
    + intros k pc Hk. apply lookup_difference_Some in Hk as [Hk Hnot].
      unfold expired in Hnot. rewrite map_lookup_filter_None in Hnot.
      destruct Hnot as [Hnot|Hnot]; [congruence|].
      specialize (Hnot pc Hk). cbn in Hnot.
      destruct (pc_deadline pc <=? now c + ms)%N eqn:Hle; [contradiction|].
      apply N.leb_gt in Hle. lia.
  - (* Close *)
    apply retire_invariant; [exact Hc| | |].
    + tauto.
    + intros k. rewrite lookup_empty. now destruct (pending c !! k).
    + intros k pc Hk. now rewrite lookup_empty in Hk.
  - (* Connect *)
    exact Hc.
Qed.

Lemma correlator_fold_invariant (events : list CorrelatorEvent) (c : Correlator) :
  correlator_invariant c → correlator_invariant (fold_left correlator_step events c).
Proof.
  revert c. induction events as [|ev events IH]; intros c Hc; [exact Hc|].
  cbn [fold_left]. apply IH. now apply correlator_step_invariant.
Qed.

Lemma correlator_run_invariant (events : list CorrelatorEvent) :
  correlator_invariant (correlator_run events).
Proof. apply correlator_fold_invariant, initial_correlator_invariant. Qed.

Lemma resolutions_at_most_one (log : list (N * Resolution)) (id : N) :
  NoDup log.*1 → length (filter (fun kv : N * Resolution => kv.1 = id) log) ≤ 1.
Proof.
  induction log as [|[k r] log IH]; intros Hnd; [cbn; lia|].
  rewrite fmap_cons in Hnd. apply NoDup_cons in Hnd as [Hk Hnd]. cbn [fst] in Hk.
  rewrite filter_cons. cbn [fst]. destruct (decide (k = id)) as [->|Hne].
  - assert (Hnone : filter (fun kv : N * Resolution => kv.1 = id) log = []).
    { apply elem_of_nil_inv. intros [k' r'] Hin.
      apply list_elem_of_filter in Hin as [Hk' Hin]. cbn in Hk'. subst k'.
      apply Hk. apply list_elem_of_fmap. now exists (id, r'). }
    rewrite Hnone. cbn. lia.
  - now apply IH.
Qed.

Lemma resolutions_present (log : list (N * Resolution)) (id : N) :
  id ∈ log.*1 → filter (fun kv : N * Resolution => kv.1 = id) log ≠ [].
Proof.
  intros Hin Hnil. apply list_elem_of_fmap in Hin as ([k r] & Hk & Hin). cbn in Hk. subst k.
  assert (Hf : (id, r) ∈ filter (fun kv : N * Resolution => kv.1 = id) log)
    by now apply list_elem_of_filter.
  rewrite Hnil in Hf. now apply not_elem_of_nil in Hf.
Qed.

Lemma resolutions_absent (log : list (N * Resolution)) (id : N) :
  id ∉ log.*1 → filter (fun kv : N * Resolution => kv.1 = id) log = [].
Proof.
  intros Hnot. apply elem_of_nil_inv. intros [k r] Hin.
  apply list_elem_of_filter in Hin as [Hk Hin]. cbn in Hk. subst k.
  apply Hnot. apply list_elem_of_fmap. now exists (id, r).
Qed.

(** The log of resolutions only grows. *)
Lemma correlator_step_extends (c : Correlator) (ev : CorrelatorEvent) :
  ∃ more, settled (correlator_step c ev) = settled c ++ more.
Proof.
  destruct ev; cbn [correlator_step].
  - destruct (connected c); cbn [settled]; [exists []; now rewrite app_nil_r | eauto].
  - destruct (pending c !! id); cbn [settled]; [eauto | exists []; now rewrite app_nil_r].
  - cbn [settled]. eauto.
  - cbn [settled]. eauto.
  - exists []. now rewrite app_nil_r.
Qed.

Lemma correlator_fold_extends (events : list CorrelatorEvent) (c : Correlator) :
  ∃ more, settled (fold_left correlator_step events c) = settled c ++ more.
Proof.
  revert c. induction events as [|ev events IH]; intros c.
  - exists []. now rewrite app_nil_r.
  - cbn [fold_left]. destruct (IH (correlator_step c ev)) as [more2 H2].
    destruct (correlator_step_extends c ev) as [more1 H1].
    exists (more1 ++ more2). now rewrite H2, H1, app_assoc.
Qed.

(** A call that was issued and is no longer pending has exactly one
    resolution. *)
Lemma retired_has_one (c : Correlator) (id : N) :
  correlator_invariant c → (id < next_id c)%N → pending c !! id = None →
  ∃ r, resolutions_of id c = [r].
Proof.
  intros (I1 & I2 & I3 & I4 & I5) Hissued Hnone.
  destruct (I4 id Hissued) as [[pc Hpc]|Hin]; [congruence|].
  apply resolutions_present in Hin.
  pose proof (resolutions_at_most_one (settled c) id I2) as Hlen.
  unfold resolutions_of.
  destruct (filter (fun kv : N * Resolution => kv.1 = id) (settled c)) as [|[k r] [|x rest]];
    [contradiction | | cbn in Hlen; lia].
  exists r. reflexivity.
Qed.

(** Letting the clock reach the deadline of a pending call rejects it
    with TimeoutError. *)
Lemma deadline_times_out (c : Correlator) (id ms : N) (pc : PendingCall) :
  correlator_invariant c → pending c !! id = Some pc →
  (pc_deadline pc <= now c + ms)%N →
  resolutions_of id (correlator_step c (Elapse ms)) = [TimeoutError].
Proof.
  intros Hc Hpc Hdue.
  pose proof (correlator_step_invariant c (Elapse ms) Hc) as Hc'.
  pose proof Hc as (I1 & I2 & I3 & I4 & I5).
  assert (Hlate : expired (now c + ms) (pending c) !! id = Some pc).
  { apply map_lookup_filter_Some. split; [exact Hpc|]. cbn. now apply N.leb_le. }
  destruct (retired_has_one (correlator_step c (Elapse ms)) id Hc') as [r Hr].
  - cbn [correlator_step next_id]. apply I1. eauto.
  - cbn [correlator_step pending]. apply lookup_difference_None. right. eauto.
  - rewrite Hr. f_equal.
    assert (Hin : r ∈ resolutions_of id (correlator_step c (Elapse ms)))
      by (rewrite Hr; now apply list_elem_of_singleton).
    unfold resolutions_of in Hin. cbn [correlator_step settled] in Hin.
    rewrite filter_app, fmap_app in Hin. apply elem_of_app in Hin as [Hin|Hin].
    + exfalso. rewrite resolutions_absent in Hin; [now apply not_elem_of_nil in Hin|].
      intros Hsettled. apply I3 in Hsettled as [_ Hnone]. congruence.
    + apply list_elem_of_fmap in Hin as ([k r'] & -> & Hin).
      apply list_elem_of_filter in Hin as [_ Hin]. unfold reject_all in Hin.
      apply list_elem_of_fmap in Hin as (kv & Heq & _). now inversion Heq.
Qed.

(** C2.  For every call that was issued, at most one terminal
    resolution is ever observed for its id: once the call is no longer
    pending there is exactly one (the result, an RpcError, a TimeoutError
    or TransportClosed); while it is pending there is none, its
    deadline has not passed, and the clock reaching the deadline rejects
    it with TimeoutError; and whatever happens afterwards, the one
    resolution of a call stays the only one.  The handler of
    [gateway:rpc] turns that resolution into one reply: success with the
    result, or the failure record. *)
Theorem rpc_resolved_exactly_once (events : list CorrelatorEvent) (id : N) :
  let c := correlator_run events in
  (id < next_id c)%N →
  length (resolutions_of id c) ≤ 1
  ∧ (pending c !! id = None → ∃ r, resolutions_of id c = [r])
  ∧ (∀ pc, pending c !! id = Some pc →
           resolutions_of id c = [] ∧ (now c <= pc_deadline pc)%N
           ∧ ∀ ms, (pc_deadline pc <= now c + ms)%N →
                   resolutions_of id (correlator_run (events ++ [Elapse ms]))
                   = [TimeoutError])
  ∧ (∀ more r, resolutions_of id c = [r] →
               resolutions_of id (correlator_run (events ++ more)) = [r])
  ∧ (∀ (W : Type) (gatewayManager : GatewayManager W)
       (args : list Value) (w w' : W) (r : Resolution),
       rpc gatewayManager (arg 0 args) (arg 1 args) (arg 2 args) w = (rpc_outcome r, w') →
       gateway_rpc gatewayManager args w
       = (Ok (match r with
              | Resolved payload => success_reply [(js "result", payload)]
              | _ => failure_reply (match rpc_outcome r with
                                    | Throw e => e
                                    | Ok _ => mkError [] []
                                    end)
              end), w')).
Proof.
  intros c Hissued.
  destruct (correlator_run_invariant events) as (I1 & I2 & I3 & I4 & I5).
  fold c in I1, I2, I3, I4, I5.
  assert (Hmost : ∀ c', NoDup (settled c').*1 → length (resolutions_of id c') ≤ 1).
  { intros c' Hnd. unfold resolutions_of. rewrite length_fmap.
    now apply resolutions_at_most_one. }
  split; [now apply Hmost|]. split; [|split; [|split]].
  - intros Hnone. apply retired_has_one; [apply correlator_run_invariant|assumption..].
  - intros pc Hpc. split; [|split; [now apply (I5 id)|]].
    + unfold resolutions_of. rewrite resolutions_absent; [reflexivity|].
      intros Hin. apply I3 in Hin as [_ Hnone]. congruence.
    + intros ms Hdue. unfold correlator_run. rewrite fold_left_app. cbn [fold_left].
      fold (correlator_run events). fold c.
      apply (deadline_times_out c id ms pc); [apply correlator_run_invariant|assumption..].
  - intros more r Hr.
    destruct (correlator_run_invariant (events ++ more)) as (_ & I2' & _).
    pose proof (Hmost _ I2') as Hlen.
    unfold correlator_run in *. rewrite fold_left_app in *.
    fold (correlator_run events) in *. fold c in Hlen |- *.
    destruct (correlator_fold_extends more c) as [extra Hextra].
    unfold resolutions_of in *. rewrite Hextra, filter_app, fmap_app in *.
    rewrite Hr in *. cbn [app length] in Hlen.
    destruct (snd <$> filter (fun kv : N * Resolution => kv.1 = id) extra);
      [reflexivity | cbn in Hlen; lia].
  - intros W gatewayManager args w w' r Hrpc.
    unfold gateway_rpc, try_catch, bind, ret. rewrite Hrpc. now destruct r.
Qed.

(** A call answered twice: only the first answer resolves it. *)
Lemma rpc_resolved_exactly_once_witness :
  let events := [ Connect; Call "ping" (VObj []) None;
                  ResultFrame 0 (inl (VStr "pong")); ResultFrame 0 (inl (VStr "again")) ] in
  (0 < next_id (correlator_run events))%N
  ∧ resolutions_of 0 (correlator_run events) = [Resolved (VStr "pong")].
Proof.
  intros events.
  assert (Hissued : (0 < next_id (correlator_run events))%N) by (vm_compute; reflexivity).
  split; [exact Hissued|].
  destruct (rpc_resolved_exactly_once events 0%N Hissued) as (_ & Hone & _).
  destruct (Hone eq_refl) as [r Hr]. rewrite Hr.
  vm_compute in Hr. inversion Hr. reflexivity.
Defined.

(** The scenario of §8: a reply that arrives after the timeout is
    discarded. *)
Example late_reply_is_discarded :
  resolutions_of 0 (correlator_run [ Connect; Call "slow" (VObj []) (Some 50%N);
                                      Elapse 50; ResultFrame 0 (inl (VStr "late")) ])
  = [TimeoutError].
Proof. vm_compute. reflexivity. Qed.

(** Disconnection rejects every outstanding call. *)
Example close_rejects_all :
  let c := correlator_run [ Connect; Call "a" VNull None; Call "b" VNull None; Close ] in
  resolutions_of 0 c = [TransportClosed] ∧ resolutions_of 1 c = [TransportClosed]
  ∧ pending c = ∅.
Proof. vm_compute. repeat split. Qed.

(** ** C8: saving a provider key twice *)






Section AuthProperties.
Variable homedir : jsstring.
Variable join : list jsstring → jsstring.
Variable writable : jsstring → bool.

Abbreviation path := (getAuthProfilesPath homedir join).
Abbreviation read := (readAuthProfiles homedir join).
Abbreviation save := (saveProviderKeyToOpenClaw homedir join writable).

Lemma read_is_valid (agentId : jsstring) (fs : gmap (list N) (FileData AuthProfilesStore)) :
  valid_store (read agentId fs) = true.
Proof.
  unfold readAuthProfiles. destruct (fs !! path agentId) as [[|data]|]; try reflexivity.
  destruct (valid_store data) eqn:Hv; [exact Hv|reflexivity].
Qed.

Lemma read_written (agentId : jsstring) (store : AuthProfilesStore)
  (fs : gmap (list N) (FileData AuthProfilesStore)) :
  valid_store store = true →
  read agentId (<[path agentId := Parsed store]> fs) = store.
Proof.
  intros Hv. unfold readAuthProfiles. now rewrite lookup_insert_eq, Hv.
Qed.

Lemma saved_store_valid (provider apiKey : jsstring) (store : AuthProfilesStore) :
  valid_store store = true → valid_store (saved_store provider apiKey store) = true.
Proof.
  unfold valid_store, saved_store. cbn [version profiles].
  destruct (version store); [|discriminate]. now destruct (profiles store).
Qed.


(** The three ways a save ends: it writes [saved_store], or it throws
    and leaves the files as they were. *)
Lemma save_cases (provider apiKey agentId : jsstring)
  (fs : gmap (list N) (FileData AuthProfilesStore)) :
  (save provider apiKey agentId fs
   = (Ok tt, <[path agentId := Parsed (saved_store provider apiKey (read agentId fs))]> fs)
   ∧ writable (path agentId) = true
   ∧ read_map (default ∅ (order (read agentId fs))) provider ≠ Inherited)
  ∨ (∃ e, save provider apiKey agentId fs = (Throw e, fs)
          ∧ (writable (path agentId) = false
             ∨ read_map (default ∅ (order (read agentId fs))) provider = Inherited)).
Proof.
  pose proof (read_is_valid agentId fs) as Hv.
  unfold saveProviderKeyToOpenClaw, saved_store, writeAuthProfiles.
  unfold valid_store in Hv.
  destruct (version (read agentId fs)); [|discriminate].
  destruct (profiles (read agentId fs)) as [profiles0|]; [|discriminate].
  cbn [default from_option id]. unfold read_map.
  destruct (default ∅ (order (read agentId fs)) !! provider) as [ids|] eqn:Ho.
  - destruct (writable (path agentId)) eqn:Hw.
    + left. split; [reflexivity|]. split; [reflexivity|discriminate].
    + right. eexists. split; [reflexivity|]. now left.
  - destruct (inherited provider) eqn:Hi.
    + right. eexists. split; [reflexivity|]. now right.
    + destruct (writable (path agentId)) eqn:Hw.
      * left. split; [reflexivity|]. split; [reflexivity|discriminate].
      * right. eexists. split; [reflexivity|]. now left.
Qed.


End AuthProperties.



(** A provider named like a member of [Object.prototype] makes the save
    throw before anything is written, both times. *)
Example save_constructor_throws :
  ∃ e, saveProviderKeyToOpenClaw "/home/u" slash_join (fun _ => true)
         "constructor" "k" "main" ∅ = (Throw e, ∅).
Proof. eexists. vm_compute. reflexivity. Qed.

(** ** C7: how provider keys reach the gateway *)

Lemma env_var_names_truthy (type envVar : jsstring) :
  table_lookup type PROVIDER_ENV_VARS = Some envVar → truthy (VStr envVar) = true.
Proof.
  unfold PROVIDER_ENV_VARS. cbn [table_lookup].
  repeat (destruct (eqb_str type _); [intros H; inversion H; reflexivity|]).
  discriminate.
Qed.

Lemma build_env_snoc (inherited_text : jsstring → jsstring)
  (providers : list (jsstring * jsstring)) (p : jsstring * jsstring) :
  buildProviderEnvVars inherited_text (providers ++ [p])
  = add_env_var inherited_text (buildProviderEnvVars inherited_text providers) p.
Proof. unfold buildProviderEnvVars. now rewrite fold_left_app. Qed.

Lemma truthy_nonempty (s : jsstring) : s ≠ [] → truthy (VStr s) = true.
Proof. now destruct s. Qed.

Lemma save_key_quietly_spec {St : Type} (homedir : jsstring)
  (join : list jsstring → jsstring) (writable : jsstring → bool)
  (providerType apiKey : jsstring) (s : St)
  (fs : gmap (list N) (FileData AuthProfilesStore)) :
  save_key_quietly homedir join writable providerType apiKey (s, fs)
  = (Ok tt, (s, (saveProviderKeyToOpenClaw homedir join writable providerType apiKey
                   "main" fs).2)).
Proof.
  unfold save_key_quietly, try_catch, in_snd, ret. cbn [fst snd].
  now destruct (saveProviderKeyToOpenClaw _ _ _ _ _ _ fs) as [[[]|e] fs'].
Qed.

(** C7 (amended).  A stored provider key reaches the gateway in two
    ways.  [provider:save] with a non-empty key, and [provider:setApiKey],
    write the key to the auth-profiles file of agent [main] as profile
    [<type>:default] (when the file can be written and the type is not
    the name of a member of [Object.prototype]); and
    [buildProviderEnvVars] puts the key of a provider into the
    environment under the variable of its type, for the types listed in
    [PROVIDER_ENV_VARS] only: a provider of another type adds nothing to
    the environment. *)
Theorem provider_key_channels :
  (∀ (St : Type) (storage : SecureStorage St) (homedir : jsstring)
     (join : list jsstring → jsstring) (writable : jsstring → bool)
     (config : ProviderConfig) (apiKey : jsstring) (s s1 s2 : St)
     (fs : gmap (list N) (FileData AuthProfilesStore)),
     apiKey ≠ [] →
     saveProvider storage config s = (Ok tt, s1) →
     storeApiKey storage (config_id config) apiKey s1 = (Ok tt, s2) →
     writable (getAuthProfilesPath homedir join "main") = true →
     inherited (config_type config) = false →
     ∃ fs' entries,
       provider_save storage homedir join writable config (Some apiKey) (s, fs)
       = (Ok (success_reply []), (s2, fs'))
       ∧ profiles (readAuthProfiles homedir join "main" fs') = Some entries
       ∧ entries !! (config_type config ++ js ":default")
         = Some (mkEntry "api_key" (config_type config) apiKey))
  ∧ (∀ (St : Type) (storage : SecureStorage St) (homedir : jsstring)
       (join : list jsstring → jsstring) (writable : jsstring → bool)
       (providerId apiKey : jsstring) (found : option ProviderConfig) (s s1 s2 : St)
       (fs : gmap (list N) (FileData AuthProfilesStore)),
       let providerType :=
         match found with
         | Some config =>
             if truthy (VStr (config_type config)) then config_type config else providerId
         | None => providerId
         end in
       storeApiKey storage providerId apiKey s = (Ok tt, s1) →
       getProvider storage providerId s1 = (Ok found, s2) →
       writable (getAuthProfilesPath homedir join "main") = true →
       inherited providerType = false →
       ∃ fs' entries,
         provider_setApiKey storage homedir join writable providerId apiKey (s, fs)
         = (Ok (success_reply []), (s2, fs'))
         ∧ profiles (readAuthProfiles homedir join "main" fs') = Some entries
         ∧ entries !! (providerType ++ js ":default")
           = Some (mkEntry "api_key" providerType apiKey))
  ∧ (∀ (inherited_text : jsstring → jsstring) (providers : list (jsstring * jsstring))
       (type apiKey envVar : jsstring),
       table_lookup type PROVIDER_ENV_VARS = Some envVar →
       apiKey ≠ [] →
       buildProviderEnvVars inherited_text (providers ++ [(type, apiKey)]) !! envVar
       = Some apiKey)
  ∧ (∀ (inherited_text : jsstring → jsstring) (providers : list (jsstring * jsstring))
       (type apiKey : jsstring),
       getProviderEnvVar type = Absent →
       buildProviderEnvVars inherited_text (providers ++ [(type, apiKey)])
       = buildProviderEnvVars inherited_text providers).
Proof.
  split; [|split; [|split]].
  - intros St storage homedir join writable config apiKey s s1 s2 fs
           Hkey Hsave Hstore Hw Hproto.
    destruct (save_cases homedir join writable (config_type config) apiKey "main" fs)
      as [(H1 & _)|(e & _ & [Hw'|Hr])].
    + eexists. eexists. split; [|split].
      * unfold provider_save, try_catch, bind, in_fst, ret. cbn [fst snd].
        rewrite Hsave. rewrite (truthy_nonempty apiKey Hkey). cbn [fst snd].
        rewrite Hstore. rewrite save_key_quietly_spec, H1. reflexivity.
      * cbn [snd]. rewrite read_written by apply saved_store_valid, read_is_valid.
        reflexivity.
      * apply lookup_insert_eq.
    + congruence.
    + exfalso. unfold read_map in Hr. rewrite Hproto in Hr.
      now destruct (default ∅ _ !! config_type config).
  - intros St storage homedir join writable providerId apiKey found s s1 s2 fs
           providerType Hstore Hget Hw Hproto.
    destruct (save_cases homedir join writable providerType apiKey "main" fs)
      as [(H1 & _)|(e & _ & [Hw'|Hr])].
    + eexists. eexists. split; [|split].
      * unfold provider_setApiKey, try_catch, bind, in_fst, ret. cbn [fst snd].
        rewrite Hstore. cbn [fst snd]. rewrite Hget. fold providerType.
        rewrite save_key_quietly_spec, H1. reflexivity.
      * cbn [snd]. rewrite read_written by apply saved_store_valid, read_is_valid.
        reflexivity.
      * apply lookup_insert_eq.
    + congruence.
    + exfalso. unfold read_map in Hr. rewrite Hproto in Hr.
      now destruct (default ∅ _ !! providerType).
  - intros inherited_text providers type apiKey envVar Htable Hkey.
    rewrite build_env_snoc. unfold add_env_var, getProviderEnvVar. rewrite Htable.
    rewrite (env_var_names_truthy type envVar Htable), (truthy_nonempty apiKey Hkey).
    apply lookup_insert_eq.
  - intros inherited_text providers type apiKey Habsent.
    rewrite build_env_snoc. unfold add_env_var. now rewrite Habsent.
Qed.

(** Saving an OpenRouter key: it is written to the auth profiles of
    agent [main]. *)
Lemma provider_key_channels_witness :
  ∃ fs' entries,
    provider_save blank_storage "/home/u" slash_join (fun _ => true)
      (mkConfig "or-1" "openrouter") (Some (js "sk-or-1")) (tt, ∅)
    = (Ok (success_reply []), (tt, fs'))
    ∧ profiles (readAuthProfiles "/home/u" slash_join "main" fs') = Some entries
    ∧ entries !! js "openrouter:default"
      = Some (mkEntry "api_key" "openrouter" "sk-or-1").
Proof.
  destruct provider_key_channels as [Hsave _].
  apply (Hsave unit blank_storage "/home/u" slash_join (fun _ => true)
           (mkConfig "or-1" "openrouter") "sk-or-1" tt tt tt ∅);
    [discriminate | reflexivity | reflexivity | reflexivity | reflexivity].
Defined.

(** C7 as stated fails: the key of a provider whose type has no
    environment variable is not injected into the environment at all, and
    yet [provider:save] has made it available to the gateway in the
    auth-profiles file. *)
Lemma key_reaches_gateway_through_file :
  let config := mkConfig "custom-1" "custom" in
  let key := js "sk-custom-1" in
  buildProviderEnvVars (fun name => name) [(config_type config, key)] = ∅
  ∧ ∃ fs', provider_save blank_storage "/home/u" slash_join (fun _ => true)
             config (Some key) (tt, ∅) = (Ok (success_reply []), (tt, fs'))
           ∧ stored_keys (fs' !! getAuthProfilesPath "/home/u" slash_join "main") = [key].
Proof.
  split; [vm_compute; reflexivity|].
  eexists. split; [vm_compute; reflexivity|]. vm_compute. reflexivity.
Qed.

(** ** C9: validation of empty keys and of custom providers *)

Lemma trim_start_empty (s : jsstring) :
  trim_start s = [] ↔ forallb is_white_space s = true.
Proof.
  induction s as [|c s IH]; [easy|].
  cbn [trim_start forallb]. destruct (is_white_space c); [exact IH|easy].
Qed.

Lemma trim_start_white (s : jsstring) :
  forallb is_white_space (trim_start s) = true → trim_start s = [].
Proof.
  induction s as [|c s IH]; [easy|].
  cbn [trim_start]. destruct (is_white_space c) eqn:Hc; [exact IH|].
  cbn [forallb]. now rewrite Hc.
Qed.

Lemma forallb_reverse {A} (f : A → bool) (l : list A) :
  forallb f (rev l) = forallb f l.
Proof.
  induction l as [|x l IH]; [reflexivity|].
  cbn [rev forallb]. rewrite forallb_app, IH. cbn [forallb].
  now destruct (f x), (forallb f l).
Qed.

(** A key is empty after trimming exactly when it consists of white
    space only. *)
Lemma trim_empty (s : jsstring) :
  trim s = [] ↔ forallb is_white_space s = true.
Proof.
  unfold trim. split.
  - intros H. apply (f_equal (@rev N)) in H. rewrite rev_involutive in H. cbn in H.
    apply trim_start_empty in H. rewrite forallb_reverse in H.
    now apply trim_start_empty, trim_start_white.
  - intros H. apply trim_start_empty in H. now rewrite H.
Qed.

Section ValidationProperties.
Context {W : Type}.
Variable validateAnthropicKey : jsstring → M W Validation.
Variable validateOpenAIKey : jsstring → M W Validation.
Variable validateGoogleKey : jsstring → M W Validation.
Variable validateOpenRouterKey : jsstring → M W Validation.

Abbreviation validate :=
  (validateApiKeyWithProvider validateAnthropicKey validateOpenAIKey
     validateGoogleKey validateOpenRouterKey).

Lemma validate_blank_key (providerType apiKey : jsstring) (w : W) :
  trim apiKey = [] →
  validate providerType apiKey w
  = (Ok (mkValidation false (Some (js "API key is required"))), w).
Proof. intros H. unfold validateApiKeyWithProvider. now rewrite H. Qed.

Lemma validate_other_provider (providerType apiKey : jsstring) (w : W) :
  trim apiKey ≠ [] → providerType ∉ vendor_types →
  validate providerType apiKey w = (Ok (mkValidation true None), w).
Proof.
  intros Hkey Hnot. unfold validateApiKeyWithProvider.
  rewrite (truthy_nonempty _ Hkey). cbn [negb]. unfold eqb_str, try_catch, ret.
  repeat case_bool_decide; try reflexivity;
    exfalso; apply Hnot; subst providerType; unfold vendor_types; cbn [fmap list_fmap];
    repeat (apply elem_of_cons; first [left; reflexivity | right]).
Qed.

End ValidationProperties.

(** C9.  Whatever the provider type, a key that is empty after trimming
    is rejected with the error "API key is required".  A key that is not,
    offered for [ollama] or for any type other than anthropic, openai,
    google and openrouter, is accepted, and nothing but its being
    non-empty is looked at. *)
Theorem validate_without_vendor {W : Type}
  (validateAnthropicKey validateOpenAIKey validateGoogleKey validateOpenRouterKey
     : jsstring → M W Validation)
  (providerType apiKey : jsstring) (w : W) :
  let validate := validateApiKeyWithProvider validateAnthropicKey validateOpenAIKey
                    validateGoogleKey validateOpenRouterKey in
  (trim apiKey = [] →
     validate providerType apiKey w
     = (Ok (mkValidation false (Some (js "API key is required"))), w))
  ∧ (trim apiKey ≠ [] → providerType ∉ vendor_types →
     validate providerType apiKey w = (Ok (mkValidation true None), w)
     ∧ ∀ otherKey, trim otherKey ≠ [] →
         validate providerType otherKey w = validate providerType apiKey w).
Proof.
  intros validate. split.
  - apply validate_blank_key.
  - intros Hkey Hnot. split; [now apply validate_other_provider|].
    intros otherKey Hother. unfold validate.
    now rewrite !validate_other_provider.
Qed.

(** A blank key for Anthropic, and any key for Ollama. *)
Lemma validate_without_vendor_witness :
  let offline : jsstring → M unit Validation :=
    fun _ => throw (mkError "TypeError" "fetch failed") in
  validateApiKeyWithProvider offline offline offline offline "anthropic" " " tt
  = (Ok (mkValidation false (Some (js "API key is required"))), tt)
  ∧ validateApiKeyWithProvider offline offline offline offline "ollama" "x" tt
    = (Ok (mkValidation true None), tt).
Proof.
  intros offline. split.
  - destruct (validate_without_vendor offline offline offline offline "anthropic" " " tt)
      as [Hblank _].
    apply Hblank. reflexivity.
  - destruct (validate_without_vendor offline offline offline offline "ollama" "x" tt)
      as [_ Hother].
    assert (Hcustom : js "ollama" ∉ vendor_types).
    { unfold vendor_types. cbn [fmap list_fmap]. intros Hin.
      repeat (apply elem_of_cons in Hin as [Hin|Hin]; [discriminate Hin|]).
      now apply not_elem_of_nil in Hin. }
    assert (Hkey : trim (js "x") ≠ []) by discriminate.
    exact (proj1 (Hother Hkey Hcustom)).
Defined.

(** ** C10: the early exits of the plugin pre-flight *)

Section PluginProperties.
Variable homedir : jsstring.
Variable join : list jsstring → jsstring.
Variable bundledPluginsDir : jsstring.

Lemma preflight_unparsable (disk : Disk) :
  config_file disk = Some Unparsable →
  ensureRequiredPlugins homedir join bundledPluginsDir disk = (Ok tt, disk).
Proof. intros H. unfold ensureRequiredPlugins. now rewrite H. Qed.

Lemma preflight_no_channels (disk : Disk) (config channels : Value) :
  config_file disk = Some (Parsed config) →
  get_prop config "channels" = Ok channels →
  truthy channels = false →
  ensureRequiredPlugins homedir join bundledPluginsDir disk = (Ok tt, disk).
Proof.
  intros Hfile Hget Hfalse. unfold ensureRequiredPlugins.
  now rewrite Hfile, Hget, Hfalse.
Qed.

Lemma preflight_missing (disk : Disk) :
  config_file disk = None →
  ensureRequiredPlugins homedir join bundledPluginsDir disk = (Ok tt, disk).
Proof. intros H. unfold ensureRequiredPlugins. now rewrite H. Qed.

End PluginProperties.

(** C10 (amended).  [ensureRequiredPlugins] leaves the disk as it was on
    its early exits: when [openclaw.json] exists and does not parse, and
    when the parsed config is a value other than [null] that has no
    [channels] key, the function returns, no plugin directory was
    installed or copied, and the config file was not written.  A file
    that parses to [null] is read outside the [try]: the function then
    throws instead of returning, the disk still as it was. *)
Theorem preflight_early_exit (homedir : jsstring) (join : list jsstring → jsstring)
  (bundledPluginsDir : jsstring) (disk : Disk) :
  (config_file disk = Some Unparsable →
     ensureRequiredPlugins homedir join bundledPluginsDir disk = (Ok tt, disk))
  ∧ (∀ config, config_file disk = Some (Parsed config) →
       config ≠ VNull → config ≠ VUndef →
       (∀ fields, config = VObj fields → obj_lookup "channels" fields = None) →
       ensureRequiredPlugins homedir join bundledPluginsDir disk = (Ok tt, disk))
  ∧ (config_file disk = Some (Parsed VNull) →
     ∃ message, ensureRequiredPlugins homedir join bundledPluginsDir disk
                = (Throw (TypeError message), disk)).
Proof.
  split; [apply preflight_unparsable|]. split.
  - intros config Hfile Hnull Hundef Hnone.
    apply (preflight_no_channels homedir join bundledPluginsDir disk config VUndef Hfile);
      [|reflexivity].
    destruct config as [| |b|n|s|items|fields|e]; try reflexivity.
    + now contradict Hundef.
    + now contradict Hnull.
    + cbn [get_prop]. now rewrite (Hnone fields eq_refl).
  - intros Hfile. eexists. unfold ensureRequiredPlugins. now rewrite Hfile.
Qed.

(** A config that only sets the gateway port: nothing is installed and
    nothing is written. *)
Lemma preflight_early_exit_witness :
  let disk := fresh_disk (Some (Parsed (VObj [(js "gateway", VObj [(js "port", VNum 18789)])]))) in
  ensureRequiredPlugins "/home/u" slash_join "/opt/ClawX/resources/plugins" disk = (Ok tt, disk).
Proof.
  intros disk.
  destruct (preflight_early_exit "/home/u" slash_join "/opt/ClawX/resources/plugins" disk)
    as (_ & Hnone & _).
  apply (Hnone (VObj [(js "gateway", VObj [(js "port", VNum 18789)])]));
    [reflexivity | discriminate | discriminate |].
  intros fields Hfields. inversion Hfields. reflexivity.
Defined.

(** C10 as stated fails on a config file that holds [null]: the parsed
    config has no [channels] key, and the function does not return — the
    read of [config.channels] throws.  The bundled plugin is there to be
    copied and the directories can be written, yet nothing is installed
    and nothing is written. *)
Lemma preflight_null_config_throws :
  let disk := fresh_disk (Some (Parsed VNull)) in
  let run := ensureRequiredPlugins "/home/u" slash_join "/opt/ClawX/resources/plugins" disk in
  (∃ message, run = (Throw (TypeError message), disk))
  ∧ (∀ after, run ≠ (Ok tt, after)).
Proof.
  split; [eexists; reflexivity|]. intros after H. discriminate H.
Qed.

(** Past the early exits the function does change the disk: with the
    [hi-light] channel configured, the bundled plugin is copied and its
    path is added to [plugins.load.paths]. *)
Example preflight_installs_configured_plugin :
  let config := VObj [(js "channels", VObj [(js "hi-light", VObj [])])] in
  let disk := fresh_disk (Some (Parsed config)) in
  let after := (ensureRequiredPlugins "/home/u" slash_join "/opt/ClawX/resources/plugins" disk).2 in
  isPluginInstalled "hi-light" disk = false
  ∧ isPluginInstalled "hi-light" after = true
  ∧ config_file after
    = Some (Parsed (VObj [ (js "channels", VObj [(js "hi-light", VObj [])]);
                           (js "plugins",
                            VObj [(js "load",
                                   VObj [(js "paths",
                                          VArr [VStr "/home/u/.openclaw/extensions/hi-light"])])]) ])).
Proof. vm_compute. repeat split. Qed.

(** ** Auth profiles: overwriting, framing and the environment *)





Section AuthFrame.
Variable homedir : jsstring.
Variable join : list jsstring → jsstring.
Variable writable : jsstring → bool.

Abbreviation path := (getAuthProfilesPath homedir join).
Abbreviation read := (readAuthProfiles homedir join).
Abbreviation save := (saveProviderKeyToOpenClaw homedir join writable).

(** Whether a save goes through does not depend on the key. *)
Lemma save_succeeds_iff (provider apiKey agentId : jsstring)
  (fs : gmap (list N) (FileData AuthProfilesStore)) :
  writable (path agentId) = true →
  read_map (default ∅ (order (read agentId fs))) provider ≠ Inherited →
  save provider apiKey agentId fs
  = (Ok tt, <[path agentId := Parsed (saved_store provider apiKey (read agentId fs))]> fs).
Proof.
  intros Hw Hr.
  destruct (save_cases homedir join writable provider apiKey agentId fs)
    as [(H1 & _)|(e & _ & [Hw'|Hr'])]; [exact H1|congruence|contradiction].
Qed.

Lemma save_fails_iff (provider apiKey agentId : jsstring)
  (fs : gmap (list N) (FileData AuthProfilesStore)) :
  writable (path agentId) = false
  ∨ read_map (default ∅ (order (read agentId fs))) provider = Inherited →
  (save provider apiKey agentId fs).2 = fs.
Proof.
  intros Hbad.
  destruct (save_cases homedir join writable provider apiKey agentId fs)
    as [(_ & Hw & Hr)|(e & H1 & _)]; [|now rewrite H1].
  destruct Hbad; congruence.
Qed.




End AuthFrame.




(** A file that lacks a truthy [version] or a [profiles] object is
    not merged with: a successful save replaces it by a fresh store with
    the one new profile, so the keys the file held are gone. *)
Theorem save_resets_invalid_file (homedir : jsstring) (join : list jsstring → jsstring)
  (writable : jsstring → bool) (provider apiKey agentId : jsstring)
  (data : AuthProfilesStore)
  (fs fs' : gmap (list N) (FileData AuthProfilesStore)) :
  fs !! getAuthProfilesPath homedir join agentId = Some (Parsed data) →
  valid_store data = false →
  saveProviderKeyToOpenClaw homedir join writable provider apiKey agentId fs = (Ok tt, fs') →
  fs' !! getAuthProfilesPath homedir join agentId
  = Some (Parsed (mkStore (Some AUTH_STORE_VERSION)
                    (Some {[ provider ++ js ":default" := mkEntry "api_key" provider apiKey ]})
                    (Some {[ provider := [provider ++ js ":default"] ]})
                    (Some (assign_map ∅ provider (provider ++ js ":default")))))
  ∧ stored_keys (fs' !! getAuthProfilesPath homedir join agentId) = [apiKey].
Proof.
  intros Hfile Hinvalid Hsave.
  destruct (save_cases homedir join writable provider apiKey agentId fs)
    as [(H1 & Hw & Hr)|(e & H1 & _)]; [|congruence].
  rewrite H1 in Hsave. inversion Hsave as [Hfs]. clear Hsave.
  assert (Hread : readAuthProfiles homedir join agentId fs = empty_store).
  { unfold readAuthProfiles. now rewrite Hfile, Hinvalid. }
  rewrite Hread, lookup_insert_eq.
  unfold saved_store, empty_store. cbn [version profiles order lastGood default from_option id].
  rewrite lookup_empty. cbn [default from_option id].
  unfold order_with. rewrite bool_decide_eq_false_2 by apply not_elem_of_nil.
  rewrite !insert_empty. split; [reflexivity|].
  unfold stored_keys. cbn [profiles default from_option id].
  now rewrite map_to_list_singleton.
Qed.

Lemma save_resets_invalid_file_witness :
  let file := getAuthProfilesPath "/home/u" slash_join "main" in
  let data := mkStore (Some 0%Z)
                (Some {[ js "openai:default" := mkEntry "api_key" "openai" "sk-1" ]})
                None None in
  let fs : gmap (list N) (FileData AuthProfilesStore) := {[ file := Parsed data ]} in
  ∃ fs', saveProviderKeyToOpenClaw "/home/u" slash_join (fun _ => true)
           "anthropic" "sk-ant-2" "main" fs = (Ok tt, fs')
         ∧ stored_keys (fs !! file) = [js "sk-1"]
         ∧ stored_keys (fs' !! file) = [js "sk-ant-2"].
Proof.
  intros file data fs. eexists. split; [reflexivity|]. split; [vm_compute; reflexivity|].
  refine (proj2 (save_resets_invalid_file "/home/u" slash_join (fun _ => true)
                   "anthropic" "sk-ant-2" "main" data fs _ _ _ eq_refl)).
  - reflexivity.
  - reflexivity.
Defined.



(** ** The environment of the gateway process *)

Lemma table_lookup_elem (k v : jsstring) (table : list (jsstring * jsstring)) :
  table_lookup k table = Some v → (k, v) ∈ table.
Proof.
  induction table as [|[k' v'] rest IH]; [discriminate|].
  cbn [table_lookup]. unfold eqb_str. case_bool_decide as Hk.
  - intros H. inversion H. subst. apply elem_of_cons. now left.
  - intros H. apply elem_of_cons. right. now apply IH.
Qed.

(** No two provider types share an environment variable. *)
Lemma env_var_names_distinct (t t' v : jsstring) :
  table_lookup t PROVIDER_ENV_VARS = Some v →
  table_lookup t' PROVIDER_ENV_VARS = Some v → t = t'.
Proof.
  intros H1 H2. apply table_lookup_elem in H1, H2.
  unfold PROVIDER_ENV_VARS in H1, H2.
  repeat (apply elem_of_cons in H1 as [H1|H1]);
    try (apply elem_of_nil in H1; contradiction);
    repeat (apply elem_of_cons in H2 as [H2|H2]);
    try (apply elem_of_nil in H2; contradiction);
    cbv in H1, H2; inversion H1; inversion H2; subst; first [reflexivity | discriminate].
Qed.

Lemma truthy_str_empty (s : jsstring) : truthy (VStr s) = false → s = [].
Proof. now destruct s. Qed.

(** [buildProviderEnvVars] never puts an empty value into the
    environment, and every value it puts there is the key of one of the
    listed providers. *)
Theorem env_values_are_listed_keys (inherited_text : jsstring → jsstring)
  (providers : list (jsstring * jsstring)) (name value : jsstring) :
  buildProviderEnvVars inherited_text providers !! name = Some value →
  value ≠ [] ∧ ∃ type, (type, value) ∈ providers.
Proof.
  revert name value. induction providers as [|[type apiKey] providers IH] using rev_ind.
  - intros name value H. unfold buildProviderEnvVars in H. cbn [fold_left] in H.
    now rewrite lookup_empty in H.
  - intros name value. rewrite build_env_snoc.
    assert (Hold : buildProviderEnvVars inherited_text providers !! name = Some value →
                   value ≠ [] ∧ ∃ type0, (type0, value) ∈ providers ++ [(type, apiKey)]).
    { intros H. destruct (IH name value H) as [Hne [type0 Hin]].
      split; [exact Hne|]. exists type0. apply elem_of_app. now left. }
    assert (Hnew : ∀ key, truthy (VStr apiKey) = true →
                   <[key := apiKey]> (buildProviderEnvVars inherited_text providers) !! name
                   = Some value →
                   value ≠ [] ∧ ∃ type0, (type0, value) ∈ providers ++ [(type, apiKey)]).
    { intros key Htrue. destruct (decide (key = name)) as [->|Hkey].
      - rewrite lookup_insert_eq. intros H. inversion H. subst value. split.
        + intros ->. discriminate.
        + exists type. apply elem_of_app. right. now apply list_elem_of_singleton.
      - rewrite lookup_insert_ne by exact Hkey. exact Hold. }
    unfold add_env_var. destruct (getProviderEnvVar type) as [envVar| |].
    + destruct (truthy (VStr envVar)); cbn [andb]; [|exact Hold].
      destruct (truthy (VStr apiKey)) eqn:Hk; [now apply Hnew|exact Hold].
    + destruct (truthy (VStr apiKey)) eqn:Hk; [now apply Hnew|exact Hold].
    + exact Hold.
Qed.

Lemma env_values_are_listed_keys_witness :
  let providers := [(js "openai", js "sk-1"); (js "google", js "")] in
  buildProviderEnvVars (fun name => name) providers !! js "OPENAI_API_KEY" = Some (js "sk-1")
  ∧ js "sk-1" ≠ [] ∧ ∃ type, (type, js "sk-1") ∈ providers.
Proof.
  intros providers. split; [reflexivity|].
  apply (env_values_are_listed_keys (fun name => name) providers (js "OPENAI_API_KEY")).
  reflexivity.
Defined.

(** For a provider type of [PROVIDER_ENV_VARS], the environment
    holds the key of the last listed provider of that type that has a
    non-empty key, and no variable when there is none (no listed
    provider being named like a member of [Object.prototype]). *)
Theorem env_holds_last_key (inherited_text : jsstring → jsstring)
  (providers : list (jsstring * jsstring)) (type envVar : jsstring) :
  Forall (fun p => inherited p.1 = false) providers →
  table_lookup type PROVIDER_ENV_VARS = Some envVar →
  buildProviderEnvVars inherited_text providers !! envVar
  = last (keys_of_type type providers).
Proof.
  intros Hplain Htable.
  induction providers as [|[type' apiKey] providers IH] using rev_ind; [reflexivity|].
  apply Forall_app in Hplain as [Hplain Hlast].
  apply Forall_cons in Hlast as [Hlast _]. cbn [fst] in Hlast.
  specialize (IH Hplain).
  rewrite build_env_snoc. unfold keys_of_type. rewrite filter_app, fmap_app.
  fold (keys_of_type type providers).
  unfold add_env_var, getProviderEnvVar. rewrite Hlast.
  destruct (table_lookup type' PROVIDER_ENV_VARS) as [envVar'|] eqn:Htable'.
  - rewrite (env_var_names_truthy type' envVar' Htable'). cbn [andb].
    destruct (truthy (VStr apiKey)) eqn:Hk.
    + destruct (decide (type' = type)) as [->|Hty].
      * assert (envVar' = envVar) as -> by congruence.
        rewrite lookup_insert_eq.
        rewrite filter_cons, decide_True.
        -- cbn -[last keys_of_type]. now rewrite last_snoc.
        -- split; [reflexivity|]. cbn [snd]. intros ->. discriminate.
      * rewrite lookup_insert_ne.
        -- rewrite filter_cons, decide_False by (intros [? _]; contradiction).
           cbn. now rewrite app_nil_r.
        -- intros ->. apply Hty. exact (env_var_names_distinct _ _ _ Htable' Htable).
    + apply truthy_str_empty in Hk. subst apiKey.
      rewrite filter_cons, decide_False by (intros [_ ?]; contradiction).
      cbn. now rewrite app_nil_r.
  - rewrite filter_cons, decide_False.
    + cbn. now rewrite app_nil_r.
    + intros [Heq _]. cbn [fst] in Heq. congruence.
Qed.

Lemma env_holds_last_key_witness :
  buildProviderEnvVars (fun name => name)
    [(js "openai", js "sk-1"); (js "anthropic", js "sk-a"); (js "openai", js "sk-2");
     (js "openai", js "")] !! js "OPENAI_API_KEY"
  = Some (js "sk-2").
Proof.
  refine (eq_trans (env_holds_last_key (fun name => name) _ "openai" "OPENAI_API_KEY" _ _) _).
  - repeat constructor.
  - reflexivity.
  - vm_compute. reflexivity.
Defined.

(** ** [provider:save] when a step fails *)

(** [provider:save] is not all-or-nothing.  When the secure
    storage takes the provider and the key but the auth-profiles file
    cannot be written (or the provider type is the name of a member of
    [Object.prototype]), the reply is still a success and the file is as
    it was: the key is in the secure storage only.  When storing the key
    fails, the reply is a failure with the text of the error, the
    provider saved before it stays saved, and the file is as it was. *)
Theorem provider_save_partial_failure {St : Type} (storage : SecureStorage St)
  (homedir : jsstring) (join : list jsstring → jsstring) (writable : jsstring → bool)
  (config : ProviderConfig) (apiKey : jsstring) (s s1 : St)
  (fs : gmap (list N) (FileData AuthProfilesStore)) :
  apiKey ≠ [] →
  saveProvider storage config s = (Ok tt, s1) →
  (∀ s2, storeApiKey storage (config_id config) apiKey s1 = (Ok tt, s2) →
     writable (getAuthProfilesPath homedir join "main") = false
     ∨ read_map (default ∅ (order (readAuthProfiles homedir join "main" fs)))
         (config_type config) = Inherited →
     provider_save storage homedir join writable config (Some apiKey) (s, fs)
     = (Ok (success_reply []), (s2, fs)))
  ∧ (∀ e s2, storeApiKey storage (config_id config) apiKey s1 = (Throw e, s2) →
       provider_save storage homedir join writable config (Some apiKey) (s, fs)
       = (Ok (failure_reply e), (s2, fs))).
Proof.
  intros Hkey Hsave. split.
  - intros s2 Hstore Hbad.
    unfold provider_save, try_catch, bind, in_fst, ret. cbn [fst snd].
    rewrite Hsave. rewrite (truthy_nonempty apiKey Hkey). cbn [fst snd].
    rewrite Hstore. rewrite save_key_quietly_spec.
    now rewrite (save_fails_iff homedir join writable _ _ _ _ Hbad).
  - intros e s2 Hstore.
    unfold provider_save, try_catch, bind, in_fst, ret. cbn [fst snd].
    rewrite Hsave. rewrite (truthy_nonempty apiKey Hkey). cbn [fst snd].
    now rewrite Hstore.
Qed.

Lemma provider_save_partial_failure_witness :
  provider_save blank_storage "/home/u" slash_join (fun _ => false)
    (mkConfig "or-1" "openrouter") (Some (js "sk-or-1")) (tt, ∅)
  = (Ok (success_reply []), (tt, ∅)).
Proof.
  apply (proj1 (provider_save_partial_failure blank_storage "/home/u" slash_join
                  (fun _ => false) (mkConfig "or-1" "openrouter") "sk-or-1" tt tt ∅
                  ltac:(discriminate) eq_refl) tt eq_refl).
  now left.
Defined.

(** ** Own properties of plain objects *)

Lemma obj_lookup_set_eq (k : jsstring) (v : Value) (fields : list (jsstring * Value)) :
  obj_lookup k (obj_set k v fields) = Some v.
Proof.
  induction fields as [|[k' v'] rest IH]; cbn [obj_set obj_lookup]; unfold eqb_str.
  - now rewrite bool_decide_eq_true_2.
  - case_bool_decide as Hk; cbn [obj_lookup]; unfold eqb_str.
    + now rewrite bool_decide_eq_true_2.
    + rewrite bool_decide_eq_false_2 by exact Hk. exact IH.
Qed.

Lemma obj_lookup_set_ne (k k' : jsstring) (v : Value) (fields : list (jsstring * Value)) :
  k ≠ k' → obj_lookup k (obj_set k' v fields) = obj_lookup k fields.
Proof.
  intros Hne. induction fields as [|[k0 v0] rest IH]; cbn [obj_set obj_lookup]; unfold eqb_str.
  - now rewrite bool_decide_eq_false_2.
  - case_bool_decide as Hk; cbn [obj_lookup]; unfold eqb_str.
    + subst k0. now rewrite !bool_decide_eq_false_2 by exact Hne.
    + case_bool_decide; [reflexivity|exact IH].
Qed.

Lemma obj_set_set (k : jsstring) (v v' : Value) (fields : list (jsstring * Value)) :
  obj_set k v (obj_set k v' fields) = obj_set k v fields.
Proof.
  induction fields as [|[k0 v0] rest IH]; cbn [obj_set]; unfold eqb_str.
  - now rewrite bool_decide_eq_true_2.
  - case_bool_decide as Hk; cbn [obj_set]; unfold eqb_str.
    + now rewrite bool_decide_eq_true_2.
    + rewrite bool_decide_eq_false_2 by exact Hk. now rewrite IH.
Qed.

Lemma obj_lookup_delete_eq (k : jsstring) (fields : list (jsstring * Value)) :
  obj_lookup k (obj_delete k fields) = None.
Proof.
  unfold obj_delete. induction fields as [|[k0 v0] rest IH]; [reflexivity|].
  rewrite filter_cons. cbn [fst]. destruct (decide (k ≠ k0)) as [Hne|Heq].
  - cbn [obj_lookup]. unfold eqb_str. now rewrite bool_decide_eq_false_2.
  - exact IH.
Qed.

Lemma obj_lookup_delete_ne (k k' : jsstring) (fields : list (jsstring * Value)) :
  k ≠ k' → obj_lookup k (obj_delete k' fields) = obj_lookup k fields.
Proof.
  intros Hne. unfold obj_delete. induction fields as [|[k0 v0] rest IH]; [reflexivity|].
  rewrite filter_cons. cbn [fst]. destruct (decide (k' ≠ k0)) as [Hne'|Heq].
  - cbn [obj_lookup]. now rewrite IH.
  - apply dec_stable in Heq. subst k0. cbn [obj_lookup]. unfold eqb_str.
    now rewrite bool_decide_eq_false_2.
Qed.

(** ** The plugin pre-flight, past its early exits *)

Section PreflightProperties.
Variable homedir : jsstring.
Variable join : list jsstring → jsstring.
Variable bundledPluginsDir : jsstring.

Abbreviation preflight := (ensureRequiredPlugins homedir join bundledPluginsDir).
Abbreviation install := (installBundledPlugin join bundledPluginsDir).
Abbreviation step := (install_step bundledPluginsDir join).
Abbreviation plugin_path pluginId := (join [getExtensionsDir homedir join; pluginId]).
Abbreviation with_config file disk :=
  (mkDisk file (extensions disk) (bundled disk) (extensions_writable disk)
          (config_writable disk)).
Abbreviation copied pluginId files disk :=
  (mkDisk (config_file disk)
     (Some (<[pluginId := files ∪ default ∅ (default ∅ (extensions disk) !! pluginId)]>
              (default ∅ (extensions disk))))
     (bundled disk) (extensions_writable disk) (config_writable disk)).

Lemma ensure_plugin_unfold (channels config : Value) (dirty : bool) (disk : Disk)
  (pluginId : jsstring) :
  ensure_plugin homedir join bundledPluginsDir channels (config, dirty, disk) pluginId
  = match get_prop channels pluginId with
    | Ok wanted =>
        if negb (truthy wanted) then (config, dirty, disk)
        else
          let '(proceed, disk1) := step pluginId disk in
          if proceed then
            let '(config1, added) := add_load_path config (plugin_path pluginId) in
            (config1, dirty || added, disk1)
          else (config, dirty, disk1)
    | Throw _ => (config, dirty, disk)
    end.
Proof. reflexivity. Qed.

(** The copy either fails and changes nothing, or succeeds and lays the
    bundled files over the plugin directory. *)
Lemma install_cases (pluginId : jsstring) (disk : Disk) :
  (install_success (install pluginId disk).1 = false ∧ (install pluginId disk).2 = disk)
  ∨ (∃ files, bundled disk !! bundled_name pluginId = Some files
              ∧ extensions_writable disk = true
              ∧ install pluginId disk = (mkInstall true None, copied pluginId files disk)).
Proof.
  unfold installBundledPlugin.
  destruct (bundled disk !! bundled_name pluginId) as [files|] eqn:Hb; [|now left].
  destruct (extensions_writable disk) eqn:Hw; [|now left].
  right. exists files. auto.
Qed.

Lemma install_copied (pluginId : jsstring) (files : gmap (list N) (FileData Value))
  (disk : Disk) (file : option (FileData Value)) :
  bundled disk !! bundled_name pluginId = Some files →
  extensions_writable disk = true →
  install pluginId (with_config file (copied pluginId files disk))
  = (mkInstall true None, with_config file (copied pluginId files disk)).
Proof.
  intros Hb Hw. unfold installBundledPlugin.
  cbn [bundled extensions extensions_writable config_writable config_file].
  rewrite Hb, Hw. cbn [default from_option id].
  rewrite lookup_insert_eq. cbn [default from_option id].
  rewrite insert_insert_eq.
  rewrite (assoc_L (∪)), (idemp_L (∪)). reflexivity.
Qed.

Lemma install_step_cases (pluginId : jsstring) (disk : Disk) :
  (step pluginId disk).2 = disk
  ∨ (∃ files, bundled disk !! bundled_name pluginId = Some files
              ∧ extensions_writable disk = true
              ∧ step pluginId disk = (true, copied pluginId files disk)).
Proof.
  unfold install_step.
  destruct (isPluginInstalled pluginId disk); cbn [negb].
  - destruct (isBundledNewer pluginId disk); [|now left].
    destruct (install_cases pluginId disk) as [[_ H]|(files & Hb & Hw & H)].
    + left. exact H.
    + right. exists files. now rewrite H.
  - destruct (install_cases pluginId disk) as [[_ H]|(files & Hb & Hw & H)].
    + left. now destruct (install pluginId disk).
    + right. exists files. now rewrite H.
Qed.

(** Step 1 does not look at the config file. *)
Lemma install_step_config (pluginId : jsstring) (disk : Disk) (file : option (FileData Value)) :
  step pluginId (with_config file disk)
  = ((step pluginId disk).1, with_config file (step pluginId disk).2).
Proof.
  unfold install_step, isPluginInstalled, isBundledNewer, installed_dir, installBundledPlugin.
  cbn [bundled extensions extensions_writable config_writable config_file].
  destruct (default ∅ (extensions disk) !! pluginId) as [dir|]; cbn [negb].
  - destruct (bool_decide (is_Some (dir !! js "package.json"))); cbn [negb].
    + destruct (match package_version (bundled disk !! bundled_name pluginId) with
                | Ok bundledVersion =>
                    match package_version (Some dir) with
                    | Ok installedVersion => negb (strict_eq bundledVersion installedVersion)
                    | Throw _ => false
                    end
                | Throw _ => false
                end); [|reflexivity].
      destruct (bundled disk !! bundled_name pluginId); [|reflexivity].
      destruct (extensions_writable disk) eqn:Hw;
        cbn [fst snd extensions bundled extensions_writable config_writable config_file];
        rewrite ?Hw; reflexivity.
    + destruct (bundled disk !! bundled_name pluginId); [|reflexivity].
      destruct (extensions_writable disk) eqn:Hw;
        cbn [fst snd extensions bundled extensions_writable config_writable config_file];
        rewrite ?Hw; reflexivity.
  - destruct (bundled disk !! bundled_name pluginId); [|reflexivity].
    destruct (extensions_writable disk) eqn:Hw;
        cbn [fst snd extensions bundled extensions_writable config_writable config_file];
        rewrite ?Hw; reflexivity.
Qed.

(** Running step 1 again on the disk it left finds nothing more to do. *)
Lemma install_step_settled (pluginId : jsstring) (disk : Disk)
  (file : option (FileData Value)) :
  step pluginId (with_config file (step pluginId disk).2)
  = ((step pluginId disk).1, with_config file (step pluginId disk).2).
Proof.
  destruct (install_step_cases pluginId disk) as [Hsame|(files & Hb & Hw & Hstep)].
  - rewrite install_step_config. rewrite !Hsame. reflexivity.
  - rewrite Hstep. cbn [fst snd].
    pose proof (install_copied pluginId files disk file Hb Hw) as Hagain.
    unfold install_step.
    destruct (isPluginInstalled pluginId _); cbn [negb].
    + destruct (isBundledNewer pluginId _); [|reflexivity]. now rewrite Hagain.
    + now rewrite Hagain.
Qed.

End PreflightProperties.

(** ** The config that the pre-flight writes *)

Lemma includes_snoc (items : list Value) (s : jsstring) :
  includes (items ++ [VStr s]) s = true.
Proof.
  unfold includes. rewrite existsb_app. cbn [existsb]. unfold eqb_str.
  rewrite bool_decide_eq_true_2 by reflexivity. now rewrite orb_true_r.
Qed.

Lemma includes_nil (s : jsstring) : includes [] s = false.
Proof. reflexivity. Qed.

Lemma obj_lookup_nil (k : jsstring) : obj_lookup k [] = None.
Proof. reflexivity. Qed.

Ltac obj_simpl :=
  repeat first
    [ rewrite obj_lookup_set_eq
    | rewrite obj_lookup_set_ne by discriminate
    | rewrite obj_set_set
    | rewrite obj_lookup_delete_eq
    | rewrite obj_lookup_delete_ne by discriminate
    | rewrite includes_snoc
    | rewrite includes_nil
    | rewrite obj_lookup_nil
    | progress cbn [get_prop set_prop has_prop or_empty_object truthy typeof_object andb
                    default from_option id fst snd] ].

Lemma remove_loadPaths_settled (fields : list (jsstring * Value)) (config1 : Value)
  (dirty1 : bool) :
  remove_loadPaths (VObj fields) = Ok (config1, dirty1) →
  ∃ fields1, config1 = VObj fields1
             ∧ (∀ k, k ≠ js "plugins" → obj_lookup k fields1 = obj_lookup k fields)
             ∧ clean_fields fields1.
Proof.
  unfold clean_fields, remove_loadPaths. cbn [get_prop].
  destruct (obj_lookup "plugins" fields) as [pluginsCfg|] eqn:Hp; cbn [default from_option id].
  - destruct pluginsCfg as [| |b|n|s|items|pf|e]; cbn [truthy has_prop].
    + intros H. inversion H. subst. exists fields. rewrite Hp. cbn. auto.
    + intros H. inversion H. subst. exists fields. rewrite Hp. cbn. auto.
    + destruct b; [discriminate|]. intros H. inversion H. subst. exists fields.
      rewrite Hp. cbn. auto.
    + destruct (negb (n =? 0)%Z) eqn:Hn; [discriminate|]. intros H. inversion H. subst.
      exists fields. rewrite Hp. cbn [default from_option id truthy]. rewrite Hn. auto.
    + destruct s; [|discriminate]. intros H. inversion H. subst. exists fields.
      rewrite Hp. cbn. auto.
    + intros H. inversion H. subst. exists fields. rewrite Hp. cbn. auto.
    + case_bool_decide as Hl.
      * intros H. inversion H. subst. cbn [set_prop].
        exists (obj_set "plugins" (VObj (obj_delete "loadPaths" pf)) fields).
        split; [reflexivity|]. split.
        -- intros k Hk. now apply obj_lookup_set_ne.
        -- obj_simpl. rewrite bool_decide_eq_false_2; [reflexivity|].
           intros [v Hv]. discriminate.
      * intros H. inversion H. subst. exists fields. rewrite Hp.
        cbn [default from_option id truthy has_prop].
        rewrite bool_decide_eq_false_2 by exact Hl. auto.
    + intros H. inversion H. subst. exists fields. rewrite Hp. cbn. auto.
  - cbn [truthy]. intros H. inversion H. subst. exists fields. rewrite Hp. cbn. auto.
Qed.

Lemma clean_fields_plugins (fields pf : list (jsstring * Value)) :
  clean_fields fields → obj_lookup "plugins" fields = Some (VObj pf) →
  obj_lookup "loadPaths" pf = None.
Proof.
  unfold clean_fields, remove_loadPaths. cbn [get_prop]. intros H Hp. rewrite Hp in H.
  cbn [default from_option id truthy has_prop] in H.
  case_bool_decide as Hl; [discriminate|].
  destruct (obj_lookup "loadPaths" pf) eqn:Hv; [|reflexivity].
  exfalso. apply Hl. now eexists.
Qed.

(** Step 2 leaves a config in which the path is listed, the cleanup has
    nothing to remove and the other top-level keys are as before; on
    that config step 2 changes nothing. *)
Lemma add_load_path_settled (fields : list (jsstring * Value)) (pluginPath : jsstring) :
  clean_fields fields →
  ∃ fields2, (add_load_path (VObj fields) pluginPath).1 = VObj fields2
             ∧ (∀ k, k ≠ js "plugins" → obj_lookup k fields2 = obj_lookup k fields)
             ∧ clean_fields fields2
             ∧ (add_load_path (VObj fields2) pluginPath).1 = VObj fields2.
Proof.
  intros Hclean.
  pose proof (clean_fields_plugins fields) as Hno. specialize (Hno) with (1 := Hclean).
  clear Hclean. unfold clean_fields, remove_loadPaths, add_load_path. cbn [get_prop].
  destruct (obj_lookup "plugins" fields) as [pluginsCfg|] eqn:Hp.
  - destruct pluginsCfg as [| |b|n|s|items|pf|e].
    all: cbn [default from_option id or_empty_object truthy typeof_object andb get_prop].
    all: unfold or_empty_object; cbn [truthy typeof_object]; rewrite ?andb_false_r.
    all: cbn [default from_option id or_empty_object truthy typeof_object andb get_prop
              set_prop fst snd].
    7: {
      specialize (Hno pf eq_refl).
      destruct (obj_lookup "load" pf) as [load|] eqn:Hload.
      - destruct load as [| |b|n|s|items|lf|e].
        all: cbn [default from_option id or_empty_object truthy typeof_object andb get_prop].
        all: unfold or_empty_object; cbn [truthy typeof_object]; rewrite ?andb_false_r.
        all: cbn [default from_option id or_empty_object truthy typeof_object andb get_prop
                  set_prop fst snd].
        7: {
          destruct (obj_lookup "paths" lf) as [paths|] eqn:Hpaths.
          - destruct paths as [| |b|n|s|items| |e].
            all: cbn [default from_option id set_prop fst snd].
            6: {
              destruct (includes items pluginPath) eqn:Hinc; cbn [fst snd].
              all: eexists; split; [reflexivity|]; split;
                [intros k Hk; now rewrite obj_lookup_set_ne by exact Hk|].
              all: obj_simpl; rewrite ?Hno; obj_simpl; rewrite ?Hinc; obj_simpl.
              all: rewrite bool_decide_eq_false_2 by (intros [v Hv]; discriminate).
              all: split; reflexivity. }
            all: rewrite ?includes_nil; cbn [fst snd].
            all: eexists; split; [reflexivity|]; split;
              [intros k Hk; now rewrite obj_lookup_set_ne by exact Hk|].
            all: obj_simpl; rewrite ?Hno; obj_simpl.
            all: try rewrite bool_decide_eq_false_2 by (intros [v Hv]; discriminate).
            all: split; reflexivity.
          - cbn [default from_option id set_prop fst snd].
            rewrite ?includes_nil; cbn [fst snd].
            eexists; split; [reflexivity|]; split;
              [intros k Hk; now rewrite obj_lookup_set_ne by exact Hk|].
            obj_simpl; rewrite ?Hno; obj_simpl.
            rewrite bool_decide_eq_false_2 by (intros [v Hv]; discriminate).
            split; reflexivity. }
        all: rewrite ?includes_nil; cbn [fst snd set_prop].
        all: eexists; split; [reflexivity|]; split;
          [intros k Hk; now rewrite obj_lookup_set_ne by exact Hk|].
        all: obj_simpl; rewrite ?Hno; obj_simpl.
        all: try rewrite bool_decide_eq_false_2 by (intros [v Hv]; discriminate).
        all: split; reflexivity.
      - cbn [default from_option id or_empty_object truthy typeof_object andb get_prop
             set_prop fst snd].
        rewrite ?includes_nil; cbn [fst snd set_prop].
        eexists; split; [reflexivity|]; split;
          [intros k Hk; now rewrite obj_lookup_set_ne by exact Hk|].
        obj_simpl; rewrite ?Hno; obj_simpl.
        rewrite bool_decide_eq_false_2 by (intros [v Hv]; discriminate).
        split; reflexivity. }
    all: rewrite ?includes_nil; cbn [fst snd set_prop].
    all: eexists; split; [reflexivity|]; split;
      [intros k Hk; now rewrite obj_lookup_set_ne by exact Hk|].
    all: obj_simpl.
    all: try rewrite bool_decide_eq_false_2 by (intros [v Hv]; discriminate).
    all: split; reflexivity.
  - cbn [default from_option id or_empty_object truthy typeof_object andb get_prop
         set_prop fst snd].
    rewrite ?includes_nil; cbn [fst snd set_prop].
    eexists; split; [reflexivity|]; split;
      [intros k Hk; now rewrite obj_lookup_set_ne by exact Hk|].
    obj_simpl.
    rewrite bool_decide_eq_false_2 by (intros [v Hv]; discriminate).
    split; reflexivity.
Qed.

Section PreflightRuns.
Variable homedir : jsstring.
Variable join : list jsstring → jsstring.
Variable bundledPluginsDir : jsstring.

Abbreviation preflight := (ensureRequiredPlugins homedir join bundledPluginsDir).
Abbreviation step := (install_step bundledPluginsDir join).
Abbreviation plugin_path pluginId := (join [getExtensionsDir homedir join; pluginId]).
Abbreviation with_config file disk :=
  (mkDisk file (extensions disk) (bundled disk) (extensions_writable disk)
          (config_writable disk)).

Lemma with_config_eta (disk : Disk) : with_config (config_file disk) disk = disk.
Proof. now destruct disk. Qed.

Lemma install_step_keeps (pluginId : jsstring) (disk : Disk) :
  config_file (step pluginId disk).2 = config_file disk
  ∧ config_writable (step pluginId disk).2 = config_writable disk
  ∧ bundled (step pluginId disk).2 = bundled disk
  ∧ extensions_writable (step pluginId disk).2 = extensions_writable disk.
Proof.
  destruct (install_step_cases join bundledPluginsDir pluginId disk)
    as [Hsame|(files & _ & _ & Hstep)].
  - now rewrite Hsame.
  - now rewrite Hstep.
Qed.

Lemma install_step_again (pluginId : jsstring) (disk : Disk) :
  step pluginId (step pluginId disk).2 = step pluginId disk.
Proof.
  pose proof (install_step_settled join bundledPluginsDir pluginId disk
                (config_file (step pluginId disk).2)) as H.
  rewrite with_config_eta in H. rewrite H. now destruct (step pluginId disk).
Qed.

Lemma write_config_written (config : Value) (disk : Disk) :
  config_writable disk = true →
  write_config config disk = with_config (Some (Parsed config)) disk.
Proof. intros Hw. unfold write_config. now rewrite Hw. Qed.

Lemma write_config_refused (config : Value) (disk : Disk) :
  config_writable disk = false → write_config config disk = disk.
Proof. intros Hw. unfold write_config. now rewrite Hw. Qed.

Lemma write_config_again (config : Value) (disk : Disk) :
  write_config config (with_config (Some (Parsed config)) disk)
  = with_config (Some (Parsed config)) disk.
Proof.
  unfold write_config. cbn [config_writable extensions bundled extensions_writable].
  now destruct (config_writable disk).
Qed.

(** The pre-flight past its early exits, in one expression: whether the
    [hi-light] channel is configured, whether step 1 lets the loop body
    go on, the config after step 2, and the write. *)
Lemma preflight_result (disk : Disk) (fields : list (jsstring * Value))
  (channels config1 : Value) (dirty1 : bool) :
  config_file disk = Some (Parsed (VObj fields)) →
  get_prop (VObj fields) "channels" = Ok channels →
  truthy channels = true →
  remove_loadPaths (VObj fields) = Ok (config1, dirty1) →
  let wanted := match get_prop channels "hi-light" with
                | Ok w => truthy w
                | Throw _ => false
                end in
  let proceed := wanted && (step "hi-light" disk).1 in
  let disk1 := if wanted then (step "hi-light" disk).2 else disk in
  let config2 := if proceed then (add_load_path config1 (plugin_path (js "hi-light"))).1
                 else config1 in
  let dirty := dirty1 || (proceed && (add_load_path config1 (plugin_path (js "hi-light"))).2) in
  preflight disk = (Ok tt, if dirty then write_config config2 disk1 else disk1).
Proof.
  intros Hfile Hch Ht Hrm. cbv zeta.
  unfold ensureRequiredPlugins. rewrite Hfile, Hch, Ht, Hrm. cbn [negb].
  change (fst <$> BUNDLED_PLUGINS) with [js "hi-light"]. cbn [fold_left].
  rewrite ensure_plugin_unfold.
  destruct (get_prop channels "hi-light") as [w|e]; cbn [andb].
  - destruct (truthy w); cbn [negb andb].
    + destruct (step "hi-light" disk) as [p d1]. cbn [fst snd].
      destruct p.
      * destruct (add_load_path config1 (plugin_path (js "hi-light"))) as [c2 added].
        reflexivity.
      * now rewrite orb_false_r.
    + now rewrite orb_false_r.
  - now rewrite orb_false_r.
Qed.

Lemma channels_is_object (config channels : Value) :
  get_prop config "channels" = Ok channels → truthy channels = true →
  ∃ fields, config = VObj fields.
Proof.
  intros Hch Ht. destruct config as [| |b|n|s|items|fields|e];
    try (cbn in Hch; inversion Hch; subst; discriminate).
  now exists fields.
Qed.

Lemma preflight_settled (disk : Disk) (fields : list (jsstring * Value))
  (channels config1 : Value) (dirty1 : bool) :
  config_file disk = Some (Parsed (VObj fields)) →
  get_prop (VObj fields) "channels" = Ok channels →
  truthy channels = true →
  remove_loadPaths (VObj fields) = Ok (config1, dirty1) →
  preflight (preflight disk).2 = preflight disk.
Proof.
  intros Hfile Hch Ht Hrm.
  pose proof (preflight_result disk fields channels config1 dirty1 Hfile Hch Ht Hrm) as Hrun.
  cbv zeta in Hrun.
  set (wanted := match get_prop channels "hi-light" with
                 | Ok w => truthy w
                 | Throw _ => false
                 end) in *.
  set (proceed := wanted && (step "hi-light" disk).1) in *.
  set (disk1 := if wanted then (step "hi-light" disk).2 else disk) in *.
  set (config2 := if proceed then (add_load_path config1 (plugin_path (js "hi-light"))).1
                  else config1) in *.
  assert (Hwdef : wanted = match get_prop channels "hi-light" with
                           | Ok w => truthy w
                           | Throw _ => false
                           end) by reflexivity.
  assert (Hproceed : proceed = wanted && (step "hi-light" disk).1) by reflexivity.
  assert (Hconfig2 : config2 = if proceed
                               then (add_load_path config1 (plugin_path (js "hi-light"))).1
                               else config1) by reflexivity.
  assert (Hfile1 : config_file disk1 = config_file disk).
  { unfold disk1. destruct wanted; [|reflexivity].
    now destruct (install_step_keeps "hi-light" disk) as (H1 & _). }
  assert (Hw1 : config_writable disk1 = config_writable disk).
  { unfold disk1. destruct wanted; [|reflexivity].
    now destruct (install_step_keeps "hi-light" disk) as (_ & H2 & _). }
  assert (Hstep1 : ∀ file, wanted = true →
            step "hi-light" (with_config file disk1)
            = ((step "hi-light" disk).1, with_config file disk1)).
  { intros file Hwanted. unfold disk1. rewrite Hwanted.
    apply install_step_settled. }
  assert (Hagain : wanted = true →
            step "hi-light" disk1 = ((step "hi-light" disk).1, disk1)).
  { intros Hwanted. unfold disk1. rewrite Hwanted.
    rewrite install_step_again. now destruct (step "hi-light" disk). }
  destruct (remove_loadPaths_settled fields config1 dirty1 Hrm)
    as (fields1 & Hc1 & Hother1 & Hclean1).
  destruct (add_load_path_settled fields1 (plugin_path (js "hi-light")) Hclean1)
    as (fields2 & Hc2 & Hother2 & Hclean2 & Hfix2).
  rewrite <- Hc1 in Hc2.
  assert (Hwritten : ∃ fieldsW, config2 = VObj fieldsW
                                ∧ get_prop (VObj fieldsW) "channels" = Ok channels
                                ∧ clean_fields fieldsW
                                ∧ (proceed = true →
                                   (add_load_path (VObj fieldsW)
                                      (plugin_path (js "hi-light"))).1
                                   = VObj fieldsW)).
  { rewrite Hconfig2. destruct proceed.
    - exists fields2. split; [exact Hc2|]. split; [|split; [exact Hclean2|now intros _]].
      cbn [get_prop] in *. now rewrite Hother2, Hother1 by discriminate.
    - exists fields1. split; [exact Hc1|]. split; [|split; [exact Hclean1|discriminate]].
      cbn [get_prop] in *. now rewrite Hother1 by discriminate. }
  destruct Hwritten as (fieldsW & HcW & HchW & HcleanW & HfixW).
  clearbody config2 disk1 proceed wanted.
  rewrite Hrun. cbn [snd].
  destruct (dirty1 || proceed && (add_load_path config1 (plugin_path (js "hi-light"))).2)
    eqn:Hdirty; [destruct (config_writable disk) eqn:Hw|].
  - (* the config was written *)
    rewrite write_config_written by congruence. rewrite HcW.
    rewrite (preflight_result (with_config (Some (Parsed (VObj fieldsW))) disk1)
               fieldsW channels (VObj fieldsW) false eq_refl HchW Ht HcleanW).
    cbv zeta. f_equal. rewrite <- Hwdef.
    destruct wanted eqn:Hwanted; [|reflexivity].
    rewrite (Hstep1 _ eq_refl). cbn [fst snd andb orb].
    cbn [andb] in Hproceed. rewrite <- Hproceed.
    destruct proceed; [|reflexivity].
    rewrite (HfixW eq_refl).
    destruct (add_load_path (VObj fieldsW) (plugin_path (js "hi-light"))).2;
      [apply write_config_again|reflexivity].
  - (* the write was refused *)
    rewrite write_config_refused by congruence.
    rewrite (preflight_result disk1 fields channels config1 dirty1);
      [|congruence|exact Hch|exact Ht|exact Hrm].
    cbv zeta. f_equal. rewrite <- Hwdef.
    destruct wanted eqn:Hwanted.
    + rewrite (Hagain eq_refl). cbn [fst snd andb].
      cbn [andb] in Hproceed. rewrite <- Hproceed.
      rewrite Hdirty. apply write_config_refused. congruence.
    + cbn [andb] in *. rewrite Hproceed in Hdirty.
      cbn [andb] in Hdirty. rewrite Hdirty. apply write_config_refused. congruence.
  - (* nothing to write *)
    rewrite (preflight_result disk1 fields channels config1 dirty1);
      [|congruence|exact Hch|exact Ht|exact Hrm].
    cbv zeta. f_equal. rewrite <- Hwdef.
    destruct wanted eqn:Hwanted.
    + rewrite (Hagain eq_refl). cbn [fst snd andb].
      cbn [andb] in Hproceed. rewrite <- Hproceed.
      now rewrite Hdirty.
    + cbn [andb] in *. rewrite Hproceed in Hdirty.
      cbn [andb] in Hdirty. now rewrite Hdirty.
Qed.


End PreflightRuns.

(** The pre-flight is idempotent: run on the disk that a first run
    left, it ends as the first run did and changes nothing more — no
    further copy, no further change of [openclaw.json]. *)
Theorem preflight_idempotent (homedir : jsstring) (join : list jsstring → jsstring)
  (bundledPluginsDir : jsstring) (disk : Disk) :
  ensureRequiredPlugins homedir join bundledPluginsDir
    (ensureRequiredPlugins homedir join bundledPluginsDir disk).2
  = ensureRequiredPlugins homedir join bundledPluginsDir disk.
Proof.
  assert (Hnothing : ∀ o, ensureRequiredPlugins homedir join bundledPluginsDir disk = (o, disk) →
            ensureRequiredPlugins homedir join bundledPluginsDir
              (ensureRequiredPlugins homedir join bundledPluginsDir disk).2
            = ensureRequiredPlugins homedir join bundledPluginsDir disk).
  { intros o H. now rewrite H. }
  assert (Hcases : config_file disk = Some Unparsable
                   ∨ (∃ c, config_file disk = Some (Parsed c))
                   ∨ config_file disk = None)
    by (destruct (config_file disk) as [[|c]|]; eauto).
  destruct Hcases as [Hfile|[[c Hfile]|Hfile]].
  - apply (Hnothing (Ok tt)). now apply preflight_unparsable.
  - destruct (get_prop c "channels") as [channels|e] eqn:Hch.
    + destruct (truthy channels) eqn:Ht.
      * destruct (channels_is_object c channels Hch Ht) as [fields ->].
        destruct (remove_loadPaths (VObj fields)) as [[config1 dirty1]|e] eqn:Hrm.
        -- now apply (preflight_settled homedir join bundledPluginsDir disk fields channels
                        config1 dirty1).
        -- apply (Hnothing (Throw e)). unfold ensureRequiredPlugins.
           now rewrite Hfile, Hch, Ht, Hrm.
      * apply (Hnothing (Ok tt)). now apply (preflight_no_channels _ _ _ disk c channels).
    + apply (Hnothing (Throw e)). unfold ensureRequiredPlugins. now rewrite Hfile, Hch.
  - apply (Hnothing (Ok tt)). now apply preflight_missing.
Qed.

(** A pre-flight that throws has changed nothing on the disk.  It
    throws exactly when the parsed [openclaw.json] is [null] (or
    [undefined]), or is an object with a truthy [channels] whose
    [plugins] is truthy and no object: [true], a number other than 0 or
    a non-empty string (the [in] operator then throws). *)
Theorem preflight_failure_is_atomic (homedir : jsstring) (join : list jsstring → jsstring)
  (bundledPluginsDir : jsstring) (disk : Disk) :
  (∀ e disk', ensureRequiredPlugins homedir join bundledPluginsDir disk = (Throw e, disk') →
     disk' = disk)
  ∧ ((∃ e disk', ensureRequiredPlugins homedir join bundledPluginsDir disk = (Throw e, disk'))
     ↔ ∃ c, config_file disk = Some (Parsed c)
            ∧ (c = VUndef ∨ c = VNull
               ∨ ∃ fields channels v,
                   c = VObj fields
                   ∧ obj_lookup "channels" fields = Some channels
                   ∧ truthy channels = true
                   ∧ obj_lookup "plugins" fields = Some v
                   ∧ truthy v = true ∧ typeof_object v = false)).
Proof.
  assert (Hcases : config_file disk = Some Unparsable
                   ∨ (∃ c, config_file disk = Some (Parsed c))
                   ∨ config_file disk = None)
    by (destruct (config_file disk) as [[|c]|]; eauto).
  destruct Hcases as [Hfile|[[c Hfile]|Hfile]].
  - rewrite (preflight_unparsable homedir join bundledPluginsDir disk Hfile).
    split; [discriminate|]. split.
    + intros (e & d & H). discriminate.
    + intros (c & Hc & _). congruence.
  - destruct (get_prop c "channels") as [channels|e] eqn:Hch.
    + destruct (truthy channels) eqn:Ht.
      * destruct (channels_is_object c channels Hch Ht) as [fields ->].
        assert (Hchannels : obj_lookup "channels" fields = Some channels).
        { cbn [get_prop] in Hch. destruct (obj_lookup "channels" fields); [|].
          - cbn in Hch. congruence.
          - cbn in Hch. inversion Hch. subst. discriminate. }
        destruct (remove_loadPaths (VObj fields)) as [[config1 dirty1]|e] eqn:Hrm.
        -- rewrite (preflight_result homedir join bundledPluginsDir disk fields channels
                      config1 dirty1 Hfile Hch Ht Hrm).
           cbv zeta. split; [discriminate|]. split.
           ++ intros (e & d & H). discriminate.
           ++ intros (c & Hc & [->|[->|(f & ch & v & -> & _ & _ & Hp & Hv & Hobj)]]);
                try congruence.
              assert (f = fields) as -> by congruence.
              exfalso. unfold remove_loadPaths in Hrm. cbn [get_prop] in Hrm.
              rewrite Hp in Hrm. cbn [default from_option id] in Hrm. rewrite Hv in Hrm.
              destruct v; try discriminate.
        -- assert (Hrun : ensureRequiredPlugins homedir join bundledPluginsDir disk
                          = (Throw e, disk)).
           { unfold ensureRequiredPlugins. now rewrite Hfile, Hch, Ht, Hrm. }
           rewrite Hrun. split; [intros e0 d H; now inversion H|]. split.
           ++ intros _. exists (VObj fields). split; [exact Hfile|]. right. right.
              unfold remove_loadPaths in Hrm. cbn [get_prop] in Hrm.
              destruct (obj_lookup "plugins" fields) as [v|] eqn:Hp; [|discriminate].
              cbn [default from_option id] in Hrm.
              exists fields, channels, v.
              destruct (truthy v) eqn:Hv; [|discriminate].
              destruct v; try discriminate; cbn [has_prop] in Hrm;
                try (case_bool_decide; discriminate); auto 10.
           ++ intros _. eauto.
      * rewrite (preflight_no_channels homedir join bundledPluginsDir disk c channels
                   Hfile Hch Ht).
        split; [discriminate|]. split.
        -- intros (e & d & H). discriminate.
        -- intros (c' & Hc & [->|[->|(f & ch & v & -> & Hl & Htrue & _)]]).
           ++ assert (c = VUndef) as -> by congruence. discriminate.
           ++ assert (c = VNull) as -> by congruence. discriminate.
           ++ assert (c = VObj f) as -> by congruence.
              cbn [get_prop] in Hch. rewrite Hl in Hch. cbn in Hch. congruence.
    + assert (Hrun : ensureRequiredPlugins homedir join bundledPluginsDir disk
                     = (Throw e, disk)).
      { unfold ensureRequiredPlugins. now rewrite Hfile, Hch. }
      rewrite Hrun. split; [intros e0 d H; now inversion H|]. split.
      * intros _. exists c. split; [exact Hfile|].
        destruct c; try discriminate; auto.
      * intros _. eauto.
  - rewrite (preflight_missing homedir join bundledPluginsDir disk Hfile).
    split; [discriminate|]. split.
    + intros (e & d & H). discriminate.
    + intros (c & Hc & _). congruence.
Qed.


(** ** What the pre-flight achieves *)

Lemma obj_set_same (k : jsstring) (v : Value) (fields : list (jsstring * Value)) :
  obj_lookup k fields = Some v → obj_set k v fields = fields.
Proof.
  induction fields as [|[k0 v0] rest IH]; [discriminate|].
  cbn [obj_lookup obj_set]. unfold eqb_str. case_bool_decide as Hk.
  - intros H. inversion H. now subst.
  - intros H. now rewrite IH.
Qed.

Lemma remove_loadPaths_plain (fields : list (jsstring * Value)) :
  plain_plugins fields →
  ∃ fields1 dirty1,
    remove_loadPaths (VObj fields) = Ok (VObj fields1, dirty1)
    ∧ plain_plugins fields1
    ∧ (dirty1 = false → fields1 = fields).
Proof.
  intros [Hnone|(pf & Hp & Hload)]; unfold remove_loadPaths; cbn [get_prop].
  - rewrite Hnone. cbn [default from_option id truthy]. exists fields, false.
    split; [reflexivity|]. split; [now left|reflexivity].
  - rewrite Hp. cbn [default from_option id truthy has_prop]. case_bool_decide as Hl.
    + cbn [set_prop]. eexists. exists true. split; [reflexivity|]. split; [|discriminate].
      right. exists (obj_delete "loadPaths" pf). split; [apply obj_lookup_set_eq|].
      now rewrite obj_lookup_delete_ne by discriminate.
    + exists fields, false. split; [reflexivity|]. split; [|reflexivity].
      right. now exists pf.
Qed.

(* Proves [lists_plugin_path] of a configuration written as nested
   [obj_set]s, one field after the other. *)
Ltac listed_with clean found :=
  eexists _, _, _, _; split; [reflexivity|];
  split; [obj_simpl; reflexivity|];
  split; [obj_simpl; first [reflexivity | clean]|];
  split; [obj_simpl; reflexivity|];
  split; [obj_simpl; reflexivity|];
  obj_simpl; first [reflexivity | found].

Lemma add_load_path_lists (fields : list (jsstring * Value)) (pluginPath : jsstring) :
  plain_plugins fields → clean_fields fields →
  lists_plugin_path (add_load_path (VObj fields) pluginPath).1 pluginPath
  ∧ ((add_load_path (VObj fields) pluginPath).2 = false →
     (add_load_path (VObj fields) pluginPath).1 = VObj fields).
Proof.
  intros Hplain Hclean. pose proof (clean_fields_plugins fields) as Hno.
  specialize (Hno) with (1 := Hclean). clear Hclean.
  unfold add_load_path, lists_plugin_path. cbn [get_prop].
  destruct Hplain as [Hnone|(pf & Hp & [Hnoload|(lf & Hload)])].
  - rewrite Hnone. obj_simpl. cbn [fst snd]. split; [|discriminate].
    listed_with ltac:(reflexivity) ltac:(apply (includes_snoc [])).
  - rewrite Hp. obj_simpl. rewrite Hnoload. obj_simpl. cbn [fst snd]. split; [|discriminate].
    listed_with ltac:(now apply Hno) ltac:(apply (includes_snoc [])).
  - rewrite Hp. obj_simpl. rewrite Hload. obj_simpl.
    specialize (Hno pf Hp).
    destruct (obj_lookup "paths" lf) as [paths|] eqn:Hpaths; cbn [default from_option id].
    + destruct paths as [| |b|n|s|items|o|e]; obj_simpl; cbn [fst snd];
        try (split; [|discriminate];
             listed_with ltac:(exact Hno) ltac:(apply (includes_snoc []))).
      destruct (includes items pluginPath) eqn:Hinc; cbn [fst snd].
      * split.
        -- listed_with ltac:(exact Hno) ltac:(exact Hinc).
        -- intros _. rewrite (obj_set_same "paths" _ lf Hpaths).
           rewrite (obj_set_same "load" _ pf Hload).
           now rewrite (obj_set_same "plugins" _ fields Hp).
      * split; [|discriminate].
        listed_with ltac:(exact Hno) ltac:(apply includes_snoc).
    + obj_simpl. cbn [fst snd]. split; [|discriminate].
      listed_with ltac:(exact Hno) ltac:(apply (includes_snoc [])).
Qed.

Section PreflightInstalls.
Variable homedir : jsstring.
Variable join : list jsstring → jsstring.
Variable bundledPluginsDir : jsstring.

Abbreviation step := (install_step bundledPluginsDir join).
Abbreviation with_config file disk :=
  (mkDisk file (extensions disk) (bundled disk) (extensions_writable disk)
          (config_writable disk)).

(** Step 1 goes through, and leaves the plugin installed, when the
    plugin is installed already or can be copied from a bundle that has
    a [package.json]. *)
Lemma install_step_installs (pluginId : jsstring) (disk : Disk) :
  isPluginInstalled pluginId disk = true
  ∨ (∃ files, bundled disk !! bundled_name pluginId = Some files
              ∧ is_Some (files !! js "package.json")
              ∧ extensions_writable disk = true) →
  (step pluginId disk).1 = true ∧ isPluginInstalled pluginId (step pluginId disk).2 = true.
Proof.
  intros Hcan.
  assert (Hcopy : ∀ files,
            bundled disk !! bundled_name pluginId = Some files →
            extensions_writable disk = true →
            isPluginInstalled pluginId disk = true ∨ is_Some (files !! js "package.json") →
            isPluginInstalled pluginId
              (installBundledPlugin join bundledPluginsDir pluginId disk).2 = true
            ∧ install_success (installBundledPlugin join bundledPluginsDir pluginId disk).1
              = true).
  { intros files Hb Hw Hpkg. unfold installBundledPlugin. rewrite Hb, Hw. cbn [fst snd].
    split; [|reflexivity].
    unfold isPluginInstalled, installed_dir in *. cbn [extensions default from_option id].
    rewrite lookup_insert_eq. apply bool_decide_eq_true_2.
    destruct Hpkg as [Hinst|[content Hpkg]].
    - destruct (default ∅ (extensions disk) !! pluginId) as [dir|]; [|discriminate].
      apply bool_decide_eq_true_1 in Hinst. destruct Hinst as [content Hc].
      cbn [default from_option id].
      destruct (files !! js "package.json") as [content'|] eqn:Hf.
      + exists content'. now apply lookup_union_Some_l.
      + exists content. now rewrite lookup_union_r.
    - exists content. now apply lookup_union_Some_l. }
  unfold install_step. destruct (isPluginInstalled pluginId disk) eqn:Hinst; cbn [negb].
  - destruct (isBundledNewer pluginId disk); [|now split].
    cbn [fst snd]. split; [reflexivity|].
    destruct (install_cases join bundledPluginsDir pluginId disk)
      as [[_ Hsame]|(files & Hb & Hw & _)].
    + now rewrite Hsame.
    + apply (Hcopy files Hb Hw). now left.
  - destruct Hcan as [Hcan|(files & Hb & Hpkg & Hw)]; [discriminate|].
    destruct (Hcopy files Hb Hw (or_intror Hpkg)) as [H1 H2].
    destruct (installBundledPlugin join bundledPluginsDir pluginId disk) as [r d].
    now split.
Qed.

End PreflightInstalls.

(** What the pre-flight achieves.  When [openclaw.json] is an
    object that configures the [hi-light] channel, [plugins] is missing
    or a plain object (and so is its [load]), the config file can be
    written, and the plugin is installed already or can be copied from a
    bundle that has a [package.json]: the pre-flight returns, the plugin
    is installed, and the config on disk lists the plugin directory in
    [plugins.load.paths] and has no [plugins.loadPaths]. *)
Theorem preflight_makes_plugin_available (homedir : jsstring)
  (join : list jsstring → jsstring) (bundledPluginsDir : jsstring) (disk : Disk)
  (fields : list (jsstring * Value)) (channels wanted : Value) :
  config_file disk = Some (Parsed (VObj fields)) →
  obj_lookup "channels" fields = Some channels →
  get_prop channels "hi-light" = Ok wanted →
  truthy wanted = true →
  plain_plugins fields →
  config_writable disk = true →
  isPluginInstalled "hi-light" disk = true
  ∨ (∃ files, bundled disk !! js "hi-light" = Some files
              ∧ is_Some (files !! js "package.json")
              ∧ extensions_writable disk = true) →
  ∃ after config,
    ensureRequiredPlugins homedir join bundledPluginsDir disk = (Ok tt, after)
    ∧ isPluginInstalled "hi-light" after = true
    ∧ config_file after = Some (Parsed config)
    ∧ lists_plugin_path config (join [getExtensionsDir homedir join; js "hi-light"]).
Proof.
  intros Hfile Hchannels Hwanted Htruthy Hplain Hcw Hcan.
  assert (Hch : get_prop (VObj fields) "channels" = Ok channels).
  { cbn [get_prop]. now rewrite Hchannels. }
  assert (Ht : truthy channels = true).
  { destruct channels; try reflexivity; cbn in Hwanted; inversion Hwanted; subst;
      discriminate. }
  destruct (remove_loadPaths_plain fields Hplain) as (fields1 & dirty1 & Hrm & Hplain1 & Hsame1).
  destruct (remove_loadPaths_settled fields (VObj fields1) dirty1 Hrm)
    as (fields1' & Hc1 & _ & Hclean1).
  inversion Hc1. subst fields1'. clear Hc1.
  destruct (add_load_path_lists fields1 (join [getExtensionsDir homedir join; js "hi-light"])
              Hplain1 Hclean1) as [Hlists Hsame2].
  destruct (install_step_installs join bundledPluginsDir "hi-light" disk Hcan)
    as [Hproceed Hinstalled].
  destruct (install_step_keeps join bundledPluginsDir "hi-light" disk) as (Hf1 & Hw1 & _).
  rewrite (preflight_result homedir join bundledPluginsDir disk fields channels
             (VObj fields1) dirty1 Hfile Hch Ht Hrm).
  cbv zeta. rewrite Hwanted, Htruthy, Hproceed. cbn [andb].
  destruct (dirty1 || _) eqn:Hdirty.
  - rewrite write_config_written by congruence.
    eexists _, _. split; [reflexivity|]. split; [exact Hinstalled|]. split; [reflexivity|].
    exact Hlists.
  - apply orb_false_elim in Hdirty as [Hd1 Hd2].
    eexists _, _. split; [reflexivity|]. split; [exact Hinstalled|].
    split; [rewrite Hf1; exact Hfile|].
    rewrite <- (Hsame1 Hd1), <- (Hsame2 Hd2). exact Hlists.
Qed.

Lemma preflight_makes_plugin_available_witness :
  let config := VObj [(js "channels", VObj [(js "hi-light", VObj [])]);
                      (js "plugins", VObj [(js "loadPaths", VArr [])])] in
  let disk := fresh_disk (Some (Parsed config)) in
  ∃ after config',
    ensureRequiredPlugins "/home/u" slash_join "/opt/ClawX/resources/plugins" disk
    = (Ok tt, after)
    ∧ isPluginInstalled "hi-light" after = true
    ∧ config_file after = Some (Parsed config')
    ∧ lists_plugin_path config' (js "/home/u/.openclaw/extensions/hi-light").
Proof.
  intros config disk.
  apply (preflight_makes_plugin_available "/home/u" slash_join "/opt/ClawX/resources/plugins"
           disk [(js "channels", VObj [(js "hi-light", VObj [])]);
                 (js "plugins", VObj [(js "loadPaths", VArr [])])]
           (VObj [(js "hi-light", VObj [])]) (VObj [])).
  - reflexivity.
  - reflexivity.
  - reflexivity.
  - reflexivity.
  - right. eexists. split; [reflexivity|]. left. reflexivity.
  - reflexivity.
  - right. eexists. split; [reflexivity|]. split; [|reflexivity]. eexists. reflexivity.
Defined.

(** ** The vendor validators *)

Lemma parseApiError_truthy (data : Value) : truthy (parseApiError data) = true.
Proof.
  unfold parseApiError.
  destruct (negb (truthy data) || negb (typeof_object data)); [reflexivity|].
  destruct (truthy (opt_get (opt_get data "error") "message")) eqn:H1; [exact H1|].
  destruct (truthy (opt_get data "message")) eqn:H2; [exact H2|reflexivity].
Qed.

(** The fallback [|| `API error: ...`] is never taken. *)
Lemma parseApiError_or (data other : Value) :
  or_value (parseApiError data) other = parseApiError data.
Proof. unfold or_value. now rewrite parseApiError_truthy. Qed.

Lemma strict_eq_str (v : Value) (s : jsstring) :
  strict_eq v (VStr s) = true ↔ v = VStr s.
Proof.
  destruct v; cbn [strict_eq]; try (split; [discriminate|intros H; discriminate]).
  unfold eqb_str. rewrite bool_decide_eq_true. split; congruence.
Qed.

Section VendorProperties.
Context {W : Type}.
Variable fetch : Request → M W Response.
Variable toLowerCase : jsstring → jsstring.

Abbreviation anthropic := (validateAnthropicKey fetch).
Abbreviation openai := (validateOpenAIKey fetch).
Abbreviation google := (validateGoogleKey fetch toLowerCase).
Abbreviation openrouter := (validateOpenRouterKey fetch toLowerCase).

Ltac split_ifs :=
  repeat match goal with
         | |- context [if ?c then _ else _] => destruct c
         | |- context [match ?c with Ok _ => _ | Throw _ => _ end] => destruct c
         end.

(** A validator catches what it throws, and a failed [fetch] is
    reported as a connection error. *)
Lemma vendor_catches (vendor : jsstring * (jsstring → Request) * (jsstring → M W Verdict))
  (apiKey : jsstring) (w : W) :
  vendor ∈ vendors fetch toLowerCase →
  (∃ verdict, vendor.2 apiKey w = (Ok verdict, (fetch (vendor.1.2 apiKey) w).2))
  ∧ (∀ e w', fetch (vendor.1.2 apiKey) w = (Throw e, w') →
       vendor.2 apiKey w = (Ok (connection_error e), w')).
Proof.
  intros Hin. unfold vendors in Hin.
  repeat (apply elem_of_cons in Hin as [->|Hin]); [| | | |now apply elem_of_nil in Hin];
    cbn [fst snd].
  - unfold validateAnthropicKey, try_catch, bind, ret.
    destruct (fetch (anthropic_request apiKey) w) as [[response|e] w1]; cbn [snd].
    + split; [|discriminate]. split_ifs; eauto.
    + split; [eauto|]. intros e0 w' H. now inversion H.
  - unfold validateOpenAIKey, try_catch, bind, ret.
    destruct (fetch (openai_request apiKey) w) as [[response|e] w1]; cbn [snd].
    + split; [|discriminate]. split_ifs; eauto.
    + split; [eauto|]. intros e0 w' H. now inversion H.
  - unfold validateGoogleKey, try_catch, bind, ret, lift.
    destruct (fetch (google_request apiKey) w) as [[response|e] w1]; cbn [snd].
    + split; [|discriminate]. split_ifs; eauto.
    + split; [eauto|]. intros e0 w' H. now inversion H.
  - unfold validateOpenRouterKey, try_catch, bind, ret, lift.
    destruct (fetch (openrouter_request apiKey) w) as [[response|e] w1]; cbn [snd].
    + split; [|discriminate]. split_ifs; eauto.
    + split; [eauto|]. intros e0 w' H. now inversion H.
Qed.

(** What a validator answers once [fetch] has answered. *)
Lemma anthropic_answer (apiKey : jsstring) (w w' : W) (response : Response) :
  fetch (anthropic_request apiKey) w = (Ok response, w') →
  anthropic apiKey w
  = (Ok (let data := response_data response in
         let status := res_status response in
         if response_ok response then accepted
         else if (status =? 401)%Z then rejected (VStr "Invalid API key")
         else if (status =? 403)%Z then rejected (parseApiError data)
         else if (status =? 429)%Z || (status =? 529)%Z then accepted
         else if (status =? 400)%Z || (status =? 404)%Z then
           if strict_eq (opt_get (opt_get data "error") "type") (VStr "authentication_error")
              || strict_eq (opt_get (opt_get data "error") "type") (VStr "invalid_api_key")
           then rejected (VStr "Invalid API key")
           else accepted
         else rejected (parseApiError data)), w').
Proof.
  intros Hfetch. unfold validateAnthropicKey, try_catch, bind, ret. rewrite Hfetch.
  cbv zeta. rewrite parseApiError_or. split_ifs; reflexivity.
Qed.

Lemma openai_answer (apiKey : jsstring) (w w' : W) (response : Response) :
  fetch (openai_request apiKey) w = (Ok response, w') →
  openai apiKey w
  = (Ok (let data := response_data response in
         let status := res_status response in
         if response_ok response then accepted
         else if (status =? 401)%Z then rejected (VStr "Invalid API key")
         else if (status =? 429)%Z then accepted
         else if (status =? 400)%Z || (status =? 404)%Z then
           if strict_eq (opt_get (opt_get data "error") "code") (VStr "invalid_api_key")
           then rejected (VStr "Invalid API key")
           else accepted
         else rejected (parseApiError data)), w').
Proof.
  intros Hfetch. unfold validateOpenAIKey, try_catch, bind, ret. rewrite Hfetch.
  cbv zeta. rewrite parseApiError_or. split_ifs; reflexivity.
Qed.

End VendorProperties.

Lemma strict_eq_str_false (v : Value) (s : jsstring) :
  strict_eq v (VStr s) = false ↔ v ≠ VStr s.
Proof.
  rewrite <- strict_eq_str. destruct (strict_eq v (VStr s)); split; congruence.
Qed.

(** No vendor validator throws, and none touches the world
    beyond its one call of [fetch]; when [fetch] itself fails, the
    verdict is [Connection error: <message>]. *)
Theorem validators_never_throw {W : Type} (fetch : Request → M W Response)
  (toLowerCase : jsstring → jsstring)
  (vendor : jsstring * (jsstring → Request) * (jsstring → M W Verdict))
  (apiKey : jsstring) (w : W) :
  vendor ∈ vendors fetch toLowerCase →
  (∃ verdict, vendor.2 apiKey w = (Ok verdict, (fetch (vendor.1.2 apiKey) w).2))
  ∧ (∀ e w', fetch (vendor.1.2 apiKey) w = (Throw e, w') →
       vendor.2 apiKey w = (Ok (connection_error e), w')).
Proof. apply vendor_catches. Qed.

Lemma validators_never_throw_witness :
  validateGoogleKey (recording_fetch (fun _ => Throw (TypeError "fetch failed"))) ascii_lower
    "AIza-1" []
  = (Ok (rejected (VStr "Connection error: fetch failed")), [google_request "AIza-1"]).
Proof.
  set (net := recording_fetch (fun _ => Throw (TypeError "fetch failed"))).
  assert (Hin : (js "google", google_request, validateGoogleKey net ascii_lower)
                ∈ vendors net ascii_lower).
  { unfold vendors. apply elem_of_cons. right. apply elem_of_cons. right.
    apply elem_of_cons. left. reflexivity. }
  exact (proj2 (validators_never_throw net ascii_lower _ "AIza-1" [] Hin) _ _ eq_refl).
Defined.

(** Every validator takes an answer with a 2xx status as a valid
    key, whatever the body holds; the validators for Anthropic, OpenAI
    and Google take a rate-limit answer (429) as a valid key too. *)
Theorem success_and_rate_limit_accept {W : Type} (fetch : Request → M W Response)
  (toLowerCase : jsstring → jsstring)
  (vendor : jsstring * (jsstring → Request) * (jsstring → M W Verdict))
  (apiKey : jsstring) (w w' : W) (response : Response) :
  vendor ∈ vendors fetch toLowerCase →
  fetch (vendor.1.2 apiKey) w = (Ok response, w') →
  response_ok response = true
  ∨ (res_status response = 429%Z ∧ vendor.1.1 ≠ js "openrouter") →
  vendor.2 apiKey w = (Ok accepted, w').
Proof.
  intros Hin Hfetch Hstatus. unfold vendors in Hin.
  repeat (apply elem_of_cons in Hin as [->|Hin]); [| | | |now apply elem_of_nil in Hin];
    cbn [fst snd] in *.
  - rewrite (anthropic_answer fetch apiKey w w' response Hfetch). cbv zeta.
    destruct Hstatus as [->|[-> _]]; [reflexivity|]. now destruct (response_ok _).
  - rewrite (openai_answer fetch apiKey w w' response Hfetch). cbv zeta.
    destruct Hstatus as [->|[-> _]]; [reflexivity|]. now destruct (response_ok _).
  - unfold validateGoogleKey, try_catch, bind, ret. rewrite Hfetch.
    destruct Hstatus as [->|[-> _]]; [reflexivity|]. now destruct (response_ok _).
  - unfold validateOpenRouterKey, try_catch, bind, ret. rewrite Hfetch.
    destruct Hstatus as [->|[_ Hne]]; [reflexivity|]. now contradiction Hne.
Qed.

Lemma success_and_rate_limit_accept_witness :
  validateOpenAIKey (recording_fetch (fun _ => Ok (mkResponse 429 (Throw (TypeError "no JSON")))))
    "sk-1" []
  = (Ok accepted, [openai_request "sk-1"]).
Proof.
  set (net := recording_fetch (fun _ => Ok (mkResponse 429 (Throw (TypeError "no JSON"))))).
  apply (success_and_rate_limit_accept net ascii_lower
           (js "openai", openai_request, validateOpenAIKey net)
           "sk-1" [] _ (mkResponse 429 (Throw (TypeError "no JSON")))).
  - unfold vendors. apply elem_of_cons. right. apply elem_of_cons. left. reflexivity.
  - reflexivity.
  - right. split; [reflexivity|discriminate].
Defined.

(** Which answers make a key valid.  For Anthropic: a 2xx status,
    429, 529, or 400 or 404 with an [error.type] other than
    [authentication_error] and [invalid_api_key].  For OpenAI: a 2xx
    status, 429, or 400 or 404 with an [error.code] other than
    [invalid_api_key].  Every other answer makes the key invalid. *)
Theorem anthropic_openai_validity {W : Type} (fetch : Request → M W Response)
  (apiKey : jsstring) (w w' : W) (response : Response) :
  let status := res_status response in
  let error := opt_get (response_data response) "error" in
  (fetch (anthropic_request apiKey) w = (Ok response, w') →
   ∃ verdict,
     validateAnthropicKey fetch apiKey w = (Ok verdict, w')
     ∧ (verdict_valid verdict = true
        ↔ (200 ≤ status ≤ 299)%Z ∨ status = 429%Z ∨ status = 529%Z
          ∨ ((status = 400%Z ∨ status = 404%Z)
             ∧ opt_get error "type" ≠ VStr "authentication_error"
             ∧ opt_get error "type" ≠ VStr "invalid_api_key")))
  ∧ (fetch (openai_request apiKey) w = (Ok response, w') →
     ∃ verdict,
       validateOpenAIKey fetch apiKey w = (Ok verdict, w')
       ∧ (verdict_valid verdict = true
          ↔ (200 ≤ status ≤ 299)%Z ∨ status = 429%Z
            ∨ ((status = 400%Z ∨ status = 404%Z)
               ∧ opt_get error "code" ≠ VStr "invalid_api_key"))).
Proof.
  intros status error. split; intros Hfetch.
  - rewrite (anthropic_answer fetch apiKey w w' response Hfetch).
    eexists. split; [reflexivity|]. cbv zeta. fold status. fold error.
    unfold response_ok. fold status.
    destruct (Z.leb_spec 200 status), (Z.leb_spec status 299); cbn [andb];
      try (split; [intros _; lia|reflexivity]).
    all: repeat match goal with
                | |- context [(?a =? ?b)%Z] =>
                    destruct (Z.eqb_spec a b); cbn [orb andb]
                end.
    all: try (destruct (strict_eq (opt_get error "type") (VStr "authentication_error")) eqn:H1;
              [apply strict_eq_str in H1|apply strict_eq_str_false in H1];
              (destruct (strict_eq (opt_get error "type") (VStr "invalid_api_key")) eqn:H2;
               [apply strict_eq_str in H2|apply strict_eq_str_false in H2]);
              cbn [orb]).
    all: cbn [verdict_valid rejected accepted].
    all: split; intros Hv; try reflexivity; try discriminate;
      intuition (congruence || lia).
  - rewrite (openai_answer fetch apiKey w w' response Hfetch).
    eexists. split; [reflexivity|]. cbv zeta. fold status. fold error.
    unfold response_ok. fold status.
    destruct (Z.leb_spec 200 status), (Z.leb_spec status 299); cbn [andb];
      try (split; [intros _; lia|reflexivity]).
    all: repeat match goal with
                | |- context [(?a =? ?b)%Z] =>
                    destruct (Z.eqb_spec a b); cbn [orb andb]
                end.
    all: try (destruct (strict_eq (opt_get error "code") (VStr "invalid_api_key")) eqn:H1;
              [apply strict_eq_str in H1|apply strict_eq_str_false in H1]).
    all: cbn [verdict_valid rejected accepted].
    all: split; intros Hv; try reflexivity; try discriminate;
      intuition (congruence || lia).
Qed.

(** An answer that is no success and has none of the statuses a
    validator knows (a vendor outage with 500 or 503, say) makes the key
    invalid, for Anthropic, OpenAI and Google alike.  The error is what
    [parseApiError] finds in the body, which is never empty: the text
    [API error: <status>] is never produced, and a body that is not JSON
    gives [Unknown error]. *)
Theorem outage_reported_as_invalid_key {W : Type} (fetch : Request → M W Response)
  (toLowerCase : jsstring → jsstring) (apiKey : jsstring) (w w' : W) (response : Response) :
  response_ok response = false →
  let status := res_status response in
  let data := response_data response in
  (fetch (anthropic_request apiKey) w = (Ok response, w') →
   ¬ In status [400; 401; 403; 404; 429; 529]%Z →
   validateAnthropicKey fetch apiKey w = (Ok (rejected (parseApiError data)), w'))
  ∧ (fetch (openai_request apiKey) w = (Ok response, w') →
     ¬ In status [400; 401; 404; 429]%Z →
     validateOpenAIKey fetch apiKey w = (Ok (rejected (parseApiError data)), w'))
  ∧ (fetch (google_request apiKey) w = (Ok response, w') →
     ¬ In status [400; 401; 403; 429]%Z →
     validateGoogleKey fetch toLowerCase apiKey w
     = (Ok (rejected (parseApiError data)), w'))
  ∧ truthy (parseApiError data) = true
  ∧ (∀ e, res_json response = Throw e → parseApiError data = VStr "Unknown error").
Proof.
  intros Hok status data. split; [|split; [|split; [|split]]].
  - intros Hfetch Hstatus. rewrite (anthropic_answer fetch apiKey w w' response Hfetch).
    cbv zeta. fold status. fold data. rewrite Hok. cbn [In] in Hstatus.
    repeat match goal with
           | |- context [(?a =? ?b)%Z] => destruct (Z.eqb_spec a b); cbn [orb andb]
           end; try reflexivity; exfalso; lia.
  - intros Hfetch Hstatus. rewrite (openai_answer fetch apiKey w w' response Hfetch).
    cbv zeta. fold status. fold data. rewrite Hok. cbn [In] in Hstatus.
    repeat match goal with
           | |- context [(?a =? ?b)%Z] => destruct (Z.eqb_spec a b); cbn [orb andb]
           end; try reflexivity; exfalso; lia.
  - intros Hfetch Hstatus. unfold validateGoogleKey, try_catch, bind, ret. rewrite Hfetch.
    cbv zeta. fold status. fold data. rewrite Hok, parseApiError_or. cbn [In] in Hstatus.
    repeat match goal with
           | |- context [(?a =? ?b)%Z] => destruct (Z.eqb_spec a b); cbn [orb andb]
           end; try reflexivity; exfalso; lia.
  - apply parseApiError_truthy.
  - intros e He. unfold data, response_data. now rewrite He.
Qed.

Lemma outage_reported_as_invalid_key_witness :
  let response := mkResponse 503 (Throw (mkError "SyntaxError" "Unexpected token <")) in
  validateAnthropicKey (recording_fetch (fun _ => Ok response)) "sk-ant-1" []
  = (Ok (rejected (VStr "Unknown error")), [anthropic_request "sk-ant-1"]).
Proof.
  intros response.
  apply (proj1 (outage_reported_as_invalid_key (recording_fetch (fun _ => Ok response))
                  ascii_lower "sk-ant-1" [] _ response eq_refl)).
  - reflexivity.
  - cbn. lia.
Defined.

(** For Google a status 400, 401 or 403 does not settle the
    matter: the key is invalid when [error.status] is [UNAUTHENTICATED]
    or [PERMISSION_DENIED]; otherwise a body whose message, in lower
    case, mentions none of [api key], [invalid] and [unauthorized] makes
    the key valid. *)
Theorem google_denial_is_judged_by_body {W : Type} (fetch : Request → M W Response)
  (toLowerCase : jsstring → jsstring) (apiKey : jsstring) (w w' : W) (response : Response)
  (message : jsstring) :
  fetch (google_request apiKey) w = (Ok response, w') →
  In (res_status response) [400; 401; 403]%Z →
  let data := response_data response in
  let errorStatus := opt_get (opt_get data "error") "status" in
  parseApiError data = VStr message →
  validateGoogleKey fetch toLowerCase apiKey w
  = (Ok (if strict_eq errorStatus (VStr "UNAUTHENTICATED")
            || strict_eq errorStatus (VStr "PERMISSION_DENIED")
         then rejected (VStr "Invalid API key")
         else if string_includes "api key" (toLowerCase message)
                 || string_includes "invalid" (toLowerCase message)
                 || string_includes "unauthorized" (toLowerCase message)
         then rejected (VStr message)
         else accepted), w').
Proof.
  intros Hfetch Hstatus data errorStatus Hmessage.
  unfold validateGoogleKey, try_catch, bind, ret, lift. rewrite Hfetch.
  cbv zeta. fold data. fold errorStatus. rewrite Hmessage. cbn [to_lower_case].
  assert (Hok : response_ok response = false).
  { unfold response_ok. cbn [In] in Hstatus.
    destruct Hstatus as [<-|[<-|[<-|[]]]]; reflexivity. }
  rewrite Hok.
  assert (Hbranch : (res_status response =? 400)%Z || (res_status response =? 401)%Z
                    || (res_status response =? 403)%Z = true).
  { cbn [In] in Hstatus. destruct Hstatus as [<-|[<-|[<-|[]]]]; reflexivity. }
  rewrite Hbranch.
  destruct (strict_eq errorStatus (VStr "UNAUTHENTICATED")
            || strict_eq errorStatus (VStr "PERMISSION_DENIED")); [reflexivity|].
  destruct (string_includes "api key" (toLowerCase message)
            || string_includes "invalid" (toLowerCase message)
            || string_includes "unauthorized" (toLowerCase message)); reflexivity.
Qed.

(** A 401 from Google whose body is not JSON: the key counts as valid. *)
Lemma google_denial_is_judged_by_body_witness :
  let response := mkResponse 401 (Throw (mkError "SyntaxError" "Unexpected end of JSON input")) in
  validateGoogleKey (recording_fetch (fun _ => Ok response)) ascii_lower "AIza-1" []
  = (Ok accepted, [google_request "AIza-1"]).
Proof.
  intros response.
  refine (eq_trans (google_denial_is_judged_by_body (recording_fetch (fun _ => Ok response))
                      ascii_lower "AIza-1" [] _ response "Unknown error" eq_refl _ eq_refl) _).
  - cbn. auto.
  - vm_compute. reflexivity.
Defined.

Section OpenRouterProperties.
Variable toLowerCase : jsstring → jsstring.

(** An [error.code] of 401 or 403, as a number or as a string, marks an
    auth error, whatever the message and the type say. *)
Lemma isAuthError_code (data : Value) :
  let error := opt_get data "error" in
  truthy error = true →
  In (opt_get error "code") [VNum 401; VStr "401"; VNum 403; VStr "403"] →
  (truthy (opt_get error "message") = true → ∃ s, opt_get error "message" = VStr s) →
  (truthy (opt_get error "type") = true → ∃ s, opt_get error "type" = VStr s) →
  isAuthError toLowerCase data = Ok true.
Proof.
  intros error Herror Hcode Hmessage Htype. unfold isAuthError. fold error.
  rewrite Herror. cbn [negb]. unfold or_value.
  destruct (truthy (opt_get error "message")) eqn:Hm.
  - destruct (Hmessage eq_refl) as [m ->]. cbn [to_lower_case].
    destruct (truthy (opt_get error "type")) eqn:Hty.
    + destruct (Htype eq_refl) as [t ->]. cbn [to_lower_case].
      cbn [In] in Hcode. destruct Hcode as [<-|[<-|[<-|[<-|[]]]]]; reflexivity.
    + cbn [to_lower_case].
      cbn [In] in Hcode. destruct Hcode as [<-|[<-|[<-|[<-|[]]]]]; reflexivity.
  - cbn [to_lower_case].
    destruct (truthy (opt_get error "type")) eqn:Hty.
    + destruct (Htype eq_refl) as [t ->]. cbn [to_lower_case].
      cbn [In] in Hcode. destruct Hcode as [<-|[<-|[<-|[<-|[]]]]]; reflexivity.
    + cbn [to_lower_case].
      cbn [In] in Hcode. destruct Hcode as [<-|[<-|[<-|[<-|[]]]]]; reflexivity.
Qed.

End OpenRouterProperties.

(** The OpenRouter validator reads the body before the status.
    When the answer is no success and its body carries an auth error —
    [error.code] 401 or 403 for one — the key is invalid whatever the
    status, also for 429 and 402; when the body carries none, 429 and
    402 make the key valid and 401 and 403 make it invalid. *)
Theorem openrouter_body_before_status {W : Type} (fetch : Request → M W Response)
  (toLowerCase : jsstring → jsstring) (apiKey : jsstring) (w w' : W) (response : Response) :
  fetch (openrouter_request apiKey) w = (Ok response, w') →
  response_ok response = false →
  let data := response_data response in
  let error := opt_get data "error" in
  (isAuthError toLowerCase data = Ok true →
   validateOpenRouterKey fetch toLowerCase apiKey w
   = (Ok (rejected (VStr "Invalid API key")), w'))
  ∧ (truthy error = true →
     In (opt_get error "code") [VNum 401; VStr "401"; VNum 403; VStr "403"] →
     (truthy (opt_get error "message") = true → ∃ s, opt_get error "message" = VStr s) →
     (truthy (opt_get error "type") = true → ∃ s, opt_get error "type" = VStr s) →
     isAuthError toLowerCase data = Ok true)
  ∧ (isAuthError toLowerCase data = Ok false →
     (In (res_status response) [429; 402]%Z →
      validateOpenRouterKey fetch toLowerCase apiKey w = (Ok accepted, w'))
     ∧ (In (res_status response) [401; 403]%Z →
        validateOpenRouterKey fetch toLowerCase apiKey w
        = (Ok (rejected (VStr "Invalid API key")), w'))).
Proof.
  intros Hfetch Hok data error. split; [|split].
  - intros Hauth. unfold validateOpenRouterKey, try_catch, bind, ret, lift.
    rewrite Hfetch. cbv zeta. fold data. now rewrite Hok, Hauth.
  - apply isAuthError_code.
  - intros Hauth. split; intros Hstatus; cbn [In] in Hstatus;
      unfold validateOpenRouterKey, try_catch, bind, ret, lift;
      rewrite Hfetch; cbv zeta; fold data; rewrite Hok, Hauth.
    + destruct Hstatus as [<-|[<-|[]]]; reflexivity.
    + destruct Hstatus as [<-|[<-|[]]]; reflexivity.
Qed.

(** A rate-limit answer whose body says [code: 401]. *)
Lemma openrouter_body_before_status_witness :
  let body := VObj [(js "error", VObj [(js "code", VNum 401);
                                       (js "message", VStr "User not found.")])] in
  let response := mkResponse 429 (Ok body) in
  validateOpenRouterKey (recording_fetch (fun _ => Ok response)) ascii_lower "sk-or-1" []
  = (Ok (rejected (VStr "Invalid API key")), [openrouter_request "sk-or-1"]).
Proof.
  intros body response.
  destruct (openrouter_body_before_status (recording_fetch (fun _ => Ok response)) ascii_lower
              "sk-or-1" [] _ response eq_refl eq_refl) as (Hreject & Hcode & _).
  apply Hreject, Hcode.
  - reflexivity.
  - left. reflexivity.
  - intros _. eexists. reflexivity.
  - discriminate.
Defined.

(** [validateApiKey] is [validateApiKeyWithProvider] on the four vendor
    validators: whenever these answer as validators with string errors
    do, the two agree. *)
Lemma validateApiKey_dispatch {W : Type} (fetch : Request → M W Response)
  (toLowerCase : jsstring → jsstring)
  (vA vO vG vR : jsstring → M W Validation) :
  (∀ k w, validateAnthropicKey fetch k w = verdict_run (vA k w)) →
  (∀ k w, validateOpenAIKey fetch k w = verdict_run (vO k w)) →
  (∀ k w, validateGoogleKey fetch toLowerCase k w = verdict_run (vG k w)) →
  (∀ k w, validateOpenRouterKey fetch toLowerCase k w = verdict_run (vR k w)) →
  ∀ providerType apiKey w,
    validateApiKey fetch toLowerCase providerType apiKey w
    = verdict_run (validateApiKeyWithProvider vA vO vG vR providerType apiKey w).
Proof.
  intros HA HO HG HR providerType apiKey w.
  unfold validateApiKey, validateApiKeyWithProvider.
  destruct (negb (truthy (VStr (trim apiKey)))); [reflexivity|].
  unfold try_catch.
  destruct (eqb_str providerType "anthropic").
  { rewrite HA. unfold verdict_run. now destruct (vA (trim apiKey) w) as [[v|e] w']. }
  destruct (eqb_str providerType "openai").
  { rewrite HO. unfold verdict_run. now destruct (vO (trim apiKey) w) as [[v|e] w']. }
  destruct (eqb_str providerType "google").
  { rewrite HG. unfold verdict_run. now destruct (vG (trim apiKey) w) as [[v|e] w']. }
  destruct (eqb_str providerType "openrouter").
  { rewrite HR. unfold verdict_run. now destruct (vR (trim apiKey) w) as [[v|e] w']. }
  now destruct (eqb_str providerType "ollama").
Qed.

Lemma vendor_request_elem {W : Type} (fetch : Request → M W Response)
  (toLowerCase : jsstring → jsstring) (providerType : jsstring)
  (request : jsstring → Request) :
  vendor_request providerType = Some request →
  ∃ validate, (providerType, request, validate) ∈ vendors fetch toLowerCase
              ∧ ∀ apiKey w,
                  truthy (VStr (trim apiKey)) = true →
                  validateApiKey fetch toLowerCase providerType apiKey w
                  = validate (trim apiKey) w.
Proof.
  unfold vendor_request, vendors, validateApiKey, eqb_str.
  repeat case_bool_decide; intros Hreq; inversion Hreq; subst.
  - eexists. split; [apply elem_of_cons; left; reflexivity|].
    intros apiKey w Ht. rewrite Ht. cbn [negb]. unfold try_catch.
    destruct (vendor_catches fetch toLowerCase _ (trim apiKey) w
                ltac:(apply elem_of_cons; left; reflexivity)) as [[v Hv] _].
    cbn [fst snd] in Hv. now rewrite Hv.
  - eexists. split; [do 1 (apply elem_of_cons; right); apply elem_of_cons; left; reflexivity|].
    intros apiKey w Ht. rewrite Ht. cbn [negb]. unfold try_catch.
    destruct (vendor_catches fetch toLowerCase _ (trim apiKey) w
                ltac:(do 1 (apply elem_of_cons; right); apply elem_of_cons; left; reflexivity))
      as [[v Hv] _].
    cbn [fst snd] in Hv. now rewrite Hv.
  - eexists. split; [do 2 (apply elem_of_cons; right); apply elem_of_cons; left; reflexivity|].
    intros apiKey w Ht. rewrite Ht. cbn [negb]. unfold try_catch.
    destruct (vendor_catches fetch toLowerCase _ (trim apiKey) w
                ltac:(do 2 (apply elem_of_cons; right); apply elem_of_cons; left; reflexivity))
      as [[v Hv] _].
    cbn [fst snd] in Hv. now rewrite Hv.
  - eexists. split; [do 3 (apply elem_of_cons; right); apply elem_of_cons; left; reflexivity|].
    intros apiKey w Ht. rewrite Ht. cbn [negb]. unfold try_catch.
    destruct (vendor_catches fetch toLowerCase _ (trim apiKey) w
                ltac:(do 3 (apply elem_of_cons; right); apply elem_of_cons; left; reflexivity))
      as [[v Hv] _].
    cbn [fst snd] in Hv. now rewrite Hv.
Qed.

Lemma no_vendor_request {W : Type} (fetch : Request → M W Response)
  (toLowerCase : jsstring → jsstring) (providerType apiKey : jsstring) (w : W) :
  vendor_request providerType = None →
  truthy (VStr (trim apiKey)) = true →
  validateApiKey fetch toLowerCase providerType apiKey w = (Ok accepted, w).
Proof.
  unfold vendor_request, validateApiKey. intros Hnone Ht. rewrite Ht. cbn [negb].
  destruct (eqb_str providerType "anthropic"); [discriminate|].
  destruct (eqb_str providerType "openai"); [discriminate|].
  destruct (eqb_str providerType "google"); [discriminate|].
  destruct (eqb_str providerType "openrouter"); [discriminate|].
  now destruct (eqb_str providerType "ollama").
Qed.

(** The requests that one validation adds to the record of the network. *)
Lemma validateApiKey_requests (answer : Request → Outcome Response)
  (toLowerCase : jsstring → jsstring) (providerType apiKey : jsstring) (log : list Request) :
  ∃ verdict,
    validateApiKey (recording_fetch answer) toLowerCase providerType apiKey log
    = (Ok verdict,
       log ++ if truthy (VStr (trim apiKey))
              then match vendor_request providerType with
                   | Some request => [request (trim apiKey)]
                   | None => []
                   end
              else []).
Proof.
  destruct (truthy (VStr (trim apiKey))) eqn:Ht.
  - destruct (vendor_request providerType) as [request|] eqn:Hrequest.
    + destruct (vendor_request_elem (recording_fetch answer) toLowerCase providerType request
                  Hrequest) as (validate & Hin & Hrun).
      rewrite (Hrun apiKey log Ht).
      destruct (vendor_catches (recording_fetch answer) toLowerCase _ (trim apiKey) log Hin)
        as [[v Hv] _].
      cbn [fst snd] in Hv. rewrite Hv. now exists v.
    + rewrite (no_vendor_request _ _ _ _ _ Hrequest Ht). rewrite app_nil_r. now eexists.
  - unfold validateApiKey. rewrite Ht. cbn [negb]. rewrite app_nil_r. now eexists.
Qed.

(** What [provider:validateKey] sends over the network.  It never
    raises.  With a key that is blank once trimmed, or a provider type
    without a validator ([ollama], a custom one), it sends nothing; for
    Anthropic, OpenAI, Google and OpenRouter it sends exactly one
    request, to that vendor, which carries the trimmed key.  The type is
    that of the stored provider of the given id when there is one with a
    non-empty type, and the id itself otherwise.  When the provider
    cannot be looked up, nothing is sent and the verdict is the text of
    the error. *)
Theorem validate_key_requests {St : Type} (storage : SecureStorage St)
  (answer : Request → Outcome Response) (toLowerCase : jsstring → jsstring)
  (providerId apiKey : jsstring) (s : St) (log : list Request) :
  let run := provider_validateKey storage (recording_fetch answer) toLowerCase
               providerId apiKey (s, log) in
  (∀ found s', getProvider storage providerId s = (Ok found, s') →
     let providerType :=
       match found with
       | Some config =>
           if truthy (VStr (config_type config)) then config_type config else providerId
       | None => providerId
       end in
     ∃ verdict,
       run = (Ok verdict,
              (s', log ++ if truthy (VStr (trim apiKey))
                          then match vendor_request providerType with
                               | Some request => [request (trim apiKey)]
                               | None => []
                               end
                          else [])))
  ∧ (∀ e s', getProvider storage providerId s = (Throw e, s') →
       run = (Ok (rejected (VStr (String e))), (s', log))).
Proof.
  intros run. split.
  - intros found s' Hget providerType.
    unfold run, provider_validateKey, try_catch, bind, in_fst, in_snd, ret.
    cbn [fst snd]. rewrite Hget. cbn [fst snd]. fold providerType.
    destruct (validateApiKey_requests answer toLowerCase providerType apiKey log)
      as [verdict Hrun].
    rewrite Hrun. now exists verdict.
  - intros e s' Hget.
    unfold run, provider_validateKey, try_catch, bind, in_fst, in_snd, ret.
    cbn [fst snd]. now rewrite Hget.
Qed.

(** ** Strings: prefixes and substrings *)

Lemma strip_prefix_Some (prefix s rest : jsstring) :
  strip_prefix prefix s = Some rest ↔ s = prefix ++ rest.
Proof.
  revert s. induction prefix as [|a prefix IH]; intros s; cbn [strip_prefix app].
  - split; congruence.
  - destruct s as [|b s]; [split; discriminate|].
    destruct (N.eqb_spec a b) as [->|Hne].
    + rewrite IH. split; congruence.
    + split; [discriminate|]. intros H. inversion H. congruence.
Qed.

Lemma starts_with_spec (prefix s : jsstring) :
  starts_with prefix s = true ↔ ∃ rest, s = prefix ++ rest.
Proof.
  revert s. induction prefix as [|a prefix IH]; intros s; cbn [starts_with app].
  - split; [intros _; now exists s|reflexivity].
  - destruct s as [|b s].
    + split; [discriminate|]. intros [rest H]. discriminate.
    + rewrite andb_true_iff, IH, N.eqb_eq. split.
      * intros [-> [rest ->]]. now exists rest.
      * intros [rest H]. inversion H. eauto.
Qed.

Lemma string_includes_spec (needle s : jsstring) :
  string_includes needle s = true ↔ ∃ before after, s = before ++ needle ++ after.
Proof.
  induction s as [|c s IH]; cbn [string_includes].
  - rewrite orb_false_r, starts_with_spec. split.
    + intros [rest H]. now exists [], rest.
    + intros (before & after & H). symmetry in H.
      apply app_eq_nil in H as [-> H]. now exists after.
  - rewrite orb_true_iff, starts_with_spec, IH. split.
    + intros [[rest H]|(before & after & H)].
      * now exists [], rest.
      * exists (c :: before), after. now rewrite H.
    + intros (before & after & H). destruct before as [|b before].
      * left. now exists after.
      * right. inversion H. now exists before, after.
Qed.

Lemma trim_start_split (s : jsstring) :
  ∃ ws, s = ws ++ trim_start s ∧ forallb is_white_space ws = true.
Proof.
  induction s as [|c s (ws & Hs & Hws)]; [now exists []|].
  cbn [trim_start]. destruct (is_white_space c) eqn:Hc.
  - exists (c :: ws). cbn [app forallb]. rewrite Hc, Hws. split; [now f_equal|reflexivity].
  - now exists [].
Qed.

Lemma trim_start_app (ws s : jsstring) :
  forallb is_white_space ws = true → trim_start (ws ++ s) = trim_start s.
Proof.
  induction ws as [|c ws IH]; [reflexivity|]. cbn [forallb app trim_start].
  intros H. apply andb_true_iff in H as [Hc Hws]. rewrite Hc. now apply IH.
Qed.

(** ** The rewriting of [frame-ancestors 'none'] *)

(** The regular expression matches at the start of [s] exactly when [s]
    is [frame-ancestors], white space, ['none'] and a rest. *)
Lemma match_frame_ancestors_none_spec (s after : jsstring) :
  match_frame_ancestors_none s = Some after
  ↔ ∃ ws, ws ≠ [] ∧ forallb is_white_space ws = true
          ∧ s = js "frame-ancestors" ++ ws ++ js "'none'" ++ after.
Proof.
  unfold match_frame_ancestors_none. split.
  - destruct (strip_prefix "frame-ancestors" s) as [[|c rest]|] eqn:Hfa; try discriminate.
    apply strip_prefix_Some in Hfa.
    destruct (is_white_space c) eqn:Hc; [|discriminate].
    intros Hnone. apply strip_prefix_Some in Hnone.
    destruct (trim_start_split rest) as (ws & Hrest & Hws).
    exists (c :: ws). split; [discriminate|]. split.
    + cbn [forallb]. now rewrite Hc, Hws.
    + rewrite Hfa, Hrest, Hnone. reflexivity.
  - intros (ws & Hne & Hws & ->). destruct ws as [|c ws]; [contradiction|].
    cbn [forallb] in Hws. apply andb_true_iff in Hws as [Hc Hws].
    assert (Hfa : strip_prefix "frame-ancestors"
                    (js "frame-ancestors" ++ (c :: ws) ++ js "'none'" ++ after)
                  = Some ((c :: ws) ++ js "'none'" ++ after))
      by now apply strip_prefix_Some.
    rewrite Hfa. cbn [app]. rewrite Hc, trim_start_app by exact Hws.
    apply strip_prefix_Some. reflexivity.
Qed.
Lemma no_match_here (s : jsstring) :
  match_frame_ancestors_none s = None →
  bool_decide (is_Some (match_frame_ancestors_none s)) = false.
Proof. intros ->. apply bool_decide_eq_false_2. intros [x Hx]. discriminate. Qed.

Lemma replacement_has_no_match (rest : jsstring) :
  mentions_frame_ancestors_none rest = false →
  mentions_frame_ancestors_none (js "frame-ancestors 'self' *" ++ rest) = false.
Proof.
  intros Hrest.
  set (r := js "frame-ancestors 'self' *"). vm_compute in r. subst r.
  cbn [app mentions_frame_ancestors_none].
  repeat (rewrite no_match_here; [cbn [orb]|vm_compute; reflexivity]).
  exact Hrest.
Qed.

(** The letter [f] stands at the start of a match and nowhere else in
    it. *)
Lemma match_text_tail (ws : jsstring) :
  forallb is_white_space ws = true →
  Forall (fun c => c ≠ 102%N) (js "rame-ancestors" ++ ws ++ js "'none'").
Proof.
  intros Hws. apply Forall_app. split; [|apply Forall_app; split].
  - vm_compute. repeat constructor; discriminate.
  - apply Forall_forall. intros c Hc Heq. subst c.
    rewrite forallb_forall in Hws. apply list_elem_of_In in Hc.
    specialize (Hws _ Hc). vm_compute in Hws. discriminate.
  - vm_compute. repeat constructor; discriminate.
Qed.

(** A match that starts before a replacement would have to run into it,
    and cannot: the text put in starts with [f]. *)
Lemma no_match_into_replacement (before rest rest' : jsstring) :
  before ≠ [] →
  match_frame_ancestors_none (before ++ rest) = None →
  match_frame_ancestors_none (before ++ js "frame-ancestors 'self' *" ++ rest') = None.
Proof.
  intros Hbefore Hnone.
  destruct (match_frame_ancestors_none (before ++ js "frame-ancestors 'self' *" ++ rest'))
    as [after|] eqn:Hmatch; [exfalso|reflexivity].
  apply match_frame_ancestors_none_spec in Hmatch as (ws & Hne & Hws & Heq).
  assert (Heq' : before ++ (js "frame-ancestors 'self' *" ++ rest')
                 = (js "frame-ancestors" ++ ws ++ js "'none'") ++ after).
  { rewrite Heq. now rewrite <- !app_assoc. }
  clear Heq.
  apply app_eq_inv in Heq' as [(k & Hk1 & Hk2)|(k & Hk1 & Hk2)].
  - (* the match lies within [before] *)
    assert (Hsome : match_frame_ancestors_none (before ++ rest) = Some (k ++ rest)).
    { apply match_frame_ancestors_none_spec. exists ws. split; [exact Hne|].
      split; [exact Hws|]. rewrite Hk1. now rewrite <- !app_assoc. }
    congruence.
  - destruct k as [|c k].
    + rewrite app_nil_r in Hk1.
      assert (Hsome : match_frame_ancestors_none (before ++ rest) = Some rest).
      { apply match_frame_ancestors_none_spec. exists ws. split; [exact Hne|].
        split; [exact Hws|]. rewrite <- Hk1. now rewrite <- !app_assoc. }
      congruence.
    + assert (c = 102%N) as ->.
      { cbn [js app] in Hk2. inversion Hk2. reflexivity. }
      destruct before as [|b before]; [contradiction|].
      assert (Htail : js "rame-ancestors" ++ ws ++ js "'none'" = before ++ 102%N :: k).
      { cbn [js app] in Hk1. cbn [js app]. now inversion Hk1. }
      pose proof (match_text_tail ws Hws) as Hf. rewrite Htail in Hf.
      apply Forall_app in Hf as [_ Hf]. apply Forall_cons in Hf as [Hf _].
      now apply Hf.
Qed.

Lemma no_match_into_output (fuel : nat) (before rest : jsstring) :
  before ≠ [] →
  match_frame_ancestors_none (before ++ rest) = None →
  match_frame_ancestors_none (before ++ replace_from fuel rest) = None.
Proof.
  revert before rest. induction fuel as [|fuel IH]; intros before rest Hbefore Hnone;
    [exact Hnone|].
  cbn [replace_from]. destruct rest as [|c rest]; [exact Hnone|].
  destruct (match_frame_ancestors_none (c :: rest)) as [after|].
  - now apply (no_match_into_replacement before (c :: rest)).
  - change (before ++ c :: replace_from fuel rest)
      with (before ++ [c] ++ replace_from fuel rest).
    rewrite app_assoc. apply IH.
    + now destruct before.
    + now rewrite <- app_assoc.
Qed.

Lemma match_is_shorter (s after : jsstring) :
  match_frame_ancestors_none s = Some after → length after < length s.
Proof.
  intros H. apply match_frame_ancestors_none_spec in H as (ws & _ & _ & ->).
  rewrite !length_app. cbn. lia.
Qed.

Lemma replace_from_clean (fuel : nat) (s : jsstring) :
  length s ≤ fuel → mentions_frame_ancestors_none (replace_from fuel s) = false.
Proof.
  revert s. induction fuel as [|fuel IH]; intros s Hlen.
  - destruct s; [reflexivity|cbn in Hlen; lia].
  - cbn [replace_from]. destruct s as [|c s]; [reflexivity|].
    destruct (match_frame_ancestors_none (c :: s)) as [after|] eqn:Hmatch.
    + apply replacement_has_no_match, IH.
      apply match_is_shorter in Hmatch. cbn [length] in *. lia.
    + cbn [mentions_frame_ancestors_none]. rewrite IH by (cbn [length] in Hlen; lia).
      rewrite orb_false_r. apply no_match_here.
      now apply (no_match_into_output fuel [c] s).
Qed.

Lemma replace_from_unmentioned (fuel : nat) (s : jsstring) :
  mentions_frame_ancestors_none s = false → replace_from fuel s = s.
Proof.
  revert s. induction fuel as [|fuel IH]; intros s Hs; [reflexivity|].
  cbn [replace_from]. destruct s as [|c s]; [reflexivity|].
  cbn [mentions_frame_ancestors_none] in Hs. apply orb_false_elim in Hs as [Hhere Hrest].
  destruct (match_frame_ancestors_none (c :: s)) as [after|].
  - apply bool_decide_eq_false_1 in Hhere. exfalso. apply Hhere. now eexists.
  - now rewrite IH.
Qed.

Lemma mentions_spec (s : jsstring) :
  mentions_frame_ancestors_none s = true
  ↔ ∃ before ws after,
      ws ≠ [] ∧ forallb is_white_space ws = true
      ∧ s = before ++ js "frame-ancestors" ++ ws ++ js "'none'" ++ after.
Proof.
  induction s as [|c s IH].
  - split; [discriminate|]. intros (before & ws & after & _ & _ & H).
    symmetry in H. apply app_eq_nil in H as [_ H]. discriminate.
  - cbn [mentions_frame_ancestors_none]. rewrite orb_true_iff, IH, bool_decide_eq_true.
    split.
    + intros [[after Hhere]|(before & ws & after & Hne & Hws & ->)].
      * apply match_frame_ancestors_none_spec in Hhere as (ws & Hne & Hws & Heq).
        now exists [], ws, after.
      * now exists (c :: before), ws, after.
    + intros (before & ws & after & Hne & Hws & Heq). destruct before as [|b before].
      * left. exists after. apply match_frame_ancestors_none_spec. now exists ws.
      * right. inversion Heq. now exists before, ws, after.
Qed.

(** After the rewriting no [frame-ancestors 'none'] is left: the
    result has no place where [frame-ancestors], white space and
    ['none'] follow one another.  A policy without such a place is
    returned as it is, so rewriting twice is rewriting once. *)
Theorem relaxed_policy_allows_framing (csp : jsstring) :
  (∀ before ws after,
     ws ≠ [] → forallb is_white_space ws = true →
     relax_frame_ancestors csp ≠ before ++ js "frame-ancestors" ++ ws ++ js "'none'" ++ after)
  ∧ (mentions_frame_ancestors_none csp = false → relax_frame_ancestors csp = csp)
  ∧ relax_frame_ancestors (relax_frame_ancestors csp) = relax_frame_ancestors csp.
Proof.
  assert (Hclean : mentions_frame_ancestors_none (relax_frame_ancestors csp) = false)
    by now apply replace_from_clean.
  split; [|split].
  - intros before ws after Hne Hws Heq.
    assert (Hm : mentions_frame_ancestors_none (relax_frame_ancestors csp) = true).
    { apply mentions_spec. now exists before, ws, after. }
    congruence.
  - apply replace_from_unmentioned.
  - now apply replace_from_unmentioned.
Qed.

Example relax_sample :
  relax_frame_ancestors "default-src 'self'; frame-ancestors   'none'; img-src *"
  = js "default-src 'self'; frame-ancestors 'self' *; img-src *".
Proof. vm_compute. reflexivity. Qed.

(** ** Keys with white space around them *)

Lemma trim_start_keeps (s t : jsstring) :
  trim_start s ≠ [] → trim_start (s ++ t) = trim_start s ++ t.
Proof.
  induction s as [|c s IH]; [contradiction|]. cbn [trim_start app].
  destruct (is_white_space c); [exact IH|reflexivity].
Qed.

Lemma trim_start_all_white (s t : jsstring) :
  trim_start s = [] → trim_start (s ++ t) = trim_start t.
Proof.
  induction s as [|c s IH]; [reflexivity|]. cbn [trim_start app].
  destruct (is_white_space c); [exact IH|discriminate].
Qed.

Lemma forallb_rev_white (s : jsstring) :
  forallb is_white_space s = true → forallb is_white_space (rev s) = true.
Proof.
  intros H. rewrite forallb_forall in *. intros c Hc. apply H. now apply in_rev.
Qed.

Lemma trim_start_white_only (s : jsstring) :
  forallb is_white_space s = true → trim_start s = [].
Proof.
  induction s as [|c s IH]; [reflexivity|]. cbn [forallb trim_start].
  intros H. apply andb_true_iff in H as [-> H]. now apply IH.
Qed.

(** [trim] does not see white space around a string. *)
Lemma trim_padding (before s after : jsstring) :
  forallb is_white_space before = true → forallb is_white_space after = true →
  trim (before ++ s ++ after) = trim s.
Proof.
  intros Hbefore Hafter. unfold trim. rewrite trim_start_app by exact Hbefore.
  destruct (trim_start s) as [|c rest] eqn:Hs.
  - rewrite trim_start_all_white by exact Hs.
    now rewrite (trim_start_white_only after Hafter).
  - rewrite trim_start_keeps by (rewrite Hs; discriminate). rewrite Hs.
    rewrite rev_app_distr. now rewrite trim_start_app by now apply forallb_rev_white.
Qed.

(** Validation does not see white space around a key: the verdict, and
    what is sent to the vendor, are those of the key without it. *)
Theorem validation_ignores_padding {W : Type} (fetch : Request → M W Response)
  (toLowerCase : jsstring → jsstring) (providerType before apiKey after : jsstring) (w : W) :
  forallb is_white_space before = true → forallb is_white_space after = true →
  validateApiKey fetch toLowerCase providerType (before ++ apiKey ++ after) w
  = validateApiKey fetch toLowerCase providerType apiKey w.
Proof.
  intros Hbefore Hafter. unfold validateApiKey.
  now rewrite (trim_padding before apiKey after Hbefore Hafter).
Qed.

Lemma validation_ignores_padding_witness :
  validateApiKey (recording_fetch (fun _ => Ok (mkResponse 200 (Ok (VObj [])))))
    ascii_lower "anthropic" (js "  " ++ js "sk-ant-1" ++ [10%N]) []
  = validateApiKey (recording_fetch (fun _ => Ok (mkResponse 200 (Ok (VObj [])))))
      ascii_lower "anthropic" "sk-ant-1" [].
Proof.
  apply (validation_ignores_padding _ ascii_lower "anthropic" (js "  ") "sk-ant-1" [10%N] []);
    reflexivity.
Defined.

(** ** Which URLs count as the gateway's *)

Lemma string_includes_elem (needle s : jsstring) (c : N) :
  string_includes needle s = true → c ∈ needle → c ∈ s.
Proof.
  intros H Hc. apply string_includes_spec in H as (before & after & ->).
  apply elem_of_app. right. apply elem_of_app. now left.
Qed.

(** A text without a colon holds neither of the two texts that
    [isGatewayUrl] looks for. *)
Lemma colon_free_is_foreign (needle s : jsstring) :
  58%N ∈ needle → 58%N ∉ s → string_includes needle s = false.
Proof.
  intros Hcolon Hfree. destruct (string_includes needle s) eqn:H; [exfalso|reflexivity].
  apply Hfree. exact (string_includes_elem needle s 58 H Hcolon).
Qed.

Lemma starts_with_cut (needle s rest : jsstring) (c : N) :
  c ∉ needle → starts_with needle (s ++ c :: rest) = starts_with needle s.
Proof.
  revert s. induction needle as [|a needle IH]; intros s Hc; [now destruct s|].
  destruct s as [|b s]; cbn [app starts_with].
  - destruct (N.eqb_spec a c) as [->|Hne]; [|reflexivity].
    exfalso. apply Hc. apply elem_of_cons. now left.
  - rewrite IH; [reflexivity|]. intros Hin. apply Hc. apply elem_of_cons. now right.
Qed.

Lemma digits_colon_free (u : Decimal.uint) : 58%N ∉ digits u.
Proof.
  induction u; cbn [digits]; [apply not_elem_of_nil| | | | | | | | | |];
    (intros Hin; apply elem_of_cons in Hin as [Hin|Hin]; [discriminate|contradiction]).
Qed.

Lemma number_to_string_colon_free (n : Z) : 58%N ∉ number_to_string n.
Proof.
  destruct n as [|p|p]; cbn [number_to_string].
  - vm_compute. intros H. apply elem_of_cons in H as [H|H]; [discriminate|].
    now apply elem_of_nil in H.
  - apply digits_colon_free.
  - intros H. apply elem_of_app in H as [H|H]; [|now apply digits_colon_free in H].
    vm_compute in H. apply elem_of_cons in H as [H|H]; [discriminate|].
    now apply elem_of_nil in H.
Qed.

Lemma safe_colon_free (s : jsstring) : forallb safe s = true → 58%N ∉ s.
Proof.
  intros Hsafe Hin. rewrite forallb_forall in Hsafe. apply list_elem_of_In in Hin.
  specialize (Hsafe _ Hin). vm_compute in Hsafe. discriminate.
Qed.

(** On a URL of the local host whose port and rest hold no colon, the
    test looks at the port only. *)
Lemma isGatewayUrl_local (rest : jsstring) :
  58%N ∉ rest →
  isGatewayUrl (js "http://127.0.0.1:" ++ rest) = starts_with "18789" rest.
Proof.
  intros Hfree. unfold isGatewayUrl.
  assert (H1 : string_includes "127.0.0.1:18789" (js "http://127.0.0.1:" ++ rest)
               = starts_with "18789" rest || string_includes "127.0.0.1:18789" rest)
    by reflexivity.
  assert (H2 : string_includes "localhost:18789" (js "http://127.0.0.1:" ++ rest)
               = string_includes "localhost:18789" rest)
    by reflexivity.
  assert (Hc1 : 58%N ∈ js "127.0.0.1:18789").
  { vm_compute. do 9 (apply elem_of_cons; right). apply elem_of_cons. now left. }
  assert (Hc2 : 58%N ∈ js "localhost:18789").
  { vm_compute. do 9 (apply elem_of_cons; right). apply elem_of_cons. now left. }
  rewrite H1, H2.
  rewrite (colon_free_is_foreign _ rest Hc1 Hfree), (colon_free_is_foreign _ rest Hc2 Hfree).
  now rewrite !orb_false_r.
Qed.

Lemma holds_from_spec (check : Z → bool) (first : Z) (count : nat) (p : Z) :
  holds_from check first count = true →
  (first ≤ p < first + Z.of_nat count)%Z → check p = true.
Proof.
  revert first. induction count as [|count IH]; intros first Hall Hp; [lia|].
  cbn [holds_from] in Hall. destruct (check first) eqn:Hfirst; [|discriminate].
  destruct (Z.eq_dec p first) as [->|Hne]; [exact Hfirst|].
  apply (IH (first + 1)%Z Hall). lia.
Qed.

(** Of the ports 1 to 65535, only 18789 has a decimal form that starts
    with [18789]. *)
Lemma tcp_ports_other :
  holds_from (fun port => (port =? 18789)%Z
                          || negb (starts_with "18789" (number_to_string port)))
             1 (Z.to_nat 65535) = true.
Proof. vm_compute. reflexivity. Qed.

(** The URL that [gateway:getControlUiUrl] hands out is taken for
    a gateway URL by the header listener exactly when the decimal form of
    its port starts with [18789]: it is for the default port, and it is
    not for any other port from 1 to 65535, whatever the token.  The
    responses of a gateway on another port keep their headers. *)
Theorem control_ui_url_is_gateway_url {W : Type} (gatewayManager : GatewayManager W)
  (host : Host W) (args : list Value) (w w1 w2 : W) (status : GatewayStatus)
  (token encoded : jsstring) (responseHeaders : option (gmap (list N) (list jsstring))) :
  getStatus gatewayManager w = (Ok status, w1) →
  getSetting host "gatewayToken" w1 = (Ok token, w2) →
  encodeURIComponent token = Ok encoded →
  Forall (fun c => (c < 65536)%N) token →
  let port := port_or_default status in
  let url := js "http://127.0.0.1:" ++ number_to_string port ++ js "/?token=" ++ encoded in
  gateway_getControlUiUrl gatewayManager host args w
  = (Ok (success_reply [(js "url", VStr url); (js "port", VNum port);
                        (js "token", VStr token)]), w2)
  ∧ isGatewayUrl url = starts_with "18789" (number_to_string port)
  ∧ (port = 18789%Z → isGatewayUrl url = true)
  ∧ ((1 ≤ port ≤ 65535)%Z → port ≠ 18789%Z →
     isGatewayUrl url = false ∧ onHeadersReceived url responseHeaders = responseHeaders).
Proof.
  intros Hstatus Htoken Hencoded Hunits port url.
  assert (Hurl : isGatewayUrl url = starts_with "18789" (number_to_string port)).
  { unfold url. rewrite isGatewayUrl_local.
    - change (js "/?token=" ++ encoded) with (47%N :: (js "?token=" ++ encoded)).
      apply starts_with_cut. vm_compute. intros H.
      repeat (apply elem_of_cons in H as [H|H]; [discriminate|]).
      now apply elem_of_nil in H.
    - intros H. apply elem_of_app in H as [H|H];
        [now apply number_to_string_colon_free in H|].
      apply elem_of_app in H as [H|H].
      + vm_compute in H.
        repeat (apply elem_of_cons in H as [H|H]; [discriminate|]).
        now apply elem_of_nil in H.
      + apply (safe_colon_free encoded); [|exact H].
        exact (encode_safe token encoded Hunits Hencoded). }
  split; [|split; [exact Hurl|split]].
  - exact (control_ui_success gatewayManager host args w w1 w2 status token encoded
             Hstatus Htoken Hencoded).
  - intros Hport. rewrite Hurl, Hport. reflexivity.
  - intros Hrange Hother.
    assert (Hfalse : isGatewayUrl url = false).
    { rewrite Hurl.
      pose proof (holds_from_spec _ 1 (Z.to_nat 65535) port tcp_ports_other) as Hcheck.
      cbv beta in Hcheck. rewrite Z2Nat.id in Hcheck by lia.
      specialize (Hcheck ltac:(lia)).
      apply orb_true_iff in Hcheck as [Heq|Hneg].
      - apply Z.eqb_eq in Heq. contradiction.
      - now apply negb_true_iff in Hneg. }
    split; [exact Hfalse|]. unfold onHeadersReceived. now rewrite Hfalse.
Qed.

Lemma control_ui_url_is_gateway_url_witness :
  let url := js "http://127.0.0.1:19001/?token=s3cret" in
  gateway_getControlUiUrl
    {| getStatus := ret (mkStatus Running (Some 19001%Z) None);
       isConnected := ret true;
       start := ret tt; stop := ret tt; restart := ret tt;
       rpc := fun _ _ _ => ret VNull;
       checkHealth := ret [] |}
    (sample_host "s3cret") [] tt
  = (Ok (success_reply [(js "url", VStr url); (js "port", VNum 19001);
                        (js "token", VStr "s3cret")]), tt)
  ∧ isGatewayUrl url = false
  ∧ onHeadersReceived url (Some {[ js "X-Frame-Options" := [js "DENY"] ]})
    = Some {[ js "X-Frame-Options" := [js "DENY"] ]}.
Proof.
  intros url.
  destruct (control_ui_url_is_gateway_url
              {| getStatus := ret (mkStatus Running (Some 19001%Z) None);
                 isConnected := ret true;
                 start := ret tt; stop := ret tt; restart := ret tt;
                 rpc := fun _ _ _ => ret VNull;
                 checkHealth := ret [] |}
              (sample_host "s3cret") [] tt tt tt (mkStatus Running (Some 19001%Z) None)
              "s3cret" "s3cret" (Some {[ js "X-Frame-Options" := [js "DENY"] ]})
              eq_refl eq_refl eq_refl)
    as (Hreply & _ & _ & Hother).
  - repeat constructor.
  - split; [exact Hreply|]. apply Hother; [cbn; lia|discriminate].
Defined.

(** What the header listener does.  A URL counts as the gateway's
    as soon as one of the two texts occurs anywhere in it.  For any other
    URL the headers pass as they are.  For a gateway URL the headers
    [X-Frame-Options] and [x-frame-options] are dropped, the values of
    [Content-Security-Policy] and [content-security-policy] are rewritten
    one by one, and every header of another name — another spelling of
    these names too — passes as it is. *)
Theorem gateway_headers_relaxed (url : jsstring)
  (responseHeaders : option (gmap (list N) (list jsstring))) :
  (isGatewayUrl url = true
   ↔ ∃ before after, url = before ++ js "127.0.0.1:18789" ++ after
                     ∨ url = before ++ js "localhost:18789" ++ after)
  ∧ (isGatewayUrl url = false → onHeadersReceived url responseHeaders = responseHeaders)
  ∧ (isGatewayUrl url = true →
     ∃ headers,
       onHeadersReceived url responseHeaders = Some headers
       ∧ headers !! js "X-Frame-Options" = None
       ∧ headers !! js "x-frame-options" = None
       ∧ (∀ name, name = js "Content-Security-Policy" ∨ name = js "content-security-policy" →
            headers !! name
            = fmap relax_frame_ancestors <$> default ∅ responseHeaders !! name)
       ∧ (∀ name, name ∉ [js "X-Frame-Options"; js "x-frame-options";
                          js "Content-Security-Policy"; js "content-security-policy"] →
            headers !! name = default ∅ responseHeaders !! name)).
Proof.
  split; [|split].
  - unfold isGatewayUrl. rewrite orb_true_iff, !string_includes_spec. split.
    + intros [(before & after & H)|(before & after & H)]; exists before, after; auto.
    + intros (before & after & [H|H]); [left|right]; now exists before, after.
  - intros Hfalse. unfold onHeadersReceived. now rewrite Hfalse.
  - intros Htrue. unfold onHeadersReceived. rewrite Htrue. cbn [negb].
    eexists. split; [reflexivity|].
    set (headers0 := default ∅ responseHeaders).
    set (headers1 := delete (js "x-frame-options") (delete (js "X-Frame-Options") headers0)).
    assert (H1a : headers1 !! js "X-Frame-Options" = None).
    { unfold headers1. rewrite lookup_delete_ne by discriminate. apply lookup_delete_eq. }
    assert (H1b : headers1 !! js "x-frame-options" = None) by apply lookup_delete_eq.
    assert (H1c : ∀ name, name ≠ js "X-Frame-Options" → name ≠ js "x-frame-options" →
                    headers1 !! name = headers0 !! name).
    { intros name Ha Hb. unfold headers1. now rewrite !lookup_delete_ne by congruence. }
    set (headers2 := match headers1 !! js "Content-Security-Policy" with
                     | Some values =>
                         <[js "Content-Security-Policy" := relax_frame_ancestors <$> values]>
                           headers1
                     | None => headers1
                     end).
    assert (H2a : headers2 !! js "Content-Security-Policy"
                  = fmap relax_frame_ancestors <$> headers0 !! js "Content-Security-Policy").
    { unfold headers2. rewrite <- (H1c (js "Content-Security-Policy")) by discriminate.
      destruct (headers1 !! js "Content-Security-Policy") as [values|] eqn:Hv.
      - now rewrite lookup_insert_eq.
      - now rewrite Hv. }
    assert (H2b : ∀ name, name ≠ js "Content-Security-Policy" →
                    headers2 !! name = headers1 !! name).
    { intros name Hne. unfold headers2.
      destruct (headers1 !! js "Content-Security-Policy"); [|reflexivity].
      now rewrite lookup_insert_ne by congruence. }
    set (headers3 := match headers2 !! js "content-security-policy" with
                     | Some values =>
                         <[js "content-security-policy" := relax_frame_ancestors <$> values]>
                           headers2
                     | None => headers2
                     end).
    assert (H3a : headers3 !! js "content-security-policy"
                  = fmap relax_frame_ancestors <$> headers0 !! js "content-security-policy").
    { unfold headers3. rewrite <- (H1c (js "content-security-policy")) by discriminate.
      rewrite <- (H2b (js "content-security-policy")) by discriminate.
      destruct (headers2 !! js "content-security-policy") as [values|] eqn:Hv.
      - now rewrite lookup_insert_eq.
      - now rewrite Hv. }
    assert (H3b : ∀ name, name ≠ js "content-security-policy" →
                    headers3 !! name = headers2 !! name).
    { intros name Hne. unfold headers3.
      destruct (headers2 !! js "content-security-policy"); [|reflexivity].
      now rewrite lookup_insert_ne by congruence. }
    split; [|split; [|split]].
    + rewrite H3b, H2b by discriminate. exact H1a.
    + rewrite H3b, H2b by discriminate. exact H1b.
    + intros name [->| ->].
      * rewrite H3b by discriminate. exact H2a.
      * exact H3a.
    + intros name Hname.
      assert (name ≠ js "X-Frame-Options" ∧ name ≠ js "x-frame-options"
              ∧ name ≠ js "Content-Security-Policy" ∧ name ≠ js "content-security-policy")
        as (Ha & Hb & Hc & Hd).
      { repeat split; intros ->; apply Hname;
          repeat (apply elem_of_cons; first [left; reflexivity | right]). }
      rewrite H3b, H2b, H1c by assumption. reflexivity.
Qed.

(** ** The callers of [gateway:getControlUiUrl] *)

Lemma has_url_success (url : jsstring) (rest : list (jsstring * Value)) :
  has_url (success_reply ((js "url", VStr url) :: rest)) = Ok (truthy (VStr url)).
Proof. reflexivity. Qed.

Lemma has_url_failure (e : JsError) : has_url (failure_reply e) = Ok false.
Proof. reflexivity. Qed.

Lemma has_info_success (url token : jsstring) (port : Z) :
  has_info (success_reply [(js "url", VStr url); (js "port", VNum port);
                           (js "token", VStr token)])
  = Ok (truthy (VStr url) && truthy (VStr token)).
Proof.
  unfold has_info. rewrite has_url_success.
  destruct (truthy (VStr url)); [|reflexivity].
  change (get_prop (success_reply _) "token") with (Ok (VStr token)).
  cbv beta iota. destruct (truthy (VStr token)); reflexivity.
Qed.

Lemma has_info_failure (e : JsError) : has_info (failure_reply e) = Ok false.
Proof. reflexivity. Qed.

(** What the renderer does with the reply of
    [gateway:getControlUiUrl].  On success the header button opens the
    URL in the browser and the Chat page shows it; the Settings page
    takes the reply — and opens the URL — only when the gateway token
    is not empty.  On failure nothing is opened, and the Chat page shows
    the text of the error, or [Failed to get Control UI URL] when that
    text is empty. *)
Theorem control_ui_reply_in_renderer {W : Type} (gatewayManager : GatewayManager W)
  (host : Host W) (w w' : W) (opened : list Value) (chat : ChatState)
  (info : option ControlUiInfo) :
  let invoke := gateway_getControlUiUrl gatewayManager host [] in
  (∀ url token port,
     invoke w = (Ok (success_reply [(js "url", VStr (js "http://127.0.0.1:" ++ url));
                                    (js "port", VNum port); (js "token", VStr token)]), w') →
     let address := VStr (js "http://127.0.0.1:" ++ url) in
     handleOpenDevConsole invoke (opened, w) = (Ok tt, (opened ++ [address], w'))
     ∧ fetchControlUiUrl invoke true (chat, w) = (Ok tt, (mkChat (Some address) false None, w'))
     ∧ openDevConsole invoke (info, opened, w)
       = (Ok tt, if truthy (VStr token)
                 then (Some (mkInfo address (VStr token) (VNum port)), opened ++ [address], w')
                 else (info, opened, w')))
  ∧ (∀ e,
       invoke w = (Ok (failure_reply e), w') →
       handleOpenDevConsole invoke (opened, w) = (Ok tt, (opened, w'))
       ∧ fetchControlUiUrl invoke true (chat, w)
         = (Ok tt, (mkChat (controlUiUrl chat) false
                      (Some (VStr (if truthy (VStr (String e)) then String e
                                   else js "Failed to get Control UI URL"))), w'))
       ∧ openDevConsole invoke (info, opened, w) = (Ok tt, (info, opened, w'))).
Proof.
  intros invoke. split.
  - intros url token port Hreply address. split; [|split].
    + unfold handleOpenDevConsole, try_catch, bind, in_snd, in_fst, lift, ret.
      cbn [fst snd]. rewrite Hreply. cbn [fst snd]. rewrite has_url_success.
      reflexivity.
    + unfold fetchControlUiUrl, try_catch, bind, in_snd, in_fst, lift, ret.
      cbn [negb fst snd]. rewrite Hreply. cbn [fst snd]. rewrite has_url_success.
      reflexivity.
    + unfold openDevConsole, try_catch, bind, in_snd, in_fst, lift, ret.
      cbn [fst snd]. rewrite Hreply. cbn [fst snd]. rewrite has_info_success.
      destruct (truthy (VStr token)); [rewrite andb_true_r|rewrite andb_false_r];
        reflexivity.
  - intros e Hreply. split; [|split].
    + unfold handleOpenDevConsole, try_catch, bind, in_snd, in_fst, lift, ret.
      cbn [fst snd]. rewrite Hreply. cbn [fst snd]. rewrite has_url_failure.
      reflexivity.
    + unfold fetchControlUiUrl, try_catch, bind, in_snd, in_fst, lift, ret.
      cbn [negb fst snd]. rewrite Hreply. cbn [fst snd]. rewrite has_url_failure.
      change (get_prop (failure_reply e) "error") with (Ok (VStr (String e))).
      cbn [fst snd]. now destruct (truthy (VStr (String e))).
    + unfold openDevConsole, try_catch, bind, in_snd, in_fst, lift, ret.
      cbn [fst snd]. rewrite Hreply. cbn [fst snd]. rewrite has_info_failure.
      reflexivity.
Qed.

(** With an empty gateway token the header opens the Control UI and
    the Settings page does nothing. *)
Example empty_token_in_renderer :
  let manager : GatewayManager unit :=
    {| getStatus := ret (mkStatus Running (Some 18789%Z) None);
       isConnected := ret true;
       start := ret tt; stop := ret tt; restart := ret tt;
       rpc := fun _ _ _ => ret VNull;
       checkHealth := ret [] |} in
  let invoke := gateway_getControlUiUrl manager (sample_host "") [] in
  handleOpenDevConsole invoke ([], tt)
  = (Ok tt, ([VStr "http://127.0.0.1:18789/?token="], tt))
  ∧ openDevConsole invoke (None, [], tt) = (Ok tt, (None, [], tt)).
Proof. split; reflexivity. Qed.

(** ** Errors of the gateway, as the renderer gets them *)

Lemma String_longer (e : JsError) :
  err_name e ≠ [] → err_message e ≠ [] → String e ≠ err_message e.
Proof.
  intros Hname Hmessage Heq. unfold String in Heq.
  destruct (err_name e) as [|c name]; [contradiction|].
  destruct (err_message e) as [|d message]; [contradiction|].
  apply (f_equal length) in Heq. cbn [app length] in Heq.
  rewrite !length_app in Heq. cbn [length] in Heq. lia.
Qed.

(** The channel [gateway:error] carries two forms of text.  When the
    automatic start fails, an open window is sent [String(error)] — the
    name of the error, a colon and the message — and a closed one
    nothing, and [initialize] goes on; the listener of the manager's
    [error] event sends the bare message.  For an error that has a name
    and a message the two differ. *)
Theorem gateway_error_has_two_forms {W : Type} (gatewayManager : GatewayManager W)
  (e : JsError) (w w' : W) (window : Window) :
  start gatewayManager w = (Throw e, w') →
  destroyed window = false →
  autoStartGateway gatewayManager (Some window, w)
  = (Ok tt, (Some (mkWindow false (sent window ++ [("gateway:error", VStr (String e))])), w'))
  ∧ autoStartGateway gatewayManager (None, w) = (Ok tt, (None, w'))
  ∧ forward_error (VErr e) window
    = (Ok tt, mkWindow false (sent window ++ [("gateway:error", VStr (err_message e))]))
  ∧ (err_name e ≠ [] → err_message e ≠ [] → String e ≠ err_message e).
Proof.
  intros Hstart Hopen. split; [|split; [|split]].
  - unfold autoStartGateway, try_catch, in_snd, in_fst, webContents_send. cbn [fst snd].
    rewrite Hstart. cbn [fst snd]. now rewrite Hopen.
  - unfold autoStartGateway, try_catch, in_snd, in_fst. cbn [fst snd].
    now rewrite Hstart.
  - unfold forward_error, bind, isDestroyed, lift, webContents_send.
    rewrite Hopen. cbn [negb]. now rewrite Hopen.
  - apply String_longer.
Qed.

Lemma gateway_error_has_two_forms_witness :
  autoStartGateway idle_manager (Some (mkWindow false []), tt)
  = (Ok tt, (Some (mkWindow false [("gateway:error", VStr "Error: spawn ENOENT")]), tt))
  ∧ forward_error (VErr (mkError "Error" "spawn ENOENT")) (mkWindow false [])
    = (Ok tt, mkWindow false [("gateway:error", VStr "spawn ENOENT")]).
Proof.
  destruct (gateway_error_has_two_forms idle_manager (mkError "Error" "spawn ENOENT") tt tt
              (mkWindow false []) eq_refl eq_refl) as (Hstart & _ & Hevent & _).
  split; [exact Hstart|exact Hevent].
Defined.

(** ** The skills store *)

Section SkillsProperties.
Context {C W : Type}.
Variable ipc : SkillsIpc C W.
Variable merge_config : option C → C → C.

Abbreviation ids l := (skill_id <$> l).

Lemma find_id_None (skillId : jsstring) (l : list (Skill C)) :
  find (fun s => eqb_str (skill_id s) skillId) l = None ↔ skillId ∉ ids l.
Proof.
  induction l as [|s l IH]; cbn [find fmap list_fmap].
  - split; [intros _; apply not_elem_of_nil|reflexivity].
  - unfold eqb_str. case_bool_decide as Hid.
    + split; [discriminate|]. intros Hnot. exfalso. apply Hnot.
      apply elem_of_cons. left. now symmetry.
    + rewrite IH. split.
      * intros Hnot Hin. apply elem_of_cons in Hin as [Heq|Hin]; [|contradiction].
        now apply Hid.
      * intros Hnot Hin. apply Hnot. apply elem_of_cons. now right.
Qed.

(** The merge with the ClawHub results appends: one entry for every
    slug that is not an id yet, in the order of the results. *)
Lemma add_listed_appends (directConfig : jsstring → C) (results : list ClawHubListResult)
  (base : list (Skill C)) :
  ∃ added,
    fold_left (add_listed directConfig) results base = base ++ added
    ∧ (∀ s, s ∈ added → skill_id s ∈ listed_slug <$> results ∧ skill_id s ∉ ids base)
    ∧ NoDup (ids added)
    ∧ (∀ r, r ∈ results → listed_slug r ∈ ids (base ++ added)).
Proof.
  revert base. induction results as [|r results IH]; intros base; cbn [fold_left].
  - exists []. rewrite app_nil_r. split; [reflexivity|]. split; [|split].
    + intros s Hs. now apply elem_of_nil in Hs.
    + apply NoDup_nil_2.
    + intros r Hr. now apply elem_of_nil in Hr.
  - unfold add_listed at 2.
    destruct (find (fun s => eqb_str (skill_id s) (listed_slug r)) base) as [s0|] eqn:Hfind.
    + destruct (IH base) as (added & Heq & Hadded & Hnodup & Hall).
      exists added. split; [exact Heq|]. split; [|split; [exact Hnodup|]].
      * intros s Hs. destruct (Hadded s Hs) as [H1 H2]. split; [|exact H2].
        cbn [fmap list_fmap]. apply elem_of_cons. now right.
      * intros r' Hr'. apply elem_of_cons in Hr' as [->|Hr']; [|now apply Hall].
        rewrite fmap_app. apply elem_of_app. left.
        destruct (decide (listed_slug r ∈ ids base)) as [Hin|Hnot]; [exact Hin|].
        apply find_id_None in Hnot. congruence.
    + set (new := mkSkill (listed_slug r) (listed_slug r) (listed_slug r)
                    "Recently installed, initializing..." false ICON_HOURGLASS
                    (or_string (listed_version r) "unknown") None
                    (directConfig (listed_slug r)) (Some false) (Some false)).
      destruct (IH (base ++ [new])) as (added & Heq & Hadded & Hnodup & Hall).
      apply find_id_None in Hfind.
      exists (new :: added). split; [|split; [|split]].
      * rewrite Heq. now rewrite <- app_assoc.
      * intros s Hs. apply elem_of_cons in Hs as [->|Hs].
        -- split; [|exact Hfind]. cbn [fmap list_fmap]. apply elem_of_cons. now left.
        -- destruct (Hadded s Hs) as [H1 H2]. split.
           ++ cbn [fmap list_fmap]. apply elem_of_cons. now right.
           ++ intros Hin. apply H2. rewrite fmap_app. apply elem_of_app. now left.
      * cbn [fmap list_fmap]. apply NoDup_cons. split; [|exact Hnodup].
        intros Hin. apply list_elem_of_fmap in Hin as (s & Hs & Hin).
        destruct (Hadded s Hin) as [_ H2]. apply H2.
        rewrite fmap_app. apply elem_of_app. right. cbn [fmap list_fmap].
        apply elem_of_cons. left. now symmetry.
      * intros r' Hr'. replace (base ++ new :: added) with ((base ++ [new]) ++ added)
          by now rewrite <- app_assoc.
        apply elem_of_cons in Hr' as [->|Hr']; [|now apply Hall].
        rewrite !fmap_app. apply elem_of_app. left. apply elem_of_app. right.
        cbn [fmap list_fmap]. apply elem_of_cons. now left.
Qed.

End SkillsProperties.

(** [fetchSkills] merges the two sources.  When the three calls
    are answered, the new list is the gateway's skills (or, when the
    gateway's reply is no success or has no skills, the list as it was)
    followed by one entry for each ClawHub slug that is not yet an id:
    no entry is added twice, none repeats an id that is there, every
    listed slug ends up in the list, and a list whose ids were distinct
    keeps distinct ids. *)
Theorem fetch_skills_merges {C W : Type} (ipc : SkillsIpc C W)
  (merge_config : option C → C → C) (st : SkillsState C) (w0 w1 w2 w3 : W)
  (gatewayResult : SkillsStatusReply C) (clawhubResult : ClawHubListReply)
  (configResult : jsstring → C) :
  rpc_skills_status ipc w0 = (Ok gatewayResult, w1) →
  clawhub_list ipc w1 = (Ok clawhubResult, w2) →
  skill_getAllConfigs ipc w2 = (Ok configResult, w3) →
  let base :=
    match status_success gatewayResult, status_skills gatewayResult with
    | true, Some gatewaySkills => from_gateway merge_config configResult <$> gatewaySkills
    | _, _ => skills st
    end in
  let listed :=
    match list_success clawhubResult, list_results clawhubResult with
    | true, Some results => results
    | _, _ => []
    end in
  ∃ added,
    fetchSkills ipc merge_config (st, w0)
    = (Ok tt, (mkSkillsState (base ++ added) false (installing st)
                 (match skills st with [] => None | _ => skills_error st end), w3))
    ∧ (∀ s, s ∈ added →
         skill_id s ∈ listed_slug <$> listed ∧ skill_id s ∉ skill_id <$> base)
    ∧ NoDup (skill_id <$> added)
    ∧ (∀ r, r ∈ listed → listed_slug r ∈ skill_id <$> (base ++ added))
    ∧ (NoDup (skill_id <$> base) → NoDup (skill_id <$> (base ++ added))).
Proof.
  intros Hgateway Hclawhub Hconfig base listed.
  destruct (add_listed_appends configResult listed base)
    as (added & Hfold & Hadded & Hnodup & Hall).
  exists added. split; [|split; [exact Hadded|split; [exact Hnodup|split; [exact Hall|]]]].
  - assert (Hmerged :
      match list_success clawhubResult, list_results clawhubResult with
      | true, Some results => fold_left (add_listed configResult) results base
      | _, _ => base
      end = base ++ added).
    { rewrite <- Hfold. unfold listed.
      destruct (list_success clawhubResult), (list_results clawhubResult); reflexivity. }
    clear Hfold Hadded Hnodup Hall. subst base. clearbody listed.
    destruct st as [current loading0 installing0 error0].
    cbn [skills installing skills_error] in *.
    unfold fetchSkills, try_catch, bind, get_state, set_state, in_snd, ret.
    cbn [fst snd skills installing skills_error].
    destruct current as [|s0 rest]; cbn [fst snd skills installing skills_error];
      rewrite Hgateway; cbn [fst snd]; rewrite Hclawhub; cbn [fst snd];
      rewrite Hconfig; cbn [fst snd skills installing skills_error];
      rewrite Hmerged; reflexivity.
  - intros Hbase. rewrite fmap_app. apply NoDup_app. split; [exact Hbase|].
    split; [|exact Hnodup].
    intros x Hx Hx'. apply list_elem_of_fmap in Hx' as (s & -> & Hs).
    now destruct (Hadded s Hs).
Qed.

Lemma fetch_skills_merges_witness :
  ∃ added,
    fetchSkills sample_skills_ipc (fun _ _ => tt) (mkSkillsState [] false ∅ None, tt)
    = (Ok tt, (mkSkillsState
                 ((from_gateway (fun _ _ => tt) (fun _ => tt)
                   <$> [mkGatewaySkill "git" None None None (Some true) None None None None
                          (Some true) (Some true)]) ++ added)
                 false ∅ None, tt))
    ∧ NoDup (skill_id <$> added).
Proof.
  destruct (fetch_skills_merges sample_skills_ipc (fun _ _ => tt)
              (mkSkillsState [] false ∅ None) tt tt tt tt
              _ _ _ eq_refl eq_refl eq_refl) as (added & Hrun & _ & Hnodup & _).
  exists added. split; [exact Hrun|exact Hnodup].
Defined.

Example fetch_skills_sample :
  (skill_id <$> skills (fetchSkills sample_skills_ipc (fun _ _ => tt)
                          (mkSkillsState [] false ∅ None, tt)).2.1)
  = [js "git"; js "notes"].
Proof. vm_compute. reflexivity. Qed.

Section SkillsActions.
Context {C W : Type}.
Variable ipc : SkillsIpc C W.
Variable merge_config : option C → C → C.

(** [fetchSkills] catches every rejection, ends the loading state and
    leaves the [installing] flags alone. *)
Lemma fetchSkills_total (st : SkillsState C) (w : W) :
  ∃ st' w',
    fetchSkills ipc merge_config (st, w) = (Ok tt, (st', w'))
    ∧ skills_loading st' = false
    ∧ installing st' = installing st
    ∧ ((∀ gatewayResult w1,
          rpc_skills_status ipc w = (Ok gatewayResult, w1) →
          status_success gatewayResult = false ∨ status_skills gatewayResult = None) →
       ∃ added, skills st' = skills st ++ added).
Proof.
  destruct st as [current loading0 installing0 error0].
  unfold fetchSkills, try_catch, bind, get_state, set_state, in_snd, ret.
  cbn [fst snd skills installing skills_error skills_loading].
  assert (Hsame : ∀ l : list (Skill C), ∃ added, l = l ++ added)
    by (intros l; exists []; now rewrite app_nil_r).
  destruct current as [|s0 rest]; cbn [fst snd skills installing skills_error skills_loading].
  all: destruct (rpc_skills_status ipc w) as [[gatewayResult|e] w1] eqn:Hg; cbn [fst snd];
    [|eexists _, _; split; [reflexivity|]; cbn; auto].
  all: destruct (clawhub_list ipc w1) as [[clawhubResult|e] w2]; cbn [fst snd];
    [|eexists _, _; split; [reflexivity|]; cbn; auto].
  all: destruct (skill_getAllConfigs ipc w2) as [[configResult|e] w3]; cbn [fst snd];
    [|eexists _, _; split; [reflexivity|]; cbn; auto].
  all: eexists _, _; split; [reflexivity|]; cbn [skills installing skills_loading];
    split; [reflexivity|]; split; [reflexivity|].
  all: intros Hnone; specialize (Hnone gatewayResult w1 eq_refl).
  all: match goal with
       | |- ∃ added, ?merged = ?old ++ added =>
           assert (Hbase : (match status_success gatewayResult,
                                  status_skills gatewayResult with
                            | true, Some gatewaySkills =>
                                from_gateway merge_config configResult <$> gatewaySkills
                            | _, _ => old
                            end) = old)
             by (destruct Hnone as [-> | ->]; [reflexivity|];
                 now destruct (status_success gatewayResult))
       end.
  all: rewrite Hbase.
  all: destruct (list_success clawhubResult); [|apply Hsame].
  all: destruct (list_results clawhubResult) as [results|]; [|apply Hsame].
  all: match goal with
       | |- ∃ added, fold_left _ ?listed ?old = _ =>
           destruct (add_listed_appends configResult listed old) as (added & Hfold & _)
       end.
  all: exists added; exact Hfold.
Qed.

End SkillsActions.

(** [fetchSkills] never throws: every rejected call is caught.
    It ends with [loading] off and leaves the [installing] flags as they
    were.  Unless the gateway answered with a list of skills, no skill
    is dropped: the list as it was is the beginning of the new list. *)
Theorem fetch_skills_never_drops {C W : Type} (ipc : SkillsIpc C W)
  (merge_config : option C → C → C) (st : SkillsState C) (w : W) :
  ∃ st' w',
    fetchSkills ipc merge_config (st, w) = (Ok tt, (st', w'))
    ∧ skills_loading st' = false
    ∧ installing st' = installing st
    ∧ ((∀ gatewayResult w1,
          rpc_skills_status ipc w = (Ok gatewayResult, w1) →
          status_success gatewayResult = false ∨ status_skills gatewayResult = None) →
       ∃ added, skills st' = skills st ++ added).
Proof. apply fetchSkills_total. Qed.

Lemma unique_id {C : Type} (l : list (Skill C)) (s s' : Skill C) :
  NoDup (skill_id <$> l) → s ∈ l → s' ∈ l → skill_id s = skill_id s' → s = s'.
Proof.
  induction l as [|x l IH]; intros Hnd Hs Hs' Hid; [now apply elem_of_nil in Hs|].
  cbn [fmap list_fmap] in Hnd. apply NoDup_cons in Hnd as [Hx Hnd].
  apply elem_of_cons in Hs as [->|Hs]; apply elem_of_cons in Hs' as [->|Hs'].
  - reflexivity.
  - exfalso. apply Hx. rewrite Hid. apply list_elem_of_fmap. now exists s'.
  - exfalso. apply Hx. rewrite <- Hid. apply list_elem_of_fmap. now exists s.
  - now apply IH.
Qed.

Lemma find_elem {C : Type} (f : Skill C → bool) (l : list (Skill C)) (s : Skill C) :
  find f l = Some s → s ∈ l ∧ f s = true.
Proof.
  intros H. apply find_some in H as [Hin Hf]. split; [|exact Hf].
  now apply list_elem_of_In.
Qed.

(** [disableSkill] leaves core skills alone.  When the skill of
    the given id is a core skill it throws [Cannot disable core skill]
    before anything is sent; and, the ids of the list being distinct, no
    run of [disableSkill] — whatever its id and whatever the gateway
    answers — changes a core skill. *)
Theorem disable_leaves_core_skills {C W : Type} (ipc : SkillsIpc C W)
  (skillId : jsstring) (st : SkillsState C) (w : W) :
  (∀ skill,
     find (fun s => eqb_str (skill_id s) skillId) (skills st) = Some skill →
     skill_isCore skill = Some true →
     disableSkill ipc skillId (st, w)
     = (Throw (new_Error "Cannot disable core skill"), (st, w)))
  ∧ (NoDup (skill_id <$> skills st) →
     ∀ outcome st' w',
       disableSkill ipc skillId (st, w) = (outcome, (st', w')) →
       ∀ s, s ∈ skills st → skill_isCore s = Some true → s ∈ skills st').
Proof.
  split.
  - intros skill Hfind Hcore. unfold disableSkill, bind, get_state. cbn [fst snd].
    now rewrite Hfind, Hcore.
  - intros Hnodup outcome st' w' Hrun s Hs Hcore.
    assert (Hrpc : ∀ o,
      (∀ skill, skill ∈ skills st → skill_id skill = skillId →
                skill_isCore skill ≠ Some true) →
      (let* result := in_snd (rpc_skills_update ipc skillId false) in
       if op_success result then updateSkill_enabled skillId false
       else throw (new_Error (or_string (op_error result) "Failed to disable skill")))
        (st, w) = (o, (st', w')) →
      s ∈ skills st').
    { intros o Hnot. unfold bind, in_snd, throw, updateSkill_enabled, set_state.
      cbn [fst snd].
      destruct (rpc_skills_update ipc skillId false w) as [[result|e] w1]; cbn [fst snd].
      - destruct (op_success result); intros H; inversion H; subst; [|exact Hs].
        cbn [skills]. apply list_elem_of_fmap. exists s. split; [|exact Hs].
        unfold eqb_str. case_bool_decide as Hid; [|reflexivity].
        exfalso. now apply (Hnot s Hs Hid).
      - intros H. inversion H. now subst. }
    unfold disableSkill, bind, get_state in Hrun. cbn [fst snd] in Hrun.
    destruct (find (fun s0 => eqb_str (skill_id s0) skillId) (skills st)) as [skill|] eqn:Hfind.
    + apply find_elem in Hfind as [Hin Hid].
      unfold eqb_str in Hid. apply bool_decide_eq_true_1 in Hid.
      destruct (skill_isCore skill) as [[|]|] eqn:Hskill.
      * unfold throw in Hrun. inversion Hrun. now subst.
      * apply (Hrpc outcome); [|exact Hrun]. intros skill' Hin' Hid'.
        assert (skill' = skill) as -> by (apply (unique_id (skills st)); congruence).
        congruence.
      * apply (Hrpc outcome); [|exact Hrun]. intros skill' Hin' Hid'.
        assert (skill' = skill) as -> by (apply (unique_id (skills st)); congruence).
        congruence.
    + apply find_id_None in Hfind. apply (Hrpc outcome); [|exact Hrun].
      intros skill' Hin' Hid' _. apply Hfind. rewrite <- Hid'.
      apply list_elem_of_fmap. now exists skill'.
Qed.

(** The [installing] flag of a slug never sticks: however
    [installSkill] and [uninstallSkill] end — the call rejected, a
    failure reply, or success with the refresh that follows — the flag
    of the slug is gone afterwards and the flags of other slugs are as
    they were.  They throw exactly when the call is rejected or replies
    without success; the error then carries the reply's text, or
    [Install failed] and [Uninstall failed] when it has none. *)
Theorem installing_flag_is_cleared {C W : Type} (ipc : SkillsIpc C W)
  (merge_config : option C → C → C) (slug : jsstring) (version : option jsstring)
  (st : SkillsState C) (w : W) :
  (∃ outcome st' w',
     installSkill ipc merge_config slug version (st, w) = (outcome, (st', w'))
     ∧ installing st' = delete slug (installing st)
     ∧ outcome
       = match clawhub_install ipc slug version w with
         | (Ok result, _) =>
             if op_success result then Ok tt
             else Throw (new_Error (or_string (op_error result) "Install failed"))
         | (Throw e, _) => Throw e
         end)
  ∧ (∃ outcome st' w',
       uninstallSkill ipc merge_config slug (st, w) = (outcome, (st', w'))
       ∧ installing st' = delete slug (installing st)
       ∧ outcome
         = match clawhub_uninstall ipc slug w with
           | (Ok result, _) =>
               if op_success result then Ok tt
               else Throw (new_Error (or_string (op_error result) "Uninstall failed"))
           | (Throw e, _) => Throw e
           end).
Proof.
  split.
  - unfold installSkill, try_finally, bind, set_state, in_snd, throw.
    cbn [fst snd skills installing skills_loading skills_error].
    destruct (clawhub_install ipc slug version w) as [[result|e] w1]; cbn [fst snd].
    + destruct (op_success result); cbn [negb].
      * destruct (fetchSkills_total ipc merge_config
                    (mkSkillsState (skills st) (skills_loading st)
                       (<[slug := true]> (installing st)) (skills_error st)) w1)
          as (st1 & w2 & Hfetch & _ & Hflags & _).
        rewrite Hfetch. cbn [fst snd installing]. eexists _, _, _.
        split; [reflexivity|]. split; [|reflexivity].
        cbn [installing]. rewrite Hflags. cbn [installing]. apply delete_insert_eq.
      * eexists _, _, _. split; [reflexivity|]. split; [|reflexivity].
        cbn [installing]. apply delete_insert_eq.
    + eexists _, _, _. split; [reflexivity|]. split; [|reflexivity].
      cbn [installing]. apply delete_insert_eq.
  - unfold uninstallSkill, try_finally, bind, set_state, in_snd, throw.
    cbn [fst snd skills installing skills_loading skills_error].
    destruct (clawhub_uninstall ipc slug w) as [[result|e] w1]; cbn [fst snd].
    + destruct (op_success result); cbn [negb].
      * destruct (fetchSkills_total ipc merge_config
                    (mkSkillsState (skills st) (skills_loading st)
                       (<[slug := true]> (installing st)) (skills_error st)) w1)
          as (st1 & w2 & Hfetch & _ & Hflags & _).
        rewrite Hfetch. cbn [fst snd installing]. eexists _, _, _.
        split; [reflexivity|]. split; [|reflexivity].
        cbn [installing]. rewrite Hflags. cbn [installing]. apply delete_insert_eq.
      * eexists _, _, _. split; [reflexivity|]. split; [|reflexivity].
        cbn [installing]. apply delete_insert_eq.
    + eexists _, _, _. split; [reflexivity|]. split; [|reflexivity].
      cbn [installing]. apply delete_insert_eq.
Qed.

(** ** The key step of the setup wizard *)

Lemma provider_save_written {St : Type} (storage : SecureStorage St)
  (homedir : jsstring) (join : list jsstring → jsstring) (writable : jsstring → bool)
  (config : ProviderConfig) (apiKey : jsstring) (s s1 s2 : St)
  (fs : gmap (list N) (FileData AuthProfilesStore)) :
  apiKey ≠ [] →
  saveProvider storage config s = (Ok tt, s1) →
  storeApiKey storage (config_id config) apiKey s1 = (Ok tt, s2) →
  writable (getAuthProfilesPath homedir join "main") = true →
  inherited (config_type config) = false →
  provider_save storage homedir join writable config (Some apiKey) (s, fs)
  = (Ok (success_reply []),
     (s2, <[getAuthProfilesPath homedir join "main" :=
              Parsed (saved_store (config_type config) apiKey
                        (readAuthProfiles homedir join "main" fs))]> fs)).
Proof.
  intros Hkey Hsave Hstore Hw Hproto.
  unfold provider_save, try_catch, bind, in_fst, ret. cbn [fst snd].
  rewrite Hsave. rewrite (truthy_nonempty apiKey Hkey). cbn [fst snd].
  rewrite Hstore. rewrite save_key_quietly_spec.
  rewrite save_succeeds_iff; [reflexivity|exact Hw|].
  unfold read_map. rewrite Hproto. now destruct (default ∅ _ !! config_type config).
Qed.

(** The wizard validates one key and saves another.  The vendor
    is asked about the key with the white space around it trimmed off;
    once the verdict is [valid], [provider:save] gets the key as it was
    typed, and that is the key that the secure storage and the
    auth-profiles file of agent [main] then hold.  The toast [API key
    validated and saved] follows every valid verdict: it is shown also
    when storing the key failed and nothing was written. *)
Theorem wizard_saves_key_as_typed {St W : Type} (storage : SecureStorage St)
  (fetch : Request → M W Response) (toLowerCase : jsstring → jsstring)
  (homedir : jsstring) (join : list jsstring → jsstring) (writable : jsstring → bool)
  (provider apiKey : jsstring) (ui : WizardUi) (s s0 s1 s2 : St)
  (fs : gmap (list N) (FileData AuthProfilesStore)) (w w' : W) (verdict : Verdict) :
  apiKey ≠ [] → provider ≠ [] →
  getProvider storage provider s = (Ok None, s0) →
  validateApiKey fetch toLowerCase provider apiKey w = (Ok verdict, w') →
  verdict_valid verdict = true →
  saveProvider storage (mkConfig provider provider) s0 = (Ok tt, s1) →
  let run := handleValidateKey storage fetch toLowerCase homedir join writable
               (Some provider) apiKey (ui, (s, fs, w)) in
  let shown := mkWizardUi false (Some true)
                 (toasts ui ++ [(true, VStr "API key validated and saved")]) in
  (storeApiKey storage provider apiKey s1 = (Ok tt, s2) →
   writable (getAuthProfilesPath homedir join "main") = true →
   inherited provider = false →
   ∃ fs' entries,
     run = (Ok tt, (shown, (s2, fs', w')))
     ∧ profiles (readAuthProfiles homedir join "main" fs') = Some entries
     ∧ entries !! (provider ++ js ":default") = Some (mkEntry "api_key" provider apiKey))
  ∧ (∀ e, storeApiKey storage provider apiKey s1 = (Throw e, s2) →
       run = (Ok tt, (shown, (s2, fs, w')))).
Proof.
  intros Hkey Hprovider Hget Hvalidate Hvalid Hsave run shown.
  assert (Hcheck : provider_validateKey storage fetch toLowerCase provider apiKey (s, w)
                   = (Ok verdict, (s0, w'))).
  { unfold provider_validateKey, try_catch, bind, in_fst, in_snd, ret. cbn [fst snd].
    rewrite Hget. cbn [fst snd]. now rewrite Hvalidate. }
  assert (Hstart : ∀ saved,
    (∀ fs0, provider_save storage homedir join writable (mkConfig provider provider)
              (Some apiKey) (s0, fs0) = saved fs0) →
    run = (Ok tt, (shown, ((saved fs).2.1, (saved fs).2.2, w')))).
  { intros saved Hsaved. unfold run, handleValidateKey.
    rewrite (truthy_nonempty apiKey Hkey), (truthy_nonempty provider Hprovider).
    cbn [negb orb].
    unfold set_ui, try_catch, bind, in_fst, in_snd, on_network, ret. cbn [fst snd].
    rewrite Hcheck. cbn [fst snd]. rewrite Hvalid. cbn [fst snd].
    rewrite Hsaved. unfold shown.
    destruct (saved fs) as [[reply|e] [s' fs']]; reflexivity. }
  split.
  - intros Hstore Hw Hproto.
    rewrite (Hstart (fun fs0 =>
               (Ok (success_reply []),
                (s2, <[getAuthProfilesPath homedir join "main" :=
                         Parsed (saved_store provider apiKey
                                   (readAuthProfiles homedir join "main" fs0))]> fs0)))).
    + cbn [fst snd]. eexists _, _. split; [reflexivity|]. split.
      * rewrite read_written by apply saved_store_valid, read_is_valid. reflexivity.
      * apply lookup_insert_eq.
    + intros fs0.
      now apply (provider_save_written storage homedir join writable
                   (mkConfig provider provider) apiKey s0 s1 s2 fs0).
  - intros e Hstore.
    rewrite (Hstart (fun fs0 => (Ok (failure_reply e), (s2, fs0)))); [reflexivity|].
    intros fs0. unfold provider_save, try_catch, bind, in_fst, ret. cbn [fst snd].
    rewrite Hsave. rewrite (truthy_nonempty apiKey Hkey). cbn [fst snd config_id].
    now rewrite Hstore.
Qed.

(** A key typed with a trailing line break: OpenAI is asked about
    [sk-1], and [sk-1] with the line break is what is saved. *)
Lemma wizard_saves_key_as_typed_witness :
  let typed := js "sk-1" ++ [10%N] in
  let net := recording_fetch (fun _ => Ok (mkResponse 200 (Ok (VObj [])))) in
  ∃ fs' entries,
    handleValidateKey blank_storage net ascii_lower "/home/u" slash_join (fun _ => true)
      (Some (js "openai")) typed (mkWizardUi false None [], (tt, ∅, []))
    = (Ok tt, (mkWizardUi false (Some true) [(true, VStr "API key validated and saved")],
               (tt, fs', [openai_request "sk-1"])))
    ∧ profiles (readAuthProfiles "/home/u" slash_join "main" fs') = Some entries
    ∧ entries !! js "openai:default" = Some (mkEntry "api_key" "openai" typed).
Proof.
  intros typed net.
  apply (proj1 (wizard_saves_key_as_typed blank_storage net ascii_lower "/home/u" slash_join
                  (fun _ => true) "openai" typed (mkWizardUi false None []) tt tt tt tt ∅
                  [] [openai_request "sk-1"] accepted
                  ltac:(discriminate) ltac:(discriminate) eq_refl eq_refl eq_refl eq_refl));
    reflexivity.
Defined.
